(** * A shallow embedding of [mail2.py], the terminal IMAP/SMTP mail client

    The development follows the layout of the Python file: helper functions
    ([decode_maybe], [extract_text_plain], [input_nonempty]), the IMAP client
    ([ImapClient]), the SMTP client ([SmtpClient]) and the application
    ([MailApp]).  The program comes first, then the vocabulary of the
    statements and the inputs they are run on, then the statements.

    Conventions of the model.

    - A Python [str] is a Rocq [string] holding the UTF-8 encoding of the
      text; [bytes] is a [string] as well.  Comparing two such strings byte
      by byte is comparing the texts code point by code point, which is how
      Python orders [str].  The blanks of [str.strip] and [str.split] are
      those of [str.isspace], the ones outside ASCII in their UTF-8
      encoding.  The function [lower] lowers the letters A to Z and serves
      where the lowered text is compared with ASCII text; where names are
      sorted by [str.lower], the lowering is the library's.
    - An exception is a value of [exn]; every constructor stands for an
      instance of Python's [Exception], which is what [except Exception]
      catches.  Fallible code returns a [result].
    - Calls into [smtplib], [imaplib] and [email] are outcomes supplied by
      the environment: a record field or a section variable per call. *)

From stdpp Require Import gmap strings list sorting.
From Stdlib Require Import String Ascii Lia DecimalString.

Set Warnings "-register-all".
Open Scope string_scope.
Arguments String.append !s1 s2 : simpl nomatch.

(** ** Exceptions and results *)

Inductive exn : Type :=
| IndexError
| AttributeError (msg : string)
| AssertionError
| EOFError
| KeyError (key : string)
| RuntimeError (msg : string)
| PlainException (msg : string)
| LibraryError (msg : string)
| ValueError (msg : string).

Inductive result (A : Type) : Type :=
| Ok (a : A)
| Raise (e : exn).

Arguments Ok {A} a.
Arguments Raise {A} e.

Definition is_ok {A} (r : result A) : bool :=
  match r with Ok _ => true | Raise _ => false end.

(** The [AttributeError] of an attribute looked up on an object that has
    none of that name, with the message Python gives it. *)
Definition no_attribute (type attr : string) : exn :=
  AttributeError ("'" ++ type ++ "' object has no attribute '" ++ attr ++ "'").

(** ** Python string operations *)

Definition bytes := string.

(** The double quote, character 34. *)
Definition dquote : ascii := "034"%char.
Definition comma : ascii := ","%char.

(** The blanks of [str.isspace] in ASCII: tab, line feed, vertical tab, form
    feed, carriage return, the four separators 28..31 and the space. *)
Definition is_space (c : ascii) : bool :=
  let n := nat_of_ascii c in
  (((9 <=? n) && (n <=? 13)) || ((28 <=? n) && (n <=? 32)))%nat.

Definition lower_char (c : ascii) : ascii :=
  let n := nat_of_ascii c in
  if ((65 <=? n) && (n <=? 90))%nat then ascii_of_nat (n + 32) else c.

(** [s.lower()] on the ASCII range: the letters A to Z are lowered.  It is
    used where the lowered text is compared with ASCII text ([re:], [fw:],
    the commands [o], [f] and [b], the names of header fields): the only
    characters outside ASCII whose lower case holds an ASCII letter are
    U+0130 and U+212A, which give [i] and [k]. *)
Fixpoint lower (s : string) : string :=
  match s with
  | EmptyString => EmptyString
  | String c s' => String (lower_char c) (lower s')
  end.

(** [s.startswith(p)] *)
Definition startswith (s p : string) : bool := String.prefix p s.

(** Truth value of a string: [if s:] holds for a non-empty [s]. *)
Definition truthy (s : string) : bool :=
  match s with EmptyString => false | String _ _ => true end.

Fixpoint lstrip_with (p : ascii -> bool) (s : string) : string :=
  match s with
  | EmptyString => EmptyString
  | String c s' => if p c then lstrip_with p s' else s
  end.

Fixpoint rstrip_with (p : ascii -> bool) (s : string) : string :=
  match s with
  | EmptyString => EmptyString
  | String c s' =>
      match rstrip_with p s' with
      | EmptyString => if p c then EmptyString else String c EmptyString
      | r => String c r
      end
  end.

(** [s.strip(chars)] for a one-character [chars]. *)
Definition strip_char (ch : ascii) (s : string) : string :=
  lstrip_with (Ascii.eqb ch) (rstrip_with (Ascii.eqb ch) s).

(** The blanks of [str.isspace] outside ASCII, in UTF-8.  Two bytes: U+0085
    and U+00A0.  Three bytes: U+1680, U+2000 to U+200A, U+2028, U+2029,
    U+202F, U+205F and U+3000. *)
Definition blank2 (c1 c2 : ascii) : bool :=
  let n2 := nat_of_ascii c2 in
  ((nat_of_ascii c1 =? 194) && ((n2 =? 133) || (n2 =? 160)))%nat.

Definition blank3 (c1 c2 c3 : ascii) : bool :=
  let n1 := nat_of_ascii c1 in
  let n2 := nat_of_ascii c2 in
  let n3 := nat_of_ascii c3 in
  (((n1 =? 225) && (n2 =? 154) && (n3 =? 128))
   || ((n1 =? 226) && (n2 =? 128)
       && (((128 <=? n3) && (n3 <=? 138)) || (n3 =? 168) || (n3 =? 169) || (n3 =? 175)))
   || ((n1 =? 226) && (n2 =? 129) && (n3 =? 159))
   || ((n1 =? 227) && (n2 =? 128) && (n3 =? 128)))%nat.

(** What follows the blank a text begins with; [None] when it does not
    begin with a blank.  No byte that continues a character begins a
    blank, so that in well-formed UTF-8 a blank is found only where a
    character begins. *)
Definition after_blank (s : string) : option string :=
  match s with
  | String c1 s1 =>
      if is_space c1 then Some s1
      else
        match s1 with
        | String c2 s2 =>
            if blank2 c1 c2 then Some s2
            else
              match s2 with
              | String c3 s3 => if blank3 c1 c2 c3 then Some s3 else None
              | EmptyString => None
              end
        | EmptyString => None
        end
  | EmptyString => None
  end.

(** [s.lstrip()] *)
Fixpoint lstrip (s : string) : string :=
  match s with
  | String c1 s1 =>
      if is_space c1 then lstrip s1
      else
        match s1 with
        | String c2 s2 =>
            if blank2 c1 c2 then lstrip s2
            else
              match s2 with
              | String c3 s3 => if blank3 c1 c2 c3 then lstrip s3 else s
              | EmptyString => s
              end
        | EmptyString => s
        end
  | EmptyString => s
  end.

(** [s.isspace()], or [s] is empty: nothing but blanks. *)
Fixpoint all_blank (s : string) : bool :=
  match s with
  | String c1 s1 =>
      if is_space c1 then all_blank s1
      else
        match s1 with
        | String c2 s2 =>
            if blank2 c1 c2 then all_blank s2
            else
              match s2 with
              | String c3 s3 => if blank3 c1 c2 c3 then all_blank s3 else false
              | EmptyString => false
              end
        | EmptyString => false
        end
  | EmptyString => true
  end.

(** [s.rstrip()]: the text is cut where nothing but blanks follows. *)
Fixpoint rstrip (s : string) : string :=
  match s with
  | EmptyString => EmptyString
  | String c s' => if all_blank s then EmptyString else String c (rstrip s')
  end.

(** [s.strip()] *)
Definition strip (s : string) : string := lstrip (rstrip s).

(** [s.split()]: the maximal runs of non-blank characters, in order.  [cur]
    is the run being read. *)
Fixpoint split_ws_go (cur : string) (s : string) : list string :=
  match s with
  | EmptyString => if truthy cur then [cur] else []
  | String c1 s1 =>
      if is_space c1
      then (if truthy cur then cur :: split_ws_go EmptyString s1
            else split_ws_go EmptyString s1)
      else
        match s1 with
        | String c2 s2 =>
            if blank2 c1 c2
            then (if truthy cur then cur :: split_ws_go EmptyString s2
                  else split_ws_go EmptyString s2)
            else
              match s2 with
              | String c3 s3 =>
                  if blank3 c1 c2 c3
                  then (if truthy cur then cur :: split_ws_go EmptyString s3
                        else split_ws_go EmptyString s3)
                  else split_ws_go (cur ++ String c1 EmptyString) s1
              | EmptyString => split_ws_go (cur ++ String c1 EmptyString) s1
              end
        | EmptyString => split_ws_go (cur ++ String c1 EmptyString) s1
        end
  end.

Definition split_ws (s : string) : list string := split_ws_go EmptyString s.

(** [s.split(sep)] for a one-character separator: empty fields are kept. *)
Fixpoint split_on_go (sep : ascii) (cur : string) (s : string) : list string :=
  match s with
  | EmptyString => [cur]
  | String c s' =>
      if Ascii.eqb c sep then cur :: split_on_go sep EmptyString s'
      else split_on_go sep (cur ++ String c EmptyString) s'
  end.

Definition split_on (sep : ascii) (s : string) : list string :=
  split_on_go sep EmptyString s.

(** [sep.join(l)] *)
Fixpoint join (sep : string) (l : list string) : string :=
  match l with
  | [] => EmptyString
  | [x] => x
  | x :: l' => x ++ sep ++ join sep l'
  end.

(** [l[-1]]: the last element, [IndexError] on the empty list. *)
Definition last_item {A} (l : list A) : result A :=
  match last l with
  | Some x => Ok x
  | None => Raise IndexError
  end.

(** ** Standard input

    [input()] takes the next line of the terminal; at the end of the input
    it raises [EOFError].  A procedure that reads returns the lines left. *)

Definition stdin := list string.

Definition input (i : stdin) : result (string * stdin) :=
  match i with
  | [] => Raise EOFError
  | l :: i' => Ok (l, i')
  end.

(** What [input_nonempty] returns, and the lines it leaves: the first line
    that is not empty once stripped.  The procedure, with the reminder it
    prints for each line it passes over, is [ask_nonempty] below. *)
Fixpoint input_nonempty (i : stdin) : result (string * stdin) :=
  match i with
  | [] => Raise EOFError
  | l :: i' =>
      let s := strip l in
      if truthy s then Ok (s, i') else input_nonempty i'
  end.

(** The loop shared by [compose_and_send] and [reply_to_message]: lines are
    collected until one that is a single dot once stripped. *)
Fixpoint read_body (lines : list string) (i : stdin) : result (list string * stdin) :=
  match i with
  | [] => Raise EOFError
  | l :: i' =>
      if String.eqb (strip l) "." then Ok (lines, i')
      else read_body (lines ++ [l]) i'
  end.

(** [[a.strip() for a in to_line.split(',') if a.strip()]] *)
Definition split_addresses (to_line : string) : list string :=
  List.map strip (List.filter (fun a => truthy (strip a)) (split_on comma to_line)).

(** ** The error monad of fallible, effect-free code *)

Global Instance result_ret : MRet result := fun _ a => Ok a.

Global Instance result_bind : MBind result := fun _ _ f r =>
  match r with
  | Ok a => f a
  | Raise e => Raise e
  end.

(** [try: body except Exception as e: handler(e)] *)
Definition try_except {A} (body : result A) (handler : exn -> result A) : result A :=
  match body with
  | Ok a => Ok a
  | Raise e => handler e
  end.

(** ** Messages

    A parsed message ([email.message.EmailMessage]) is a tree.  What the
    program reads of a node is kept in the node: its header fields, what
    [get_content_type()] and [get_content_disposition()] return, the outcome
    of [get_content()], the outcome of the explicit decoding
    [get_payload(decode=True).decode(get_content_charset() or
    FALLBACK_CHARSET, errors='replace')], and the sub-parts when the payload
    is a list ([is_multipart()]). *)

Inductive message : Type :=
  Message (headers : list (string * string))
          (content_type : string)
          (content_disposition : option string)
          (content : result string)
          (payload_text : result string)
          (payload : option (list message)).

Definition headers (m : message) : list (string * string) :=
  match m with Message h _ _ _ _ _ => h end.
Definition get_content_type (m : message) : string :=
  match m with Message _ t _ _ _ _ => t end.
Definition get_content_disposition (m : message) : option string :=
  match m with Message _ _ d _ _ _ => d end.
Definition get_content (m : message) : result string :=
  match m with Message _ _ _ c _ _ => c end.
Definition get_payload_text (m : message) : result string :=
  match m with Message _ _ _ _ p _ => p end.
Definition get_payload (m : message) : option (list message) :=
  match m with Message _ _ _ _ _ p => p end.

Definition is_multipart (m : message) : bool :=
  match get_payload m with Some _ => true | None => false end.

(** [get_content_maintype()] is [get_content_type().split('/')[0]]. *)
Definition get_content_maintype (m : message) : string :=
  match split_on "/"%char (get_content_type m) with
  | t :: _ => t
  | [] => EmptyString
  end.

(** [msg.get(name)]: the first field of that name, names compared without
    regard to case; [None] when there is none. *)
Fixpoint get_field (name : string) (hs : list (string * string)) : option string :=
  match hs with
  | [] => None
  | (n, v) :: hs' =>
      if String.eqb (lower n) (lower name) then Some v else get_field name hs'
  end.

Definition get (m : message) (name : string) : option string :=
  get_field name (headers m).

(** [msg.walk()]: the node itself, then its sub-parts, depth first, in the
    order of the document. *)
Fixpoint walk (m : message) : list message :=
  match m with
  | Message _ _ _ _ _ p =>
      m :: match p with
           | Some parts => List.flat_map walk parts
           | None => []
           end
  end.

(** An outgoing message as [send_text] builds it. *)
Record outgoing : Type := Outgoing {
  out_from : string;
  out_to : string;
  out_subject : string;
  out_body : string
}.

(** ** The library

    What [email] and the codecs compute, as far as the program relies on it. *)

Inductive header_value : Type :=
| VNone
| VStr (s : string)
| VBytes (b : bytes).

Record library : Type := Library {
  (** [str(make_header(decode_header(value)))] *)
  header_to_str : header_value -> result string;
  (** [b.decode(charset, errors='replace')] *)
  decode_replace : string -> bytes -> result string;
  (** [str(b)] of a bytes object, its printed form *)
  repr_bytes : bytes -> string;
  (** [message_from_bytes(raw, policy=policy.default)] *)
  message_from_bytes : bytes -> message;
  (** [formataddr((name, address))] *)
  formataddr : string -> string -> string;
  (** [parseaddr(field)], a pair of a display name and an address *)
  parseaddr : option string -> string * string;
  (** [msg.as_bytes()] *)
  as_bytes : outgoing -> result bytes;
  (** [s.lower()] on any text, the key of [sorted] *)
  str_lower : string -> string;
  (** What fetching an address or a date field raises, if anything, by the
      name and the value of the field: [policy.default] parses such a field
      when [msg.get] fetches it, and the parser raises on some values *)
  header_fault : string -> string -> option exn;
  (** [s.isdigit()] and [int(s)] for text that is not all ASCII *)
  unicode_isdigit : string -> bool;
  unicode_int : string -> result nat
}.

Definition FALLBACK_CHARSET : string := "utf-8".

(** [str(value)] *)
Definition str_of_value (lib : library) (value : header_value) : string :=
  match value with
  | VNone => "None"
  | VStr s => s
  | VBytes b => repr_bytes lib b
  end.

Definition of_header (h : option string) : header_value :=
  match h with
  | None => VNone
  | Some s => VStr s
  end.

(** [msg.get(name)] for the fields [From], [To] and [Date], which are parsed
    when they are fetched: a field that is absent gives [None] and is not
    parsed.  The field [Subject] is unstructured, its fetching does not
    raise, and [get] is used for it. *)
Definition get_parsed (lib : library) (m : message) (name : string)
    : result (option string) :=
  match get m name with
  | None => Ok None
  | Some v =>
      match header_fault lib name v with
      | Some e => Raise e
      | None => Ok (Some v)
      end
  end.

(** ** Helper functions *)

Definition decode_maybe (lib : library) (value : header_value) : result string :=
  match value with
  | VNone => Ok EmptyString
  | _ =>
      try_except (header_to_str lib value)
        (fun _ =>
           try_except
             (match value with
              | VBytes b => decode_replace lib FALLBACK_CHARSET b
              | _ => Ok (str_of_value lib value)
              end)
             (fun _ => Ok (str_of_value lib value)))
  end.

(** [decode_maybe(msg.get(name))] for a field that is parsed when it is
    fetched. *)
Definition decode_parsed (lib : library) (m : message) (name : string) : result string :=
  h ← get_parsed lib m name;
  decode_maybe lib (of_header h).

Definition NO_READABLE_PART : string := "(Žádná čitelná textová část.)".
Definition CANNOT_DECODE_BODY : string := "(Nelze dekódovat tělo zprávy.)".
Definition NOT_TEXTUAL : string := "(Zpráva není textového typu.)".

(** The test of the loop of [extract_text_plain]. *)
Definition is_plain_text_part (part : message) : bool :=
  String.eqb (get_content_type part) "text/plain"
  && negb (bool_decide (get_content_disposition part = Some "attachment")).

(** The text of a part: [get_content()], and when that raises the explicit
    decoding of the payload; [None] when both raise. *)
Definition part_text (part : message) : option string :=
  match get_content part with
  | Ok s => Some s
  | Raise _ =>
      match get_payload_text part with
      | Ok s => Some s
      | Raise _ => None
      end
  end.

(** The [for part in msg.walk()] loop: [Some] text when the loop returns,
    [None] when it runs to its end. *)
Fixpoint scan_parts (parts : list message) : option string :=
  match parts with
  | [] => None
  | part :: rest =>
      if is_plain_text_part part then
        match part_text part with
        | Some s => Some s
        | None => scan_parts rest
        end
      else scan_parts rest
  end.

Definition extract_text_plain (msg : message) : string :=
  if is_multipart msg then
    match scan_parts (walk msg) with
    | Some s => s
    | None => NO_READABLE_PART
    end
  else if String.eqb (get_content_maintype msg) "text" then
    match part_text msg with
    | Some s => s
    | None => CANNOT_DECODE_BODY
    end
  else NOT_TEXTUAL.

(** ** IMAP *)

(** An item of the data list [imaplib] returns with a response: a [bytes]
    line, a pair of [bytes] for a line that carries a literal, or [None]. *)
Inductive response_item : Type :=
| ItemBytes (b : bytes)
| ItemTuple (head literal : bytes)
| ItemNone.

(** [str(item)] *)
Definition str_of_item (lib : library) (item : response_item) : string :=
  match item with
  | ItemBytes b => repr_bytes lib b
  | ItemTuple a b => "(" ++ repr_bytes lib a ++ ", " ++ repr_bytes lib b ++ ")"
  | ItemNone => "None"
  end.

(** The connection of an [ImapClient], by what the server answers. *)
Record imap_connection : Type := ImapConnection {
  (** [conn.list(pattern='*')] *)
  conn_list : result (string * list response_item);
  (** [conn.select(mailbox, readonly=False)], the status *)
  conn_select : string -> result string;
  (** [conn.uid('FETCH', uid, what)] *)
  conn_uid_fetch : bytes -> string -> result (string * list response_item);
  (** [conn.append(mailbox, None, None, raw)], the status *)
  conn_append : string -> bytes -> result string
}.

Record ImapClient : Type := { imap_conn : option imap_connection }.

(** [re.findall] with the pattern of the code: a double quote, a group of
    one or more characters other than the double quote, a double quote.
    Matches are found from the left and do not overlap, so the search reads
    the line once: [cur] is [Some run] after a quote that may open a token,
    [run] being what followed it so far.  A quote that follows a non-empty
    run closes the token, which is found; a quote that follows an empty run
    is the next quote that may open one.  A run that the end of the line
    cuts short is no token, and no quote is left in it to open another. *)
Fixpoint findall_quoted_go (cur : option string) (s : string) : list string :=
  match s with
  | EmptyString => []
  | String c s' =>
      if Ascii.eqb c dquote then
        match cur with
        | Some (String _ _ as run) => run :: findall_quoted_go None s'
        | _ => findall_quoted_go (Some EmptyString) s'
        end
      else
        match cur with
        | Some run => findall_quoted_go (Some (run ++ String c EmptyString)) s'
        | None => findall_quoted_go None s'
        end
  end.

Definition findall_quoted (s : string) : list string := findall_quoted_go None s.

(** The two-character string made of two double quotes. *)
Definition two_quotes : string := String dquote (String dquote EmptyString).

(** The name [list_mailboxes] reads off a decoded line. *)
Definition mailbox_name (decoded : string) : result string :=
  match findall_quoted decoded with
  | [] => t ← last_item (split_ws decoded); Ok (strip_char dquote t)
  | m => last_item m
  end.

(** [name and name != '.' and name != two double quotes] *)
Definition keep_name (name : string) : bool :=
  truthy name && negb (String.eqb name ".") && negb (String.eqb name two_quotes).

Definition decode_line (lib : library) (line : response_item) : result string :=
  try_except
    (match line with
     | ItemBytes b => decode_replace lib "utf-8" b
     | ItemTuple _ _ => Raise (no_attribute "tuple" "decode")
     | ItemNone => Raise (no_attribute "NoneType" "decode")
     end)
    (fun _ => Ok (str_of_item lib line)).

(** The body of the [for line in data] loop, [boxes] being the list built
    so far. *)
Fixpoint collect_boxes (lib : library) (boxes : list string)
    (data : list response_item) : result (list string) :=
  match data with
  | [] => Ok boxes
  | line :: rest =>
      decoded ← decode_line lib line;
      name ← mailbox_name decoded;
      collect_boxes lib (if keep_name name then boxes ++ [name] else boxes) rest
  end.

(** The order of [sorted(..., key=str.lower)]: the keys are compared as
    texts.  The key is [str.lower] on any text, which the library gives. *)
Definition lower_le (lib : library) (a b : string) : Prop :=
  String.le (str_lower lib a) (str_lower lib b).

Global Instance lower_le_dec (lib : library) : RelDecision (lower_le lib).
Proof. intros a b. unfold lower_le. apply _. Defined.

(** [sorted(set(boxes), key=str.lower)].  The set is a [gset]; the order in
    which Python walks a set is not specified, [elements] fixes one, and
    nothing below depends on which.  The sort is by the lowered names. *)
Definition sorted_set (lib : library) (boxes : list string) : list string :=
  merge_sort (lower_le lib) (elements (list_to_set boxes : gset string)).

Definition is_nil {A} (l : list A) : bool :=
  match l with [] => true | _ :: _ => false end.

Definition list_mailboxes (lib : library) (self : ImapClient) : result (list string) :=
  match imap_conn self with
  | None => Raise AssertionError
  | Some conn =>
      r ← conn_list conn;
      let '(typ, data) := r in
      if negb (String.eqb typ "OK") || is_nil data then Ok []
      else boxes ← collect_boxes lib [] data; Ok (sorted_set lib boxes)
  end.

Definition HEADER_FIELDS : string := "(BODY.PEEK[HEADER.FIELDS (FROM SUBJECT DATE)])".

(** [isinstance(data[0], tuple)], for a non-empty [data] *)
Definition first_is_tuple (data : list response_item) : bool :=
  match data with
  | ItemTuple _ _ :: _ => true
  | _ => false
  end.

Definition fetch_headers (lib : library) (self : ImapClient) (uid : bytes)
    : result (string * string * string) :=
  match imap_conn self with
  | None => Raise AssertionError
  | Some conn =>
      r ← conn_uid_fetch conn uid HEADER_FIELDS;
      let '(typ, data) := r in
      if negb (String.eqb typ "OK") || is_nil data || negb (first_is_tuple data)
      then Ok (EmptyString, EmptyString, EmptyString)
      else
        match data with
        | ItemTuple _ raw :: _ =>
            let hdr := message_from_bytes lib raw in
            f ← decode_parsed lib hdr "From";
            s ← decode_maybe lib (of_header (get hdr "Subject"));
            d ← decode_parsed lib hdr "Date";
            Ok (f, s, d)
        | _ => Raise IndexError
        end
  end.

(** ** Configuration *)

(** [config.json], as far as the code below reads it.  [None] is a key that
    is absent. *)
Record config : Type := Config {
  smtp_ssl : option bool;
  smtp_starttls_fallback : option bool;
  FOLDERS : gmap string string
}.

(** ** Effects: the terminal, the network, the SMTP connection

    Procedures that print, read or talk to a server run on a [machine]: the
    lines still to be typed, the [conn] field of the [SmtpClient], and the
    trace of what was printed and which calls were made, oldest first.  An
    exception leaves the machine as it was when raised; the one that
    [input] raises is raised when no line is left.  The prompts of [input]
    are not recorded. *)

Inductive smtp_connection : Type :=
| SMTP_SSL      (* made by [smtplib.SMTP_SSL(host, port, ...)] *)
| SMTP_587.     (* made by [smtplib.SMTP(host, 587, ...)] *)

Inductive event : Type :=
| Printed (line : string)
| SslConnect (host : string) (port : nat)
| PlainConnect (host : string) (port : nat)
| Ehlo
| StartTls
| Login (c : smtp_connection) (user : string)
| SendMessage (c : smtp_connection) (msg : outgoing)
| ImapSelect (mailbox : string)
| ImapAppend (mailbox : string) (raw : bytes).

Record machine : Type := Machine {
  keyboard : stdin;
  smtp_conn : option smtp_connection;
  trace : list event
}.

Definition M (A : Type) : Type := machine -> result A * machine.

Global Instance M_ret : MRet M := fun _ a w => (Ok a, w).

Global Instance M_bind : MBind M := fun _ _ f m w =>
  match m w with
  | (Ok a, w') => f a w'
  | (Raise e, w') => (Raise e, w')
  end.

Definition raise {A} (e : exn) : M A := fun w => (Raise e, w).

Definition lift {A} (r : result A) : M A := fun w => (r, w).

Definition emit (ev : event) : M unit := fun w =>
  (Ok tt, Machine (keyboard w) (smtp_conn w) (trace w ++ [ev])).

Definition print (line : string) : M unit := emit (Printed line).

(** A call into the network: it is recorded, then it returns or raises as
    the server decides. *)
Definition call {A} (ev : event) (outcome : result A) : M A :=
  emit ev;; lift outcome.

Definition set_conn (c : smtp_connection) : M unit := fun w =>
  (Ok tt, Machine (keyboard w) (Some c) (trace w)).

Definition get_conn : M (option smtp_connection) := fun w => (Ok (smtp_conn w), w).

(** A procedure that reads the terminal.  [input()] raises at the end of
    the input only: a reader that raises has taken every line before, and
    none is left. *)
Definition reading {A} (f : stdin -> result (A * stdin)) : M A := fun w =>
  match f (keyboard w) with
  | Ok (a, rest) => (Ok a, Machine rest (smtp_conn w) (trace w))
  | Raise e => (Raise e, Machine [] (smtp_conn w) (trace w))
  end.

Definition REMINDER : string := "Zadej prosím neprázdnou hodnotu.".

(** The loop of [input_nonempty], on the lines [i] still to be typed: a
    line that is empty once stripped is answered with the reminder. *)
Fixpoint asking (i : stdin) (w : machine) : result string * machine :=
  match i with
  | [] => (Raise EOFError, Machine [] (smtp_conn w) (trace w))
  | l :: i' =>
      let s := strip l in
      if truthy s then (Ok s, Machine i' (smtp_conn w) (trace w))
      else asking i' (Machine i' (smtp_conn w) (trace w ++ [Printed REMINDER]))
  end.

(** [input_nonempty(prompt)], as a procedure. *)
Definition ask_nonempty : M string := fun w => asking (keyboard w) w.

(** [try: body except Exception as e: handler(e)] *)
Definition try_exceptM {A} (body : M A) (handler : exn -> M A) : M A := fun w =>
  match body w with
  | (Ok a, w') => (Ok a, w')
  | (Raise e, w') => handler e w'
  end.

(** [str(e)] *)
Definition str_of_exn (e : exn) : string :=
  match e with
  | IndexError => "list index out of range"
  | AttributeError msg => msg
  | AssertionError => EmptyString
  | EOFError => "EOF when reading a line"
  | KeyError k => "'" ++ k ++ "'"
  | RuntimeError msg => msg
  | PlainException msg => msg
  | LibraryError msg => msg
  | ValueError msg => msg
  end.

(** ** SMTP *)

(** The submission server, by the outcome of each call: [Ok tt] when the
    call returns, [Raise e] when it raises [e].  Building the TLS context
    ([ssl.create_default_context()]) is taken to succeed. *)
Record smtp_server : Type := SmtpServer {
  ssl_connect : result unit;     (* [smtplib.SMTP_SSL(host, port, context, timeout)] *)
  ssl_login : result unit;       (* [login] on that connection *)
  plain_connect : result unit;   (* [smtplib.SMTP(host, 587, timeout)] *)
  plain_ehlo : result unit;      (* [ehlo()] *)
  plain_starttls : result unit;  (* [starttls(context)] *)
  plain_login : result unit;     (* [login] after the upgrade *)
  send_message : smtp_connection -> outgoing -> result unit
}.

Record SmtpClient : Type := {
  smtp_host : string;
  smtp_port : nat;
  smtp_user : string;
  smtp_password : string
}.

(** [CONFIG['smtp']['ssl']] *)
Definition config_ssl (cfg : config) : result bool :=
  match smtp_ssl cfg with
  | Some b => Ok b
  | None => Raise (KeyError "ssl")
  end.

(** [CONFIG['smtp'].get('starttls_fallback', False)] *)
Definition config_fallback (cfg : config) : bool :=
  default false (smtp_starttls_fallback cfg).

Definition connect (cfg : config) (srv : smtp_server) (self : SmtpClient) : M unit :=
  try_exceptM
    (ssl ← lift (config_ssl cfg);
     if ssl : bool then
       print "SMTP: pokus o připojení na port 465 (SSL)…";;
       call (SslConnect (smtp_host self) (smtp_port self)) (ssl_connect srv);;
       set_conn SMTP_SSL;;
       call (Login SMTP_SSL (smtp_user self)) (ssl_login srv);;
       print "SMTP: připojení přes SSL OK."
     else raise (PlainException "SSL není povoleno v configu"))
    (fun e =>
       if config_fallback cfg then
         print ("SMTP SSL selhalo: " ++ str_of_exn e);;
         print "SMTP: zkouším STARTTLS na portu 587…";;
         call (PlainConnect (smtp_host self) 587) (plain_connect srv);;
         set_conn SMTP_587;;
         call Ehlo (plain_ehlo srv);;
         call StartTls (plain_starttls srv);;
         call (Login SMTP_587 (smtp_user self)) (plain_login srv);;
         print "SMTP: připojení přes STARTTLS OK."
       else raise e).

(** [from_name or self.user] *)
Definition or_else (o : option string) (d : string) : string :=
  match o with
  | Some (String _ _ as s) => s
  | _ => d
  end.

Definition select_mailbox (self : ImapClient) (mailbox : string) : M unit :=
  match imap_conn self with
  | None => raise AssertionError
  | Some conn =>
      typ ← call (ImapSelect mailbox) (conn_select conn mailbox);
      if String.eqb typ "OK" then mret tt
      else raise (RuntimeError ("Nelze vybrat schránku: " ++ mailbox))
  end.

(** The body of the [try] of [send_text]: the copy into the Sent folder. *)
Definition archive_copy (lib : library) (cfg : config) (imap_client : ImapClient)
    (msg : outgoing) : M unit :=
  sent_box ← lift (match FOLDERS cfg !! "sent" with
                   | Some b => Ok b
                   | None => Raise (KeyError "sent")
                   end);
  print ("IMAP: pokus o zápis do '" ++ sent_box ++ "'…");;
  select_mailbox imap_client sent_box;;
  match imap_conn imap_client with
  | None => raise (no_attribute "NoneType" "append")
  | Some conn =>
      raw ← lift (as_bytes lib msg);
      call (ImapAppend sent_box raw) (conn_append conn sent_box raw);;
      mret tt
  end;;
  print ("IMAP: zpráva zapsána do složky '" ++ sent_box ++ "'.").

Definition archive_warning (e : exn) : string :=
  "IMAP: nepodařilo se uložit do Sent (" ++ str_of_exn e ++ ").".

(** The message [send_text] builds.  Assigning its fields is taken to
    succeed. *)
Definition build_message (lib : library) (self : SmtpClient) (to_addrs : list string)
    (subject body : string) (from_name : option string) : outgoing :=
  let sender_display := formataddr lib (or_else from_name (smtp_user self)) (smtp_user self) in
  Outgoing sender_display (join ", " to_addrs) subject body.

Definition send_text (lib : library) (cfg : config) (srv : smtp_server)
    (self : SmtpClient) (to_addrs : list string) (subject body : string)
    (from_name : option string) (imap_client : option ImapClient) : M unit :=
  let msg := build_message lib self to_addrs subject body from_name in
  (* 1) over SMTP *)
  c ← get_conn;
  match c with
  | None => raise (no_attribute "NoneType" "send_message")
  | Some c => call (SendMessage c msg) (send_message srv c msg)
  end;;
  print "SMTP: zpráva odeslána.";;
  (* 2) a copy into Sent, when an IMAP client is given *)
  match imap_client with
  | Some imap_client =>
      try_exceptM (archive_copy lib cfg imap_client msg)
        (fun e => print (archive_warning e))
  | None => mret tt
  end.

(** ** The application *)

Record MailApp : Type := { imap : ImapClient; smtp : SmtpClient }.

Definition compose_and_send (lib : library) (cfg : config) (srv : smtp_server)
    (self : MailApp) : M unit :=
  to_line ← ask_nonempty;
  subject ← reading input;
  let subject := strip subject in
  print "Text zprávy (ukonči na prázdném řádku s tečkou '.'):";;
  lines ← reading (read_body []);
  let body := join (String "010"%char EmptyString) lines in
  let to_addrs := split_addresses to_line in
  send_text lib cfg srv (smtp self) to_addrs subject body None (Some (imap self)).

(** [original.get('Subject') or ''] *)
Definition original_subject (original : message) : string :=
  or_else (get original "Subject") EmptyString.

(** The rule of [reply_to_message] for the subject. *)
Definition reply_rule (subject : string) : string :=
  if negb (startswith (lower subject) "re:") then "Re: " ++ subject else subject.

Definition reply_subject (original : message) : string :=
  reply_rule (original_subject original).

Definition reply_to_message (lib : library) (cfg : config) (srv : smtp_server)
    (self : MailApp) (original : message) : M unit :=
  h_from ← lift (get_parsed lib original "From");
  let orig_from := snd (parseaddr lib h_from) in
  let subject := reply_subject original in
  print ("Odpověď na: " ++ orig_from);;
  print "Text zprávy (ukonči na prázdném řádku s tečkou '.'):";;
  lines ← reading (read_body []);
  let body := join (String "010"%char EmptyString) lines in
  send_text lib cfg srv (smtp self) [orig_from] subject body None (Some (imap self)).

(** The rule of [forward_message] for the subject. *)
Definition forward_rule (subject : string) : string :=
  if negb (startswith (lower subject) "fw:") then "Fwd: " ++ subject else subject.

Definition forward_subject (original : message) : string :=
  forward_rule (original_subject original).

Definition forward_message (lib : library) (cfg : config) (srv : smtp_server)
    (self : MailApp) (original : message) : M unit :=
  to_line ← ask_nonempty;
  let subject := forward_subject original in
  h_from ← lift (decode_parsed lib original "From");
  h_date ← lift (decode_parsed lib original "Date");
  h_subject ← lift (decode_maybe lib (of_header (get original "Subject")));
  h_to ← lift (decode_parsed lib original "To");
  let nl := String "010"%char EmptyString in
  let intro := [ "---------- Původní zpráva ----------";
                 "From: " ++ h_from;
                 "Date: " ++ h_date;
                 "Subject: " ++ h_subject;
                 "To: " ++ h_to ] in
  let orig_body := extract_text_plain original in
  let composed := join nl intro ++ nl ++ nl ++ orig_body in
  let to_addrs := split_addresses to_line in
  send_text lib cfg srv (smtp self) to_addrs subject composed None (Some (imap self)).

(** * The rest of the program

    The functions of [mail2.py] that the first part leaves out, on the same
    machine and with the same library. *)

(** ** More of Python *)

Definition PAGE_SIZE : nat := 20.

Fixpoint all_chars (p : ascii -> bool) (s : string) : bool :=
  match s with
  | EmptyString => true
  | String c s' => p c && all_chars p s'
  end.

(** The blanks of [bytes.split()]: tab, line feed, vertical tab, form feed,
    carriage return and the space. *)
Definition is_bspace (c : ascii) : bool :=
  let n := nat_of_ascii c in
  (((9 <=? n) && (n <=? 13)) || (n =? 32))%nat.

(** [b.split()] on bytes: the maximal runs of bytes that are not blanks. *)
Fixpoint bsplit_go (cur : string) (s : string) : list string :=
  match s with
  | EmptyString => if truthy cur then [cur] else []
  | String c s' =>
      if is_bspace c
      then (if truthy cur then cur :: bsplit_go EmptyString s'
            else bsplit_go EmptyString s')
      else bsplit_go (cur ++ String c EmptyString) s'
  end.

Definition bsplit (s : bytes) : list bytes := bsplit_go EmptyString s.

Definition is_digit (c : ascii) : bool :=
  let n := nat_of_ascii c in
  ((48 <=? n) && (n <=? 57))%nat.

(** A text of ASCII characters only. *)
Definition is_ascii (s : string) : bool :=
  all_chars (fun c => (nat_of_ascii c <? 128)%nat) s.

(** [s.isdigit()]: on ASCII text, not empty and decimal digits only; on
    other text, what the library says. *)
Definition isdigit (lib : library) (s : string) : bool :=
  if is_ascii s then truthy s && all_chars is_digit s else unicode_isdigit lib s.

(** [str(n)] for a number that is not negative. *)
Definition str_of_nat (n : nat) : string := NilZero.string_of_uint (Nat.to_uint n).

(** The value of a string of ASCII decimal digits. *)
Fixpoint int_go (acc : nat) (s : string) : nat :=
  match s with
  | EmptyString => acc
  | String c s' => int_go (acc * 10 + (nat_of_ascii c - 48)) s'
  end.

(** The limit Python sets by default on the number of digits [int] converts,
    and the [ValueError] it raises past it. *)
Definition MAX_STR_DIGITS : nat := 4300.

Definition too_many_digits (n : nat) : exn :=
  ValueError ("Exceeds the limit (4300 digits) for integer string conversion: value has "
              ++ str_of_nat n ++ " digits; use sys.set_int_max_str_digits() to increase the limit").

(** [int(s)] for a text that [isdigit] accepts: on ASCII text the value of
    the digits, unless there are too many; on other text, what the library
    says. *)
Definition int (lib : library) (s : string) : result nat :=
  if is_ascii s then
    if (MAX_STR_DIGITS <? String.length s)%nat
    then Raise (too_many_digits (String.length s))
    else Ok (int_go 0 s)
  else unicode_int lib s.

(** [l[i]] for an index that is not negative: [IndexError] past the end. *)
Definition index_item {A} (l : list A) (i : nat) : result A :=
  match l !! i with
  | Some x => Ok x
  | None => Raise IndexError
  end.

Definition newline : string := String "010"%char EmptyString.

(** ** More of IMAP *)

(** What the connection of an [ImapClient] answers to the calls that
    [imap_connection] does not list. *)
Record imap_more : Type := ImapMore {
  (** [conn.uid('SEARCH', None, criteria)] *)
  conn_uid_search : string -> result (string * list response_item)
}.

(** [data[0].split() if data and data[0] else []]: a first item that is
    [None] or empty bytes counts for nothing, a pair has no [split]. *)
Definition search_uids (self : ImapClient) (more : imap_more) (criteria : string)
    : result (list bytes) :=
  match imap_conn self with
  | None => Raise AssertionError
  | Some _ =>
      r ← conn_uid_search more criteria;
      let '(typ, data) := r in
      if negb (String.eqb typ "OK") then Ok []
      else
        match data with
        | [] => Ok []
        | ItemNone :: _ => Ok []
        | ItemBytes b :: _ => if truthy b then Ok (bsplit b) else Ok []
        | ItemTuple _ _ :: _ => Raise (no_attribute "tuple" "split")
        end
  end.

Definition RFC822 : string := "(RFC822)".

Definition fetch_full (lib : library) (self : ImapClient) (uid : bytes) : result message :=
  match imap_conn self with
  | None => Raise AssertionError
  | Some conn =>
      r ← conn_uid_fetch conn uid RFC822;
      let '(typ, data) := r in
      if negb (String.eqb typ "OK") || is_nil data || negb (first_is_tuple data)
      then Raise (RuntimeError "Nelze načíst zprávu.")
      else
        match data with
        | ItemTuple _ raw :: _ => Ok (message_from_bytes lib raw)
        | _ => Raise IndexError
        end
  end.

(** [ImapClient.append_message] *)
Definition append_message (lib : library) (self : ImapClient) (mailbox : string)
    (msg : outgoing) : M unit :=
  match imap_conn self with
  | None => raise AssertionError
  | Some conn =>
      raw ← lift (as_bytes lib msg);
      call (ImapAppend mailbox raw) (conn_append conn mailbox raw);;
      mret tt
  end.

(** ** More of the application *)

(** The [while True] loop of [open_message]: lines are read until one is,
    stripped and lowered, one of the three commands. *)
Fixpoint read_command (i : stdin) : result (string * stdin) :=
  match i with
  | [] => Raise EOFError
  | l :: i' =>
      let cmd := lower (strip l) in
      if String.eqb cmd "o" || String.eqb cmd "f" || String.eqb cmd "b"
      then Ok (cmd, i')
      else read_command i'
  end.

Definition open_message (lib : library) (cfg : config) (srv : smtp_server)
    (self : MailApp) (mailbox : string) (uid : bytes) : M unit :=
  msg ← lift (fetch_full lib (imap self) uid);
  h_from ← lift (decode_parsed lib msg "From");
  h_to ← lift (decode_parsed lib msg "To");
  h_subject ← lift (decode_maybe lib (of_header (get msg "Subject")));
  h_date ← lift (decode_parsed lib msg "Date");
  print (newline ++ "==================== ZPRÁVA ====================");;
  print ("From:    " ++ h_from);;
  print ("To:      " ++ h_to);;
  print ("Subject: " ++ h_subject);;
  print ("Date:    " ++ h_date);;
  print "------------------------------------------------";;
  print (extract_text_plain msg);;
  print ("================================================" ++ newline);;
  cmd ← reading read_command;
  if String.eqb cmd "o" then reply_to_message lib cfg srv self msg
  else if String.eqb cmd "f" then forward_message lib cfg srv self msg
  else mret tt.

(** The [for idx, uid in enumerate(page, start=1)] loop of [browse_folder]. *)
Fixpoint show_page (lib : library) (self : ImapClient) (idx : nat) (page : list bytes)
    : M unit :=
  match page with
  | [] => mret tt
  | uid :: rest =>
      h ← lift (fetch_headers lib self uid);
      let '(From, Subject, Date) := h in
      f ← lift (decode_maybe lib (VStr From));
      sj ← lift (decode_maybe lib (VStr Subject));
      print (str_of_nat idx ++ ") " ++ Date ++ " | " ++ f ++ " | " ++ sj);;
      show_page lib self (S idx) rest
  end.

Definition browse_folder (lib : library) (cfg : config) (srv : smtp_server)
    (more : imap_more) (self : MailApp) (mailbox : string) : M unit :=
  print (newline ++ ">>> Schránka: " ++ mailbox);;
  select_mailbox (imap self) mailbox;;
  uids ← lift (search_uids (imap self) more "ALL");
  if is_nil uids then print "Žádné zprávy."
  else
    let uids := rev uids in
    show_page lib (imap self) 1 (take PAGE_SIZE uids);;
    cmd ← reading input;
    let cmd := strip cmd in
    if isdigit lib cmd then
      sel ← lift (int lib cmd);
      if ((1 <=? sel) && (sel <=? List.length (take PAGE_SIZE uids)))%nat then
        uid ← lift (index_item uids (sel - 1));
        open_message lib cfg srv self mailbox uid
      else mret tt
    else mret tt.

(** ** Leaving, and the menu *)

(** What the two servers answer when the connections are closed.  The trace
    has no event for these two calls. *)
Record goodbye : Type := Goodbye {
  smtp_quit : result unit;     (* [conn.quit()] of [SmtpClient.close] *)
  imap_logout : result unit    (* [conn.logout()] of [ImapClient.close] *)
}.

(** [SmtpClient.close] *)
Definition smtp_close (bye : goodbye) : M unit :=
  try_exceptM
    (c ← get_conn;
     match c with
     | Some _ => lift (smtp_quit bye)
     | None => mret tt
     end)
    (fun _ => mret tt).

(** [ImapClient.close] *)
Definition imap_close (bye : goodbye) (self : ImapClient) : M unit :=
  try_exceptM
    (match imap_conn self with
     | Some _ => lift (imap_logout bye)
     | None => mret tt
     end)
    (fun _ => mret tt).

Definition shutdown (bye : goodbye) (self : MailApp) : M unit :=
  smtp_close bye;;
  imap_close bye (imap self).

(** [FOLDERS[key]] *)
Definition folder (cfg : config) (key : string) : result string :=
  match FOLDERS cfg !! key with
  | Some b => Ok b
  | None => Raise (KeyError key)
  end.

(** The body of the [try] of [main_menu]: [false] stands for the [return]
    of the choice [0], [true] for the end of the body, after which the loop
    goes on. *)
Definition menu_action (lib : library) (cfg : config) (srv : smtp_server)
    (more : imap_more) (bye : goodbye) (self : MailApp) (choice : string) : M bool :=
  if String.eqb choice "1" then
    box ← lift (folder cfg "inbox");
    browse_folder lib cfg srv more self box;;
    mret true
  else if String.eqb choice "2" then
    box ← lift (folder cfg "sent");
    browse_folder lib cfg srv more self box;;
    mret true
  else if String.eqb choice "3" then
    box ← lift (folder cfg "trash");
    browse_folder lib cfg srv more self box;;
    mret true
  else if String.eqb choice "4" then
    box ← lift (folder cfg "spam");
    browse_folder lib cfg srv more self box;;
    mret true
  else if String.eqb choice "5" then
    compose_and_send lib cfg srv self;;
    mret true
  else if String.eqb choice "0" then
    print "Odpojuji…";;
    shutdown bye self;;
    mret false
  else
    print "Neplatná volba.";;
    mret true.

(** One round of the [while True] of [main_menu]: the menu, the choice,
    which is read outside the [try], and the [try]. *)
Definition menu_round (lib : library) (cfg : config) (srv : smtp_server)
    (more : imap_more) (bye : goodbye) (self : MailApp) : M bool :=
  print (newline ++ "=== MENU ===");;
  print "1) Načíst a procházet INBOX";;
  print "2) Procházet Odeslanou poštu (Sent)";;
  print "3) Procházet Koš (Trash)";;
  print "4) Procházet Spam";;
  print "5) Odeslat nový e-mail";;
  print "0) Konec";;
  choice ← reading input;
  let choice := strip choice in
  try_exceptM (menu_action lib cfg srv more bye self choice)
    (fun e => print ("[CHYBA] " ++ str_of_exn e);; mret true).

(** [main_menu], with a bound on the number of rounds: [None] when the
    bound is reached, [Some tt] when the loop is left by its [return]. *)
Fixpoint main_menu (fuel : nat) (lib : library) (cfg : config) (srv : smtp_server)
    (more : imap_more) (bye : goodbye) (self : MailApp) : M (option unit) :=
  match fuel with
  | O => mret None
  | S fuel =>
      again ← menu_round lib cfg srv more bye self;
      if again : bool then main_menu fuel lib cfg srv more bye self
      else mret (Some tt)
  end.


(** ** Starting, and the program *)

(** The IMAP server at the start, by the outcome of each call.  Building
    the TLS context is taken to succeed, as for SMTP, and the trace has no
    event for these calls. *)
Record imap_server : Type := ImapServer {
  (** [imaplib.IMAP4_SSL(host, port, ssl_context)] *)
  imap_ssl_connect : result imap_connection;
  (** [conn.login(user, password)], the status *)
  imap_login : result string;
  (** [conn.list('', '*')], the call of the debug listing *)
  debug_list : result (string * list response_item)
}.

(** [ImapClient.connect].  The method assigns [self.conn] before it logs
    in: the client as the call leaves it is returned beside the outcome. *)
Definition imap_connect (isrv : imap_server) (self : ImapClient)
    : ImapClient * result unit :=
  match imap_ssl_connect isrv with
  | Raise e => (self, Raise e)
  | Ok conn =>
      ({| imap_conn := Some conn |},
       typ ← imap_login isrv;
       if String.eqb typ "OK" then Ok tt
       else Raise (RuntimeError "IMAP přihlášení selhalo."))
  end.

(** [for line in data: print(' ', line.decode(errors='replace'))]: only
    bytes have a [decode]. *)
Fixpoint debug_lines (lib : library) (data : list response_item) : M unit :=
  match data with
  | [] => mret tt
  | line :: rest =>
      s ← lift (match line with
                | ItemBytes b => decode_replace lib "utf-8" b
                | ItemTuple _ _ => Raise (no_attribute "tuple" "decode")
                | ItemNone => Raise (no_attribute "NoneType" "decode")
                end);
      print ("  " ++ s);;
      debug_lines lib rest
  end.

(** [for box in boxes: print(' -', box)] *)
Fixpoint print_boxes (boxes : list string) : M unit :=
  match boxes with
  | [] => mret tt
  | box :: rest => print (" - " ++ box);; print_boxes rest
  end.

(** [MailApp.start] from the call of [self.smtp.connect()] on.
    [EMAIL_USER] is the user [MailApp.__init__] gives to both clients. *)
Definition start_connected (fuel : nat) (lib : library) (cfg : config)
    (srv : smtp_server) (isrv : imap_server) (more : imap_more) (bye : goodbye)
    (self : MailApp) (debug_folders : bool) : M (option unit) :=
  connect cfg srv (smtp self);;
  print ("Hotovo. Přihlášen jako: " ++ smtp_user (smtp self));;
  (if debug_folders then
     print "=== DEBUG: LIST ===";;
     match imap_conn (imap self) with
     | None => raise (no_attribute "NoneType" "list")
     | Some _ =>
         r ← lift (debug_list isrv);
         let '(typ, data) := r in
         print ("LIST " ++ two_quotes ++ " " ++
                String dquote ("*" ++ String dquote (" => " ++ typ)));;
         if is_nil data then mret tt else debug_lines lib data
     end
   else mret tt);;
  print (newline ++ "Dostupné složky:");;
  boxes ← lift (list_mailboxes lib (imap self));
  print_boxes boxes;;
  main_menu fuel lib cfg srv more bye self.

(** [MailApp.start]: the application as the call leaves it, and the
    outcome. *)
Definition start (fuel : nat) (lib : library) (cfg : config) (srv : smtp_server)
    (isrv : imap_server) (more : imap_more) (bye : goodbye) (self : MailApp)
    (debug_folders : bool) (w : machine) : MailApp * (result (option unit) * machine) :=
  let w1 := snd (print "Připojuji IMAP/SMTP…" w) in
  let '(imap_client, logged_in) := imap_connect isrv (imap self) in
  let self' := {| imap := imap_client; smtp := smtp self |} in
  match logged_in with
  | Raise e => (self', (Raise e, w1))
  | Ok _ => (self', start_connected fuel lib cfg srv isrv more bye self' debug_folders w1)
  end.

(** [main], for the application [MailApp()] makes, neither client
    connected, and the lines of the input: the exit status, 0 for a return
    and 1 for [sys.exit(1)], or [None] when the bound on the rounds of the
    menu is reached.  The input is a list of lines: there is no
    [KeyboardInterrupt]. *)
Definition main (fuel : nat) (lib : library) (cfg : config) (srv : smtp_server)
    (isrv : imap_server) (more : imap_more) (bye : goodbye) (client : SmtpClient)
    (i : stdin) : option nat * machine :=
  let app := {| imap := {| imap_conn := None |}; smtp := client |} in
  let '(app, (r, w)) :=
    start fuel lib cfg srv isrv more bye app false (Machine i None []) in
  match r with
  | Ok (Some _) => (Some 0%nat, w)
  | Ok None => (None, w)
  | Raise e =>
      (Some 1%nat,
       snd ((print ("[FATAL] " ++ str_of_exn e);;
             try_exceptM (shutdown bye app) (fun _ => mret tt)) w))
  end.


(** * The vocabulary of the statements *)

(** [s] begins with [p] when letter case is disregarded: some prefix of [s]
    and [p] are the same once both are put in lower case. *)
Definition starts_ci (s p : string) : Prop :=
  exists pre rest, s = pre ++ rest /\ lower pre = lower p.

(** A procedure only adds to the end of the trace: what was recorded before
    it ran is still there, in place. *)
Definition appends {A} (m : M A) : Prop :=
  forall w, exists t, trace (snd (m w)) = (trace w ++ t)%list.

(** The outcome of the implicit-TLS step, and of the STARTTLS step, as the
    server decides them: each is a chain of calls that stops at the first
    one that raises. *)
Definition implicit_step (srv : smtp_server) : result unit :=
  ssl_connect srv;; ssl_login srv.

Definition upgrade_step (srv : smtp_server) : result unit :=
  plain_connect srv;; plain_ehlo srv;; plain_starttls srv;; plain_login srv.

(** The calls of the STARTTLS path. *)
Definition is_upgrade_event (ev : event) : bool :=
  match ev with
  | PlainConnect _ _ | Ehlo | StartTls | Login SMTP_587 _ => true
  | _ => false
  end.

(** The call that opens the plain connection on port 587. *)
Definition opens_plain (ev : event) : bool :=
  match ev with
  | PlainConnect _ _ => true
  | _ => false
  end.

(** How many times the plain connection of the STARTTLS path was opened. *)
Definition upgrade_attempts (t : list event) : nat :=
  List.length (List.filter opens_plain t).

(** A part the loop cannot return: it is not plain text outside an
    attachment, or its text cannot be decoded. *)
Definition passed_over (q : message) : Prop :=
  is_plain_text_part q = false \/ part_text q = None.

(** The name of a line, when the line has one. *)
Definition line_name (lib : library) (line : response_item) : result string :=
  decode_line lib line ≫= mailbox_name.

(** A line between double quotes. *)
Definition quoted (s : string) : string :=
  String dquote (s ++ String dquote EmptyString).

Arguments quoted : simpl never.

(** What the search of [findall_quoted] finds, said without the search: a
    quoted token of a line is a non-empty run of characters other than the
    double quote that stands between two double quotes. *)
Fixpoint has_dquote (s : string) : bool :=
  match s with
  | EmptyString => false
  | String c s' => Ascii.eqb c dquote || has_dquote s'
  end.

Definition is_token (x : string) : Prop :=
  x <> EmptyString /\ has_dquote x = false.

Definition has_quoted_token (s : string) : Prop :=
  exists pre x post, s = pre ++ quoted x ++ post /\ is_token x.

(** The state of the search as text: the quote that may open a token and
    what was read since. *)
Definition pending (cur : option string) : string :=
  match cur with
  | Some run => String dquote run
  | None => EmptyString
  end.

(** The run read since that quote holds no double quote. *)
Definition clean (cur : option string) : Prop :=
  match cur with
  | Some run => has_dquote run = false
  | None => True
  end.

(** A line that is empty once stripped. *)
Definition blank (l : string) : Prop := strip l = EmptyString.

(** A line that ends the body of a message: a lone dot, once stripped. *)
Definition ends_body (l : string) : Prop := strip l = ".".

(** A text that does not end with a blank: no blanks end it but the empty
    run of them. *)
Definition tight (s : string) : Prop :=
  forall p q, s = p ++ q -> all_blank q = true -> q = EmptyString.

(** The implicit-TLS step is configured and goes through. *)
Definition implicit_ok (cfg : config) (srv : smtp_server) : Prop :=
  smtp_ssl cfg = Some true /\ implicit_step srv = Ok tt.

(** The calls of the implicit-TLS path. *)
Definition is_implicit_event (ev : event) : bool :=
  match ev with
  | SslConnect _ _ | Login SMTP_SSL _ => true
  | _ => false
  end.

(** What [connect] raises for a configuration that does not turn SSL on. *)
Definition ssl_off_error (cfg : config) : exn :=
  match smtp_ssl cfg with
  | Some _ => PlainException "SSL není povoleno v configu"
  | None => KeyError "ssl"
  end.

(** Calls to the IMAP server. *)
Definition is_imap_event (ev : event) : bool :=
  match ev with
  | ImapSelect _ | ImapAppend _ _ => true
  | _ => false
  end.

(** Calls that hand a message to the SMTP server. *)
Definition is_send_event (ev : event) : bool :=
  match ev with
  | SendMessage _ _ => true
  | _ => false
  end.

(** A message identifier as the server writes it in a SEARCH response: not
    empty, without a blank. *)
Definition is_uid (t : bytes) : Prop :=
  t <> EmptyString /\ all_chars (fun c => negb (is_bspace c)) t = true.





(** The two lines [reply_to_message] prints before it reads the body. *)
Definition reply_prompt (lib : library) (original : message) : list event :=
  [ Printed ("Odpověď na: " ++ snd (parseaddr lib (get original "From")));
    Printed "Text zprávy (ukonči na prázdném řádku s tečkou '.'):" ].

(** The line [browse_folder] prints for the message [uid] under the number
    [idx]: the date as [fetch_headers] gives it, the sender and the subject
    read by [decode_maybe] once more. *)
Definition listing_line (lib : library) (self : ImapClient) (idx : nat) (uid : bytes)
    : result string :=
  h ← fetch_headers lib self uid;
  let '(From, Subject, Date) := h in
  f ← decode_maybe lib (VStr From);
  sj ← decode_maybe lib (VStr Subject);
  Ok (str_of_nat idx ++ ") " ++ Date ++ " | " ++ f ++ " | " ++ sj).

(** What [browse_folder] records before it asks for the messages. *)
Definition folder_entered (mailbox : string) : list event :=
  [ Printed (newline ++ ">>> Schránka: " ++ mailbox); ImapSelect mailbox ].


(** A procedure only takes lines from the front of the input: what is left
    to be read after it is an end of what was left before. *)
Definition consumes {A} (m : M A) : Prop :=
  forall w, suffix (keyboard (snd (m w))) (keyboard w).

(** The same for a function that reads the terminal. *)
Definition takes_lines {A} (f : stdin -> result (A * stdin)) : Prop :=
  forall i a rest, f i = Ok (a, rest) -> suffix rest i.

(** The menu as [main_menu] prints it. *)
Definition menu_shown : list event :=
  [ Printed (newline ++ "=== MENU ===");
    Printed "1) Načíst a procházet INBOX";
    Printed "2) Procházet Odeslanou poštu (Sent)";
    Printed "3) Procházet Koš (Trash)";
    Printed "4) Procházet Spam";
    Printed "5) Odeslat nový e-mail";
    Printed "0) Konec" ].

(** The choices of the menu that browse a folder, each with its key in
    [FOLDERS]. *)
Definition folder_choices : list (string * string) :=
  [ ("1", "inbox"); ("2", "sent"); ("3", "trash"); ("4", "spam") ].

(** What [main_menu] prints for an exception. *)
Definition error_line (e : exn) : event := Printed ("[CHYBA] " ++ str_of_exn e).


(** A procedure reads nothing: the input is left as it was. *)
Definition keeps_input {A} (m : M A) : Prop :=
  forall w, keyboard (snd (m w)) = keyboard w.

(** The menu was left by the choice [0]: one of the lines of the input [i]
    was that choice, and the farewell is the last thing recorded. *)
Definition left_by_choice (i : stdin) (w' : machine) : Prop :=
  (exists l, In l i /\ strip l = "0") /\
  last (trace w') = Some (Printed "Odpojuji…").

(** With no more input ahead than an end of [i], and fewer lines of it than
    [fuel], a procedure that ends in the menu leaves it by the choice [0]
    or raises: the bound on the rounds is not reached. *)
Definition settles (fuel : nat) (i : stdin) (m : M (option unit)) : Prop :=
  forall w,
    suffix (keyboard w) i -> (List.length (keyboard w) < fuel)%nat ->
    match m w with
    | (Ok (Some _), w') => left_by_choice i w'
    | (Ok None, _) => False
    | (Raise _, _) => True
    end.

(** What [main] prints for an exception, and what [start] prints first. *)
Definition fatal_line (e : exn) : event := Printed ("[FATAL] " ++ str_of_exn e).

Definition connecting : event := Printed "Připojuji IMAP/SMTP…".

(** What [start] prints once both clients are connected, and its line for
    a folder. *)
Definition logged_in_as (user : string) : list event :=
  [ Printed ("Hotovo. Přihlášen jako: " ++ user);
    Printed (newline ++ "Dostupné složky:") ].

Definition box_line (box : string) : event := Printed (" - " ++ box).

(** How [main] ends, from the outcome of the menu. *)
Definition exit_of (outcome : result (option unit) * machine) : option nat * machine :=
  match outcome with
  | (Ok (Some _), w) => (Some 0%nat, w)
  | (Ok None, w) => (None, w)
  | (Raise e, w) =>
      (Some 1%nat, Machine (keyboard w) (smtp_conn w) (trace w ++ [fatal_line e]))
  end.


(** The exception of the first of the fields [names] that the parser
    raises on when it is fetched; [None] when every one of them is fetched. *)
Fixpoint first_fault (lib : library) (m : message) (names : list string) : option exn :=
  match names with
  | [] => None
  | name :: names' =>
      match get_parsed lib m name with
      | Raise e => Some e
      | Ok _ => first_fault lib m names'
      end
  end.

(** What [input_nonempty] prints for the lines it passes over. *)
Definition reminders (blanks : list string) : list event :=
  List.map (fun _ => Printed REMINDER) blanks.

(** A text that holds a blank somewhere. *)
Fixpoint has_blank (s : string) : bool :=
  match s with
  | EmptyString => false
  | String _ s' =>
      match after_blank s with
      | Some _ => true
      | None => has_blank s'
      end
  end.

(** A text that ends with a blank. *)
Definition ends_with_blank (s : string) : Prop :=
  exists p b, s = p ++ b /\ after_blank b = Some EmptyString.

(** The bytes a blank begins with, in UTF-8. *)
Definition head_byte (c : ascii) : bool :=
  let n := nat_of_ascii c in
  (is_space c || (n =? 194) || (n =? 225) || (n =? 226) || (n =? 227))%nat.

(** A text begins like a blank does, or is empty. *)
Definition at_head (s : string) : Prop :=
  match s with
  | EmptyString => True
  | String c _ => head_byte c = true
  end.

(** * Sample inputs

    Servers, messages and responses on which the statements are run. *)

(** The no-break space U+00A0, in UTF-8: a blank outside ASCII. *)
Definition nbsp : string := String "194"%char (String "160"%char EmptyString).

(** A server that refuses the implicit-TLS connection and accepts the rest. *)
Definition refusing_ssl : smtp_server :=
  SmtpServer (Raise (LibraryError "Connection refused")) (Ok tt)
             (Ok tt) (Ok tt) (Ok tt) (Ok tt) (fun _ _ => Ok tt).

(** An SMTP client as [MailApp] makes it from the configuration. *)
Definition some_client : SmtpClient :=
  {| smtp_host := "mail.example.org"; smtp_port := 465;
     smtp_user := "me@example.org"; smtp_password := "secret" |}.

(** A stand-in for the library, used where a statement is run on a concrete
    input: it does on ASCII text what Python does (decoding ASCII bytes gives
    the same characters, a header without encoded words is its own text). *)
Definition plain_library : library :=
  Library
    (fun v => match v with
              | VStr s => Ok s
              | _ => Raise (LibraryError "TypeError")
              end)
    (fun _ b => Ok b)
    (fun b => "b'" ++ b ++ "'")
    (fun raw => Message [] "text/plain" None (Ok raw) (Ok raw) None)
    (fun name address => name ++ " <" ++ address ++ ">")
    (fun field => (EmptyString, or_else field EmptyString))
    (fun msg => Ok (out_body msg))
    lower
    (fun _ _ => None)
    (fun _ => false)
    (fun _ => Raise (ValueError "invalid literal for int() with base 10")).


(** A library that lowers the Greek capital omega as well. *)
Definition greek_library : library :=
  Library
    (header_to_str plain_library) (decode_replace plain_library)
    (repr_bytes plain_library) (message_from_bytes plain_library)
    (formataddr plain_library) (parseaddr plain_library) (as_bytes plain_library)
    (fun s => if String.eqb s "Ω" then "ω" else lower s)
    (header_fault plain_library)
    (unicode_isdigit plain_library) (unicode_int plain_library).

(** A server on which every call succeeds. *)
Definition accepting : smtp_server :=
  SmtpServer (Ok tt) (Ok tt) (Ok tt) (Ok tt) (Ok tt) (Ok tt) (fun _ _ => Ok tt).

(** A configuration whose [sent] folder is [Sent]. *)
Definition sent_is_Sent : config := Config (Some true) None {[ "sent" := "Sent" ]}.

(** An IMAP connection that breaks when a folder is selected. *)
Definition broken_imap : ImapClient :=
  {| imap_conn := Some (ImapConnection (Ok ("OK", []))
                          (fun _ => Raise (LibraryError "socket error"))
                          (fun _ _ => Ok ("NO", []))
                          (fun _ _ => Ok "OK")) |}.

(** An IMAP connection that answers every FETCH with [typ] and [data]. *)
Definition answers (typ : string) (data : list response_item) : imap_connection :=
  ImapConnection (Ok ("OK", [])) (fun _ => Ok "OK") (fun _ _ => Ok (typ, data))
                 (fun _ _ => Ok "OK").









(** An IMAP connection that answers LIST with [data]. *)
Definition listing (data : list response_item) : imap_connection :=
  ImapConnection (Ok ("OK", data)) (fun _ => Ok "OK") (fun _ _ => Ok ("OK", []))
                 (fun _ _ => Ok "OK").

(** A server that has a folder [Ω] and a folder [α]. *)
Definition greek_folders : list response_item :=
  [ ItemBytes ("(\HasNoChildren) " ++ quoted "/" ++ " " ++ quoted "Ω");
    ItemBytes ("(\HasNoChildren) " ++ quoted "/" ++ " " ++ quoted "α") ].

(** A server that has a folder [INBOX] and a folder [inbox]. *)
Definition two_cases : list response_item :=
  [ ItemBytes ("(\HasNoChildren) " ++ quoted "/" ++ " " ++ quoted "INBOX");
    ItemBytes ("(\HasNoChildren) " ++ quoted "/" ++ " " ++ quoted "inbox") ].

(** The line of the specification, a line that is empty, and one more. *)
Definition with_empty_line : list response_item :=
  [ ItemBytes ("(\HasNoChildren) " ++ quoted "/" ++ " " ++ quoted "INBOX.Trash");
    ItemBytes EmptyString;
    ItemBytes ("(\HasNoChildren) " ++ quoted "/" ++ " " ++ quoted "INBOX.Sent") ].

(** A server in the manner of Dovecot, with the dot as the delimiter: an
    entry that only tells the delimiter, then a folder. *)
Definition dovecot_listing : list response_item :=
  [ ItemBytes ("(\Noselect) " ++ quoted "." ++ " " ++ two_quotes);
    ItemBytes ("(\HasNoChildren) " ++ quoted "." ++ " " ++ quoted "INBOX") ].

(** A folder whose name the server sends as a literal: [imaplib] hands the
    line over as a pair, then the rest of the line, which is empty. *)
Definition with_literal : list response_item :=
  [ ItemTuple ("(\HasNoChildren) " ++ quoted "/" ++ " {5}") "INBOX";
    ItemBytes EmptyString ].

(** A server on which the login over implicit TLS is refused. *)
Definition refusing_login : smtp_server :=
  SmtpServer (Ok tt) (Raise (LibraryError "535 authentication failed"))
             (Ok tt) (Ok tt) (Ok tt) (Ok tt) (fun _ _ => Ok tt).


(** An IMAP connection that selects any folder and answers NO to APPEND. *)
Definition append_refused : ImapClient :=
  {| imap_conn := Some (ImapConnection (Ok ("OK", [])) (fun _ => Ok "OK")
                          (fun _ _ => Ok ("NO", [])) (fun _ _ => Ok "NO")) |}.

(** An IMAP server that answers every SEARCH with [typ] and [data]. *)
Definition found (typ : string) (data : list response_item) : imap_more :=
  ImapMore (fun _ => Ok (typ, data)).

(** A client connected to a server that lists no folder. *)
Definition connected : ImapClient := {| imap_conn := Some (listing []) |}.

(** An IMAP server that accepts the login and answers LIST with [data]. *)
Definition imap_listing (data : list response_item) : imap_server :=
  ImapServer (Ok (listing data)) (Ok "OK") (Ok ("OK", data)).

(** An IMAP server that answers NO to the login. *)
Definition imap_refusing : imap_server :=
  ImapServer (Ok (listing [])) (Ok "NO") (Ok ("NO", [])).

(** Servers that answer when the connections are closed. *)
Definition polite : goodbye := Goodbye (Ok tt) (Ok tt).


(** * Properties *)

(** ** Strings *)

Lemma append_nil_r (s : string) : s ++ EmptyString = s.
Proof. induction s as [|c s IH]; simpl; [reflexivity | now rewrite IH]. Qed.

Lemma append_assoc (a b c : string) : (a ++ b) ++ c = a ++ (b ++ c).
Proof. induction a as [|x a IH]; simpl; [reflexivity | now rewrite IH]. Qed.

Lemma lower_append (a b : string) : lower (a ++ b) = lower a ++ lower b.
Proof. induction a as [|x a IH]; simpl; [reflexivity | now rewrite IH]. Qed.

(** The test of the code, [s.lower().startswith(p)] for a lower-case [p],
    decides [starts_ci]. *)
Lemma startswith_lower_iff (p s : string) :
  startswith (lower s) (lower p) = true <-> starts_ci s p.
Proof.
  unfold startswith, starts_ci. revert s.
  induction p as [|a p IH]; intros s.
  - split; [intros _; exists EmptyString, s; split; reflexivity | now destruct s].
  - destruct s as [|b s].
    + split; [discriminate |].
      intros (pre & rest & Hs & Hl). destruct pre; discriminate.
    + simpl. destruct (ascii_dec (lower_char a) (lower_char b)) as [Hab|Hab].
      * rewrite IH. split.
        -- intros (pre & rest & -> & Hl). exists (String b pre), rest.
           split; [reflexivity | simpl; congruence].
        -- intros (pre & rest & Hs & Hl). destruct pre as [|c pre]; [discriminate|].
           simpl in Hs, Hl. injection Hs as -> ->. injection Hl as _ Hl.
           exists pre, rest. split; [reflexivity | assumption].
      * split; [discriminate |].
        intros (pre & rest & Hs & Hl). destruct pre as [|c pre]; [discriminate|].
        simpl in Hs, Hl. injection Hs as -> ->. injection Hl as Hc _.
        congruence.
Qed.

Lemma starts_ci_dec (s p : string) : {starts_ci s p} + {~ starts_ci s p}.
Proof.
  destruct (startswith (lower s) (lower p)) eqn:E.
  - left. now apply startswith_lower_iff.
  - right. intros H. apply startswith_lower_iff in H. congruence.
Defined.

(** ** The subject of a reply and of a forwarded message *)

Lemma reply_rule_prefixed (subject : string) :
  starts_ci subject "re:" -> reply_rule subject = subject.
Proof.
  intros H. apply (startswith_lower_iff "re:") in H.
  change (lower "re:") with "re:" in H.
  unfold reply_rule. now rewrite H.
Qed.

Lemma reply_rule_fresh (subject : string) :
  ~ starts_ci subject "re:" -> reply_rule subject = "Re: " ++ subject.
Proof.
  intros H. unfold reply_rule.
  destruct (startswith (lower subject) "re:") eqn:E; [|reflexivity].
  exfalso. apply H. apply (startswith_lower_iff "re:"). exact E.
Qed.

Lemma reply_rule_starts (subject : string) : starts_ci (reply_rule subject) "re:".
Proof.
  destruct (starts_ci_dec subject "re:") as [H|H].
  - now rewrite reply_rule_prefixed.
  - rewrite reply_rule_fresh by assumption.
    exists "Re:", (" " ++ subject). split; reflexivity.
Qed.

(** C7.  The subject of a reply: a subject that already begins with [re:],
    whatever the case of its letters, is kept as it is; any other subject
    gets [Re: ] in front, and what then follows the added [Re:] does not
    begin with [re:] (one prefix was added, not two).  The reply's subject
    always begins with [re:], and the rule applied to it changes nothing
    (it is idempotent, the prefix is never doubled). *)
Theorem reply_subject_one_prefix (original : message) :
  let subject := original_subject original in
  (starts_ci subject "re:" -> reply_subject original = subject) /\
  (~ starts_ci subject "re:" ->
     reply_subject original = "Re: " ++ subject /\
     ~ starts_ci (" " ++ subject) "re:") /\
  starts_ci (reply_subject original) "re:" /\
  reply_rule (reply_subject original) = reply_subject original.
Proof.
  cbv zeta. unfold reply_subject. repeat split.
  - apply reply_rule_prefixed.
  - now apply reply_rule_fresh.
  - intros H'. apply (startswith_lower_iff "re:") in H'. discriminate.
  - apply reply_rule_starts.
  - apply reply_rule_prefixed, reply_rule_starts.
Qed.

(** C4.  The subject of a forwarded message: [Fwd: ] is put in front of the
    original subject unless that subject begins with [fw:], whatever the
    case of its letters; a subject that does is passed on unchanged. *)
Theorem forward_subject_prefix (original : message) :
  let subject := original_subject original in
  (starts_ci subject "fw:" -> forward_subject original = subject) /\
  (~ starts_ci subject "fw:" -> forward_subject original = "Fwd: " ++ subject).
Proof.
  cbv zeta. unfold forward_subject, forward_rule. split; intros H.
  - apply (startswith_lower_iff "fw:") in H.
    change (lower "fw:") with "fw:" in H. now rewrite H.
  - destruct (startswith (lower (original_subject original)) "fw:") eqn:E; [|reflexivity].
    exfalso. apply H. apply (startswith_lower_iff "fw:"). exact E.
Qed.

Lemma reply_subject_one_prefix_witness :
  reply_subject (Message [("Subject", "RE: lunch")] "text/plain" None (Ok "") (Ok "") None)
    = "RE: lunch" /\
  reply_subject (Message [("subject", "lunch")] "text/plain" None (Ok "") (Ok "") None)
    = "Re: lunch".
Proof.
  split.
  - pose proof (reply_subject_one_prefix
      (Message [("Subject", "RE: lunch")] "text/plain" None (Ok "") (Ok "") None)) as H.
    cbv zeta in H. destruct H as (H & _). apply H.
    exists "RE:", " lunch". split; reflexivity.
  - pose proof (reply_subject_one_prefix
      (Message [("subject", "lunch")] "text/plain" None (Ok "") (Ok "") None)) as H.
    cbv zeta in H. destruct H as (_ & H & _). apply H.
    intros H'. apply (startswith_lower_iff "re:") in H'. discriminate.
Defined.

Lemma forward_subject_prefix_witness :
  forward_subject (Message [("Subject", "FW: minutes")] "text/plain" None (Ok "") (Ok "") None)
    = "FW: minutes" /\
  forward_subject (Message [("Subject", "minutes")] "text/plain" None (Ok "") (Ok "") None)
    = "Fwd: minutes" /\
  forward_subject (Message [] "text/plain" None (Ok "") (Ok "") None) = "Fwd: ".
Proof.
  split; [|split].
  - pose proof (forward_subject_prefix
      (Message [("Subject", "FW: minutes")] "text/plain" None (Ok "") (Ok "") None)) as H.
    cbv zeta in H. destruct H as (H & _). apply H.
    exists "FW:", " minutes". split; reflexivity.
  - pose proof (forward_subject_prefix
      (Message [("Subject", "minutes")] "text/plain" None (Ok "") (Ok "") None)) as H.
    cbv zeta in H. destruct H as (_ & H). apply H.
    intros H'. apply (startswith_lower_iff "fw:") in H'. discriminate.
  - pose proof (forward_subject_prefix
      (Message [] "text/plain" None (Ok "") (Ok "") None)) as H.
    cbv zeta in H. destruct H as (_ & H). apply H.
    intros H'. apply (startswith_lower_iff "fw:") in H'. discriminate.
Defined.

(** The added prefix [Fwd: ] is not one the test recognises: forwarding a
    forwarded message prefixes it again. *)
Example forward_rule_twice : forward_rule (forward_rule "minutes") = "Fwd: Fwd: minutes".
Proof. reflexivity. Qed.

(** ** Recipients typed at the terminal *)

Lemma truthy_true (s : string) : truthy s = true <-> s <> EmptyString.
Proof. destruct s; simpl; split; congruence. Qed.

(** What [input_nonempty] returns is a stripped line that is not empty. *)
Lemma input_nonempty_ok (i : stdin) (s : string) (rest : stdin) :
  input_nonempty i = Ok (s, rest) -> s <> EmptyString /\ exists l, In l i /\ s = strip l.
Proof.
  induction i as [|l i IH]; simpl; [discriminate|].
  destruct (truthy (strip l)) eqn:E.
  - intros [= <- <-]. split; [now apply truthy_true | exists l; auto].
  - intros H. destruct (IH H) as (Hs & l' & Hin & ->). split; [assumption | exists l'; auto].
Qed.

(** ** The trace only grows *)

Create HintDb appends discriminated.

Lemma appends_ret {A} (a : A) : appends (mret a).
Proof. intros w. exists []. simpl. now rewrite app_nil_r. Qed.

Lemma appends_raise {A} (e : exn) : appends (@raise A e).
Proof. intros w. exists []. simpl. now rewrite app_nil_r. Qed.

Lemma appends_lift {A} (r : result A) : appends (lift r).
Proof. intros w. exists []. simpl. now rewrite app_nil_r. Qed.

Lemma appends_emit (ev : event) : appends (emit ev).
Proof. intros w. now exists [ev]. Qed.

Lemma appends_set_conn (c : smtp_connection) : appends (set_conn c).
Proof. intros w. exists []. simpl. now rewrite app_nil_r. Qed.

Lemma appends_get_conn : appends get_conn.
Proof. intros w. exists []. simpl. now rewrite app_nil_r. Qed.

Lemma appends_reading {A} (f : stdin -> result (A * stdin)) : appends (reading f).
Proof.
  intros w. exists []. unfold reading.
  destruct (f (keyboard w)) as [[a rest]|e]; simpl; now rewrite app_nil_r.
Qed.

Lemma appends_bind {A B} (m : M A) (f : A -> M B) :
  appends m -> (forall a, appends (f a)) -> appends (m ≫= f).
Proof.
  intros Hm Hf w. unfold mbind, M_bind.
  destruct (Hm w) as [t1 H1]. destruct (m w) as [[a|e] w1]; simpl in *.
  - destruct (Hf a w1) as [t2 H2]. exists (t1 ++ t2)%list.
    now rewrite H2, H1, app_assoc.
  - now exists t1.
Qed.

Lemma appends_try {A} (body : M A) (handler : exn -> M A) :
  appends body -> (forall e, appends (handler e)) -> appends (try_exceptM body handler).
Proof.
  intros Hm Hf w. unfold try_exceptM.
  destruct (Hm w) as [t1 H1]. destruct (body w) as [[a|e] w1]; simpl in *.
  - now exists t1.
  - destruct (Hf e w1) as [t2 H2]. exists (t1 ++ t2)%list.
    now rewrite H2, H1, app_assoc.
Qed.

Lemma appends_print (line : string) : appends (print line).
Proof. apply appends_emit. Qed.

Lemma appends_call {A} (ev : event) (outcome : result A) : appends (call ev outcome).
Proof. apply appends_bind; [apply appends_emit | intros; apply appends_lift]. Qed.

#[export] Hint Resolve appends_ret appends_raise appends_lift appends_emit
  appends_set_conn appends_get_conn appends_reading appends_print appends_call : appends.

Ltac appends_tac :=
  repeat first
    [ solve [auto with appends]
    | match goal with
      | |- forall _, _ => intro
      | |- appends (match ?x with _ => _ end) => destruct x
      | |- appends (if ?x then _ else _) => destruct x
      end
    | apply appends_bind
    | apply appends_try ].

Lemma appends_select_mailbox (self : ImapClient) (mailbox : string) :
  appends (select_mailbox self mailbox).
Proof. unfold select_mailbox. appends_tac. Qed.

#[export] Hint Resolve appends_select_mailbox : appends.

Lemma appends_archive_copy (lib : library) (cfg : config) (imap_client : ImapClient)
    (msg : outgoing) :
  appends (archive_copy lib cfg imap_client msg).
Proof. unfold archive_copy. appends_tac. Qed.

#[export] Hint Resolve appends_archive_copy : appends.

Lemma appends_send_text lib cfg srv self to_addrs subject body from_name imap_client :
  appends (send_text lib cfg srv self to_addrs subject body from_name imap_client).
Proof. unfold send_text. cbv zeta. appends_tac. Qed.

Lemma appends_connect (cfg : config) (srv : smtp_server) (self : SmtpClient) :
  appends (connect cfg srv self).
Proof. unfold connect. appends_tac. Qed.

(** C9.  A line of commas passes [input_nonempty] and leaves no address:
    [compose_and_send] then calls [send_text] with an empty list, and the
    message handed to the server has an empty [To]. *)
Theorem compose_and_send_empty_recipients
    (lib : library) (cfg : config) (srv : smtp_server) (self : MailApp)
    (c : smtp_connection) :
  let w := Machine [","; "hello"; "."] (Some c) [] in
  let msg := build_message lib (smtp self) [] "hello" EmptyString None in
  input_nonempty (keyboard w) = Ok (",", ["hello"; "."]) /\
  split_addresses "," = [] /\
  out_to msg = EmptyString /\
  exists t, trace (snd (compose_and_send lib cfg srv self w)) =
            Printed "Text zprávy (ukonči na prázdném řádku s tečkou '.'):"
            :: SendMessage c msg :: t.
Proof.
  cbv zeta. split; [reflexivity|]. split; [reflexivity|]. split; [reflexivity|].
  unfold compose_and_send.
  unfold mbind at 1 2 3 4, M_bind at 1 2 3 4, reading, print, emit. simpl.
  change (split_addresses (strip ",")) with (@nil string).
  change (strip "hello") with "hello".
  unfold send_text. cbv zeta.
  set (msg := build_message lib (smtp self) [] "hello" EmptyString None).
  unfold mbind at 1 2 3, M_bind at 1 2 3, get_conn, call, emit, lift. simpl.
  destruct (send_message srv c msg) as [[]|e]; simpl.
  - match goal with
    | |- context [try_exceptM ?b ?h ?w0] =>
        destruct (appends_try b h (appends_archive_copy _ _ _ _)
                    (fun e => appends_print _) w0) as [t Ht]
    end.
    simpl in Ht. rewrite Ht. eexists. reflexivity.
  - eexists. reflexivity.
Qed.

(** ** Connecting to the submission server *)

(** C1.  With implicit TLS as the primary strategy and a failure [e] of its
    connect-and-authenticate step: when the fallback is not allowed,
    [connect] raises [e] itself and no call of the STARTTLS path is made;
    when it is allowed, the STARTTLS path is entered exactly once and its
    outcome is the outcome of [connect]. *)
Theorem connect_fallback_gate
    (cfg : config) (srv : smtp_server) (self : SmtpClient) (w : machine) (e : exn) :
  smtp_ssl cfg = Some true ->
  implicit_step srv = Raise e ->
  exists t,
    trace (snd (connect cfg srv self w)) = (trace w ++ t)%list /\
    (config_fallback cfg = false ->
       fst (connect cfg srv self w) = Raise e /\
       List.filter is_upgrade_event t = []) /\
    (config_fallback cfg = true ->
       fst (connect cfg srv self w) = upgrade_step srv /\
       upgrade_attempts t = 1).
Proof.
  intros Hssl Himp. unfold connect, config_ssl. rewrite Hssl.
  unfold implicit_step, upgrade_step in *.
  unfold try_exceptM, mbind, M_bind, result_bind, call, print, emit, lift, set_conn, raise in *.
  simpl.
  destruct (config_fallback cfg);
    destruct (ssl_connect srv) as [[]|e1]; [destruct (ssl_login srv) as [[]|e2] | |
                                             destruct (ssl_login srv) as [[]|e2] | ];
    try discriminate; injection Himp as ->; simpl;
    try (destruct (plain_connect srv) as [[]|?]; simpl;
         [destruct (plain_ehlo srv) as [[]|?]; simpl;
          [destruct (plain_starttls srv) as [[]|?]; simpl;
           [destruct (plain_login srv) as [[]|?]; simpl | ] | ] | ]);
    (eexists; split;
     [ rewrite <- ?app_assoc; simpl; reflexivity
     | split; intros; try discriminate; split; reflexivity ]).
Qed.

Lemma connect_fallback_gate_witness :
  (exists t,
     trace (snd (connect (Config (Some true) (Some false) ∅) refusing_ssl some_client
                   (Machine [] None []))) = t /\
     fst (connect (Config (Some true) (Some false) ∅) refusing_ssl some_client
            (Machine [] None [])) = Raise (LibraryError "Connection refused") /\
     List.filter is_upgrade_event t = []) /\
  (exists t,
     trace (snd (connect (Config (Some true) (Some true) ∅) refusing_ssl some_client
                   (Machine [] None []))) = t /\
     fst (connect (Config (Some true) (Some true) ∅) refusing_ssl some_client
            (Machine [] None [])) = Ok tt /\
     upgrade_attempts t = 1).
Proof.
  split.
  - destruct (connect_fallback_gate (Config (Some true) (Some false) ∅) refusing_ssl
                some_client (Machine [] None []) (LibraryError "Connection refused")
                eq_refl eq_refl) as (t & Ht & Hoff & _).
    exists t. split; [exact Ht|]. exact (Hoff eq_refl).
  - destruct (connect_fallback_gate (Config (Some true) (Some true) ∅) refusing_ssl
                some_client (Machine [] None []) (LibraryError "Connection refused")
                eq_refl eq_refl) as (t & Ht & _ & Hon).
    exists t. split; [exact Ht|]. exact (Hon eq_refl).
Defined.

(** ** Sending, and the copy in the Sent folder *)

(** [send_text] after a transmission that succeeded: what is left to run is
    the archival, on the machine that recorded the send. *)
Lemma send_text_after_send
    (lib : library) (cfg : config) (srv : smtp_server) (self : SmtpClient)
    (to_addrs : list string) (subject body : string) (from_name : option string)
    (imap_client : option ImapClient) (w : machine) (c : smtp_connection) :
  let msg := build_message lib self to_addrs subject body from_name in
  let sent := Machine (keyboard w) (smtp_conn w)
                (trace w ++ [SendMessage c msg; Printed "SMTP: zpráva odeslána."]) in
  smtp_conn w = Some c ->
  send_message srv c msg = Ok tt ->
  send_text lib cfg srv self to_addrs subject body from_name imap_client w =
    match imap_client with
    | Some imap_client =>
        try_exceptM (archive_copy lib cfg imap_client msg)
          (fun e => print (archive_warning e)) sent
    | None => (Ok tt, sent)
    end.
Proof.
  cbv zeta. intros Hc Hsend. unfold send_text. cbv zeta.
  unfold mbind, M_bind, get_conn, call, emit, lift, print.
  rewrite Hc. unfold mbind, M_bind, emit. simpl. rewrite Hsend. simpl.
  rewrite <- app_assoc. simpl. rewrite ?Hc. now destruct imap_client.
Qed.

(** C3.  Once the message has gone out over the SMTP connection and an IMAP
    client is given, [send_text] returns normally whatever the archival does:
    an exception [e] raised while the copy is stored is caught, its only
    trace is the warning printed after it, and the result is the one of a
    send without an IMAP client. *)
Theorem send_text_archival_failure_is_a_warning
    (lib : library) (cfg : config) (srv : smtp_server) (self : SmtpClient)
    (to_addrs : list string) (subject body : string) (from_name : option string)
    (imap_client : ImapClient) (w : machine) (c : smtp_connection) :
  let msg := build_message lib self to_addrs subject body from_name in
  let sent := Machine (keyboard w) (smtp_conn w)
                (trace w ++ [SendMessage c msg; Printed "SMTP: zpráva odeslána."]) in
  let run := send_text lib cfg srv self to_addrs subject body from_name in
  smtp_conn w = Some c ->
  send_message srv c msg = Ok tt ->
  fst (run (Some imap_client) w) = Ok tt /\
  fst (run (Some imap_client) w) = fst (run None w) /\
  (forall e w', archive_copy lib cfg imap_client msg sent = (Raise e, w') ->
     run (Some imap_client) w =
       (Ok tt, Machine (keyboard w') (smtp_conn w')
                 (trace w' ++ [Printed (archive_warning e)]))) /\
  (forall w', archive_copy lib cfg imap_client msg sent = (Ok tt, w') ->
     run (Some imap_client) w = (Ok tt, w')).
Proof.
  cbv zeta. intros Hc Hsend.
  rewrite !(send_text_after_send lib cfg srv self to_addrs subject body from_name _ w c Hc Hsend).
  unfold try_exceptM.
  destruct (archive_copy lib cfg imap_client _ _) as [[[]|e] w'] eqn:E; simpl.
  - split; [reflexivity|]. split; [reflexivity|]. split.
    + intros e w0 H. discriminate.
    + intros w0 [= <-]. reflexivity.
  - split; [reflexivity|]. split; [reflexivity|]. split.
    + intros e0 w0 [= <- <-]. reflexivity.
    + intros w0 H. discriminate.
Qed.

Lemma send_text_archival_failure_is_a_warning_witness :
  send_text plain_library sent_is_Sent accepting some_client ["you@example.org"]
    "hi" "text" None (Some broken_imap) (Machine [] (Some SMTP_SSL) []) =
  (Ok tt,
   Machine [] (Some SMTP_SSL)
     [ SendMessage SMTP_SSL
         (Outgoing "me@example.org <me@example.org>" "you@example.org" "hi" "text");
       Printed "SMTP: zpráva odeslána.";
       Printed "IMAP: pokus o zápis do 'Sent'…";
       ImapSelect "Sent";
       Printed "IMAP: nepodařilo se uložit do Sent (socket error)." ]).
Proof.
  destruct (send_text_archival_failure_is_a_warning plain_library sent_is_Sent accepting
              some_client ["you@example.org"] "hi" "text" None broken_imap
              (Machine [] (Some SMTP_SSL) []) SMTP_SSL eq_refl eq_refl)
    as (_ & _ & H & _).
  exact (H (LibraryError "socket error") _ eq_refl).
Defined.

(** ** Decoding a header field *)

Lemma decode_maybe_ok (lib : library) (value : header_value) :
  exists s, decode_maybe lib value = Ok s.
Proof.
  destruct value as [|raw|b]; simpl; [now eexists| |].
  - destruct (header_to_str lib (VStr raw)); simpl; now eexists.
  - destruct (header_to_str lib (VBytes b)); simpl; [now eexists|].
    destruct (decode_replace lib FALLBACK_CHARSET b); simpl; now eexists.
Qed.

(** C6.  [decode_maybe] returns a string for every value, a missing field,
    text and bytes alike.  When the decoding of the header raises, what it
    returns is the raw value: bytes read as UTF-8 with substitution (their
    printed form should that raise too), text as it stands. *)
Theorem decode_maybe_always_a_string (lib : library) (value : header_value) :
  (exists s, decode_maybe lib value = Ok s) /\
  (forall e, header_to_str lib value = Raise e ->
     match value with
     | VNone => decode_maybe lib value = Ok EmptyString
     | VStr raw => decode_maybe lib value = Ok raw
     | VBytes b =>
         decode_maybe lib value =
           Ok (match decode_replace lib FALLBACK_CHARSET b with
               | Ok s => s
               | Raise _ => repr_bytes lib b
               end)
     end) /\
  (forall s, value <> VNone -> header_to_str lib value = Ok s ->
     decode_maybe lib value = Ok s).
Proof.
  split; [|split].
  - apply decode_maybe_ok.
  - intros e He. destruct value as [|raw|b]; simpl; [reflexivity | |].
    + now rewrite He.
    + rewrite He. simpl. now destruct (decode_replace lib FALLBACK_CHARSET b).
  - intros s Hne Hs. destruct value as [|raw|b]; [congruence | |]; simpl; now rewrite Hs.
Qed.

Lemma decode_maybe_always_a_string_witness :
  decode_maybe plain_library (VBytes "caf?") = Ok "caf?" /\
  decode_maybe plain_library (VStr "=?utf-8?b?!!!?=") = Ok "=?utf-8?b?!!!?=".
Proof.
  split.
  - destruct (decode_maybe_always_a_string plain_library (VBytes "caf?")) as (_ & H & _).
    exact (H (LibraryError "TypeError") eq_refl).
  - destruct (decode_maybe_always_a_string plain_library (VStr "=?utf-8?b?!!!?=")) as (_ & _ & H).
    apply H; [discriminate | reflexivity].
Defined.

(** ** Fetching the header summary *)




(** C10.  When the answer to the FETCH has a status other than OK, or no
    data, or a first item that is not a pair, [fetch_headers] returns three
    empty strings and does not raise; so does a fetch that succeeds on a
    message without From, Subject and Date fields: the two cannot be told
    apart. *)
Theorem fetch_headers_failed_is_empty
    (lib : library) (conn : imap_connection) (uid : bytes)
    (typ : string) (data : list response_item) :
  conn_uid_fetch conn uid HEADER_FIELDS = Ok (typ, data) ->
  (typ <> "OK" \/ data = [] \/ first_is_tuple data = false ->
     fetch_headers lib {| imap_conn := Some conn |} uid
       = Ok (EmptyString, EmptyString, EmptyString)) /\
  (forall head raw rest,
     typ = "OK" -> data = ItemTuple head raw :: rest ->
     get (message_from_bytes lib raw) "From" = None ->
     get (message_from_bytes lib raw) "Subject" = None ->
     get (message_from_bytes lib raw) "Date" = None ->
     fetch_headers lib {| imap_conn := Some conn |} uid
       = Ok (EmptyString, EmptyString, EmptyString)).
Proof.
  intros Hfetch. unfold fetch_headers. simpl. rewrite Hfetch. simpl. split.
  - intros [Htyp | [-> | Htuple]].
    + apply String.eqb_neq in Htyp. now rewrite Htyp.
    + now rewrite orb_true_r.
    + rewrite Htuple. now rewrite orb_true_r.
  - intros head raw rest -> -> HF HS HD. simpl.
    unfold decode_parsed, get_parsed. now rewrite HF, HS, HD.
Qed.

Lemma fetch_headers_failed_is_empty_witness :
  fetch_headers plain_library {| imap_conn := Some (answers "NO" [ItemNone]) |} "7"
    = Ok (EmptyString, EmptyString, EmptyString) /\
  fetch_headers plain_library {| imap_conn := Some (answers "OK" [ItemBytes ")"]) |} "7"
    = Ok (EmptyString, EmptyString, EmptyString) /\
  fetch_headers plain_library
    {| imap_conn := Some (answers "OK" [ItemTuple "7 (BODY[HEADER.FIELDS] {2}" ""; ItemBytes ")"]) |} "7"
    = Ok (EmptyString, EmptyString, EmptyString).
Proof.
  split; [|split].
  - apply (proj1 (fetch_headers_failed_is_empty plain_library (answers "NO" [ItemNone])
                    "7" "NO" [ItemNone] eq_refl)).
    left. discriminate.
  - apply (proj1 (fetch_headers_failed_is_empty plain_library (answers "OK" [ItemBytes ")"])
                    "7" "OK" [ItemBytes ")"] eq_refl)).
    right. right. reflexivity.
  - apply (proj2 (fetch_headers_failed_is_empty plain_library
                    (answers "OK" [ItemTuple "7 (BODY[HEADER.FIELDS] {2}" ""; ItemBytes ")"])
                    "7" "OK" [ItemTuple "7 (BODY[HEADER.FIELDS] {2}" ""; ItemBytes ")"] eq_refl)
             "7 (BODY[HEADER.FIELDS] {2}" "" [ItemBytes ")"]); reflexivity.
Defined.

(** ** The plain text of a message *)

Lemma scan_parts_passed_over (parts : list message) :
  Forall passed_over parts -> scan_parts parts = None.
Proof.
  induction 1 as [|q parts [Hq|Hq] _ IH]; simpl; [reflexivity | |].
  - now rewrite Hq.
  - rewrite Hq. now destruct (is_plain_text_part q).
Qed.


(** A part that is not plain text outside an attachment is passed over, so
    a message without any such part gets the fixed answer. *)
Lemma extract_text_plain_no_plain_part (msg : message) :
  is_multipart msg = true ->
  Forall (fun q => is_plain_text_part q = false) (walk msg) ->
  extract_text_plain msg = NO_READABLE_PART.
Proof.
  intros Hm Hall. unfold extract_text_plain. rewrite Hm.
  rewrite scan_parts_passed_over; [reflexivity|].
  eapply Forall_impl; [exact Hall|]. intros q Hq. now left.
Qed.





(** ** Blanks *)

Lemma all_chars_app (p : ascii -> bool) (a b : string) :
  all_chars p (a ++ b) = all_chars p a && all_chars p b.
Proof. induction a as [|c a IH]; simpl; [reflexivity | now rewrite IH, andb_assoc]. Qed.

(** What is left after a leading blank is shorter. *)
Lemma after_blank_shorter (s r : string) :
  after_blank s = Some r -> (String.length r < String.length s)%nat.
Proof.
  unfold after_blank. destruct s as [|c1 s1]; [discriminate|].
  destruct (is_space c1); [intros [= <-]; simpl; lia|].
  destruct s1 as [|c2 s2]; [discriminate|].
  destruct (blank2 c1 c2); [intros [= <-]; simpl; lia|].
  destruct s2 as [|c3 s3]; [discriminate|].
  destruct (blank3 c1 c2 c3); [intros [= <-]; simpl; lia | discriminate].
Qed.

(** A leading blank is a prefix. *)
Lemma after_blank_app (s r : string) :
  after_blank s = Some r -> exists b, s = b ++ r /\ b <> EmptyString /\
                                      forall t, after_blank (b ++ t) = Some t.
Proof.
  unfold after_blank. destruct s as [|c1 s1]; [discriminate|].
  destruct (is_space c1) eqn:E1.
  { intros [= <-]. exists (String c1 EmptyString).
    split; [reflexivity|]. split; [discriminate|]. intros t. simpl. now rewrite E1. }
  destruct s1 as [|c2 s2]; [discriminate|].
  destruct (blank2 c1 c2) eqn:E2.
  { intros [= <-]. exists (String c1 (String c2 EmptyString)).
    split; [reflexivity|]. split; [discriminate|]. intros t. simpl. now rewrite E1, E2. }
  destruct s2 as [|c3 s3]; [discriminate|].
  destruct (blank3 c1 c2 c3) eqn:E3; [|discriminate].
  intros [= <-]. exists (String c1 (String c2 (String c3 EmptyString))).
  split; [reflexivity|]. split; [discriminate|]. intros t. simpl. now rewrite E1, E2, E3.
Qed.

(** [lstrip] and [all_blank] take the blanks one at a time. *)
Lemma lstrip_step (s : string) :
  lstrip s = match after_blank s with Some r => lstrip r | None => s end.
Proof.
  destruct s as [|c1 [|c2 [|c3 s3]]]; simpl; try reflexivity.
  - now destruct (is_space c1).
  - destruct (is_space c1); [reflexivity|]. now destruct (blank2 c1 c2).
  - destruct (is_space c1); [reflexivity|]. destruct (blank2 c1 c2); [reflexivity|].
    now destruct (blank3 c1 c2 c3).
Qed.

Lemma all_blank_step (s : string) :
  all_blank s = match after_blank s with
                | Some r => all_blank r
                | None => negb (truthy s)
                end.
Proof.
  destruct s as [|c1 [|c2 [|c3 s3]]]; simpl; try reflexivity.
  - now destruct (is_space c1).
  - destruct (is_space c1); [reflexivity|]. now destruct (blank2 c1 c2).
  - destruct (is_space c1); [reflexivity|]. destruct (blank2 c1 c2); [reflexivity|].
    now destruct (blank3 c1 c2 c3).
Qed.

(** Induction on a text, a leading blank at a time. *)
Lemma blank_ind (P : string -> Prop) :
  (forall s, after_blank s = None -> P s) ->
  (forall s r, after_blank s = Some r -> P r -> P s) ->
  forall s, P s.
Proof.
  intros Hnone Hsome s.
  remember (String.length s) as n eqn:Hn.
  revert s Hn. induction n as [n IH] using lt_wf_ind. intros s ->.
  destruct (after_blank s) as [r|] eqn:E; [|now apply Hnone].
  apply (Hsome s r E). apply (IH (String.length r)); [|reflexivity].
  now apply after_blank_shorter.
Qed.

Lemma after_blank_lstrip (s : string) : after_blank (lstrip s) = None.
Proof.
  induction s as [s E|s r E IH] using blank_ind; rewrite lstrip_step, E; assumption.
Qed.

Lemma lstrip_idem (s : string) : lstrip (lstrip s) = lstrip s.
Proof. rewrite (lstrip_step (lstrip s)). now rewrite after_blank_lstrip. Qed.

Lemma lstrip_suffix (s : string) : exists p, s = p ++ lstrip s.
Proof.
  induction s as [s E|s r E [p IH]] using blank_ind; rewrite lstrip_step, E.
  - now exists EmptyString.
  - apply after_blank_app in E as (b & -> & _). exists (b ++ p).
    rewrite append_assoc. now rewrite <- IH.
Qed.

Lemma lstrip_nil (s : string) : lstrip s = EmptyString <-> all_blank s = true.
Proof.
  induction s as [s E|s r E IH] using blank_ind;
    rewrite lstrip_step, all_blank_step, E; [|exact IH].
  destruct s; simpl; split; congruence.
Qed.

(** Blanks at the head of a text that is all blanks can be left out. *)
Lemma all_blank_app (b t : string) :
  all_blank b = true -> all_blank (b ++ t) = all_blank t.
Proof.
  induction b as [b E|b r E IH] using blank_ind; rewrite (all_blank_step b), E.
  - destruct b; [reflexivity | discriminate].
  - intros H. apply after_blank_app in E as (x & -> & _ & Hx).
    rewrite append_assoc, all_blank_step, Hx. auto.
Qed.

(** [rstrip] cuts a text before blanks. *)
Lemma rstrip_prefix (s : string) :
  exists b, s = rstrip s ++ b /\ all_blank b = true.
Proof.
  induction s as [|c s (b & IH & Hb)]; [now exists EmptyString|].
  cbn [rstrip]. destruct (all_blank (String c s)) eqn:E.
  - now exists (String c s).
  - exists b. simpl. now rewrite <- IH.
Qed.

Lemma all_blank_rstrip (s : string) : all_blank (rstrip s) = all_blank s.
Proof.
  destruct (all_blank s) eqn:E.
  - destruct s; [reflexivity|]. cbn [rstrip]. now rewrite E.
  - destruct (rstrip_prefix s) as (b & Hs & Hb).
    destruct (all_blank (rstrip s)) eqn:Er; [|reflexivity].
    rewrite Hs, (all_blank_app _ _ Er) in E. congruence.
Qed.

Lemma strip_nil (s : string) : strip s = EmptyString <-> all_blank s = true.
Proof. unfold strip. now rewrite lstrip_nil, all_blank_rstrip. Qed.

Lemma tight_suffix (p s : string) : tight (p ++ s) -> tight s.
Proof.
  intros H p' q ->. apply (H (p ++ p')). now rewrite append_assoc.
Qed.

Lemma rstrip_tight (s : string) : tight (rstrip s).
Proof.
  induction s as [|c s IH]; intros p q.
  - destruct p; [simpl; now intros <- | discriminate].
  - cbn [rstrip]. destruct (all_blank (String c s)) eqn:E.
    + destruct p; [simpl; now intros <- | discriminate].
    + destruct p as [|c' p]; simpl.
      * intros <- Hq. destruct (rstrip_prefix s) as (b & Hs & Hb).
        rewrite Hs in E.
        change (String c (rstrip s ++ b)) with (String c (rstrip s) ++ b) in E.
        rewrite (all_blank_app _ _ Hq) in E. congruence.
      * intros [= <- Hs]. exact (IH p q Hs).
Qed.

Lemma tight_rstrip (s : string) : tight s -> rstrip s = s.
Proof.
  induction s as [|c s IH]; [reflexivity|]. intros H. cbn [rstrip].
  destruct (all_blank (String c s)) eqn:E.
  - now apply (H EmptyString) in E.
  - f_equal. apply IH. exact (tight_suffix (String c EmptyString) s H).
Qed.

(** Stripping twice is stripping once: a stripped text neither begins nor
    ends with a blank. *)
Lemma strip_idem (s : string) : strip (strip s) = strip s.
Proof.
  unfold strip. destruct (lstrip_suffix (rstrip s)) as [p Hp].
  rewrite (tight_rstrip (lstrip (rstrip s))); [apply lstrip_idem|].
  apply (tight_suffix p). rewrite <- Hp. apply rstrip_tight.
Qed.

(** Stripping keeps a property that all characters have. *)
Lemma strip_all (q : ascii -> bool) (s : string) :
  all_chars q s = true -> all_chars q (strip s) = true.
Proof.
  intros H. unfold strip.
  destruct (rstrip_prefix s) as (b & Hs & _).
  destruct (lstrip_suffix (rstrip s)) as [p Hp].
  rewrite Hs, Hp, !all_chars_app, !andb_true_iff in H. tauto.
Qed.

Ltac bytes_tac :=
  unfold head_byte, is_space, blank2, blank3 in *; cbv zeta in *;
  repeat match goal with
         | H : _ = false |- _ => apply not_true_iff_false in H
         | |- _ = false => apply not_true_iff_false; intros ?
         end;
  repeat (rewrite andb_true_iff in * || rewrite orb_true_iff in *
          || rewrite Nat.eqb_eq in * || rewrite Nat.leb_le in * );
  lia.

Lemma blank2_tail (c1 c2 : ascii) : blank2 c1 c2 = true -> head_byte c2 = false.
Proof. intros H. bytes_tac. Qed.

Lemma blank3_tail (c1 c2 c3 : ascii) :
  blank3 c1 c2 c3 = true -> head_byte c2 = false /\ head_byte c3 = false.
Proof. intros H. split; bytes_tac. Qed.

Lemma is_space_head (c : ascii) : is_space c = true -> head_byte c = true.
Proof. intros H. unfold head_byte. now rewrite H. Qed.

Lemma blank2_head (c1 c2 : ascii) : blank2 c1 c2 = true -> head_byte c1 = true.
Proof.
  intros H. unfold head_byte, blank2 in *. cbv zeta in *.
  repeat (rewrite andb_true_iff in * || rewrite orb_true_iff in *
          || rewrite Nat.eqb_eq in * ).
  tauto.
Qed.

Lemma blank3_head (c1 c2 c3 : ascii) : blank3 c1 c2 c3 = true -> head_byte c1 = true.
Proof.
  intros H. unfold head_byte, blank3 in *. cbv zeta in *.
  repeat (rewrite andb_true_iff in * || rewrite orb_true_iff in *
          || rewrite Nat.eqb_eq in * ).
  tauto.
Qed.

Lemma after_blank_head (s r : string) : after_blank s = Some r -> at_head s.
Proof.
  unfold after_blank. destruct s as [|c1 s1]; [discriminate|]. simpl.
  destruct (is_space c1) eqn:E1; [intros _; now apply is_space_head|].
  destruct s1 as [|c2 s2]; [discriminate|].
  destruct (blank2 c1 c2) eqn:E2; [intros _; now apply (blank2_head c1 c2)|].
  destruct s2 as [|c3 s3]; [discriminate|].
  destruct (blank3 c1 c2 c3) eqn:E3; [intros _; now apply (blank3_head c1 c2 c3)|].
  discriminate.
Qed.

Lemma all_blank_head (s : string) : all_blank s = true -> at_head s.
Proof.
  rewrite all_blank_step. destruct (after_blank s) as [r|] eqn:E.
  - intros _. now apply (after_blank_head s r).
  - destruct s; [intros _; exact I | discriminate].
Qed.

(** A blank found in a text followed by one that begins like a blank lies
    within the first or is the start of the second. *)
Lemma after_blank_within (p s r : string) :
  at_head s -> p <> EmptyString ->
  after_blank (p ++ s) = Some r -> exists p', r = p' ++ s /\ after_blank p = Some p'.
Proof.
  intros Hs Hp. destruct p as [|c1 p1]; [congruence|]. clear Hp. simpl.
  destruct (is_space c1) eqn:E1; [intros [= <-]; now exists p1|].
  destruct p1 as [|c2 p2]; simpl.
  { destruct s as [|c2 s2]; [discriminate|]. simpl in Hs.
    destruct (blank2 c1 c2) eqn:E2.
    { apply blank2_tail in E2. congruence. }
    destruct s2 as [|c3 s3]; [discriminate|].
    destruct (blank3 c1 c2 c3) eqn:E3; [|discriminate].
    apply blank3_tail in E3 as [E3 _]. congruence. }
  destruct (blank2 c1 c2) eqn:E2; [intros [= <-]; now exists p2|].
  destruct p2 as [|c3 p3]; simpl.
  { destruct s as [|c3 s3]; [discriminate|]. simpl in Hs.
    destruct (blank3 c1 c2 c3) eqn:E3; [|discriminate].
    apply blank3_tail in E3 as [_ E3]. congruence. }
  destruct (blank3 c1 c2 c3) eqn:E3; [intros [= <-]; now exists p3 | discriminate].
Qed.

Lemma after_blank_none_app (p s : string) :
  at_head s -> p <> EmptyString -> after_blank p = None -> after_blank (p ++ s) = None.
Proof.
  intros Hs Hp Hn. destruct (after_blank (p ++ s)) as [r|] eqn:E; [|reflexivity].
  destruct (after_blank_within p s r Hs Hp E) as (p' & _ & H). congruence.
Qed.

(** A blank at the head of a text is one whatever follows. *)
Lemma after_blank_some_app (b r s : string) :
  after_blank b = Some r -> after_blank (b ++ s) = Some (r ++ s).
Proof.
  intros H. apply after_blank_app in H as (x & -> & _ & Hx).
  now rewrite append_assoc, Hx.
Qed.

(** [split] takes a text a blank or a byte at a time. *)
Lemma split_ws_go_step (cur s : string) :
  split_ws_go cur s =
    match after_blank s with
    | Some r => if truthy cur then cur :: split_ws_go EmptyString r
                else split_ws_go EmptyString r
    | None =>
        match s with
        | EmptyString => if truthy cur then [cur] else []
        | String c s' => split_ws_go (cur ++ String c EmptyString) s'
        end
    end.
Proof.
  destruct s as [|c1 [|c2 [|c3 s3]]]; simpl; try reflexivity.
  - now destruct (is_space c1).
  - destruct (is_space c1); [reflexivity|]. now destruct (blank2 c1 c2).
  - destruct (is_space c1); [reflexivity|]. destruct (blank2 c1 c2); [reflexivity|].
    now destruct (blank3 c1 c2 c3).
Qed.

Lemma has_blank_suffix (t : string) :
  has_blank t = false -> forall p q, t = p ++ q -> after_blank q = None.
Proof.
  induction t as [|c t IH]; intros H p q Hq.
  - destruct p; [simpl in Hq; now subst | discriminate].
  - cbn [has_blank] in H. destruct (after_blank (String c t)) eqn:E; [discriminate|].
    destruct p as [|c' p]; simpl in Hq; [now subst|].
    injection Hq as _ Hq. now apply (IH H p q).
Qed.

(** A run without a blank is taken whole. *)
Lemma split_ws_go_run (t rest : string) :
  has_blank t = false -> at_head rest ->
  forall cur, split_ws_go cur (t ++ rest) = split_ws_go (cur ++ t) rest.
Proof.
  intros Ht Hr. induction t as [|c t IH]; intros cur.
  - simpl. now rewrite append_nil_r.
  - rewrite (split_ws_go_step cur (String c t ++ rest)).
    rewrite (after_blank_none_app (String c t) rest Hr ltac:(discriminate)
               (has_blank_suffix _ Ht EmptyString _ eq_refl)).
    simpl. cbn [has_blank] in Ht.
    destruct (after_blank (String c t)); [discriminate|].
    rewrite (IH Ht). f_equal. now rewrite append_assoc.
Qed.

(** Blanks end the run that was being read, and give no run. *)
Lemma split_ws_go_blanks (post : string) :
  all_blank post = true ->
  forall cur, split_ws_go cur post = if truthy cur then [cur] else [].
Proof.
  induction post as [s E|s r E IH] using blank_ind;
    rewrite all_blank_step, E; intros H cur; rewrite split_ws_go_step, E.
  - destruct s; [reflexivity | discriminate].
  - now rewrite (IH H EmptyString).
Qed.

(** Whatever comes before a blank, the runs that follow the blank are read
    from nothing. *)
Lemma split_ws_go_before (s r : string) :
  after_blank s = Some r ->
  forall p cur, exists toks, split_ws_go cur (p ++ s) = (toks ++ split_ws_go EmptyString r)%list.
Proof.
  intros Hs p. remember (String.length p) as n eqn:Hn. revert p Hn.
  induction n as [n IH] using lt_wf_ind. intros p -> cur.
  destruct p as [|c p'].
  - simpl. rewrite split_ws_go_step, Hs.
    destruct (truthy cur); [now exists [cur] | now exists []].
  - rewrite split_ws_go_step.
    destruct (after_blank (String c p' ++ s)) as [r'|] eqn:E.
    + destruct (after_blank_within (String c p') s r' (after_blank_head s r Hs)
                  ltac:(discriminate) E) as (p'' & -> & Hp).
      apply after_blank_shorter in Hp.
      destruct (IH (String.length p'') Hp p'' eq_refl EmptyString) as [toks Htoks].
      rewrite Htoks. destruct (truthy cur); [now exists (cur :: toks) | now exists toks].
    + simpl. apply (IH (String.length p')); [simpl; lia | reflexivity].
Qed.

(** The last run [split] gives: a run without a blank that stands at the
    start of the text or after a blank, and before blanks only. *)
Lemma split_ws_last (pre t post : string) :
  pre = EmptyString \/ ends_with_blank pre ->
  t <> EmptyString -> has_blank t = false -> all_blank post = true ->
  last (split_ws (pre ++ t ++ post)) = Some t.
Proof.
  intros Hpre Hne Ht Hpost. unfold split_ws.
  assert (Hrun : split_ws_go EmptyString (t ++ post) = [t]).
  { rewrite (split_ws_go_run t post Ht (all_blank_head post Hpost)). simpl.
    rewrite (split_ws_go_blanks post Hpost). apply truthy_true in Hne. now rewrite Hne. }
  destruct Hpre as [-> | (p & b & -> & Hb)].
  - simpl. now rewrite Hrun.
  - rewrite append_assoc.
    destruct (split_ws_go_before (b ++ t ++ post) (t ++ post)
                (after_blank_some_app b EmptyString _ Hb) p EmptyString) as [toks ->].
    rewrite Hrun. apply last_snoc.
Qed.

(** ** Listing the folders *)

Global Instance lower_le_trans (lib : library) : Transitive (lower_le lib).
Proof. intros a b c. unfold lower_le. apply transitivity. Qed.

Global Instance lower_le_total (lib : library) : Total (lower_le lib).
Proof. intros a b. unfold lower_le. apply String.le_total. Qed.

Lemma sorted_set_NoDup (lib : library) (boxes : list string) : NoDup (sorted_set lib boxes).
Proof.
  unfold sorted_set. rewrite merge_sort_Permutation. apply NoDup_elements.
Qed.

Lemma sorted_set_elem_of (lib : library) (boxes : list string) (x : string) :
  x ∈ sorted_set lib boxes <-> x ∈ boxes.
Proof.
  unfold sorted_set. rewrite merge_sort_Permutation.
  rewrite elem_of_elements. apply elem_of_list_to_set.
Qed.

Lemma sorted_set_sorted (lib : library) (boxes : list string) :
  StronglySorted (lower_le lib) (sorted_set lib boxes).
Proof. unfold sorted_set. apply StronglySorted_merge_sort; apply _. Qed.

Lemma collect_boxes_cons (lib : library) (acc : list string) (line : response_item)
    (rest : list response_item) :
  collect_boxes lib acc (line :: rest) =
    match line_name lib line with
    | Ok name => collect_boxes lib (if keep_name name then acc ++ [name] else acc) rest
    | Raise e => Raise e
    end.
Proof.
  unfold line_name. simpl. unfold mbind, result_bind.
  destruct (decode_line lib line) as [decoded|e]; [|reflexivity].
  destruct (mailbox_name decoded); reflexivity.
Qed.

(** The loop adds, in order, the names of the lines that pass the test. *)
Lemma collect_boxes_ok (lib : library) (data : list response_item) :
  forall acc boxes,
    collect_boxes lib acc data = Ok boxes ->
    exists names,
      Forall2 (fun line name => line_name lib line = Ok name) data names /\
      boxes = (acc ++ List.filter keep_name names)%list.
Proof.
  induction data as [|line data IH]; intros acc boxes.
  - intros [= <-]. exists []. split; [constructor | simpl; now rewrite app_nil_r].
  - rewrite collect_boxes_cons.
    destruct (line_name lib line) as [name|e] eqn:En; [|discriminate].
    intros H. apply IH in H as (names & Hall & ->).
    exists (name :: names). split; [now constructor|].
    simpl. destruct (keep_name name); [now rewrite <- app_assoc | reflexivity].
Qed.

(** The loop stops at the first line that has no name, with its exception. *)
Lemma collect_boxes_raises (lib : library) (before after : list response_item)
    (line : response_item) (e : exn) :
  forall acc,
    Forall (fun l => is_ok (line_name lib l) = true) before ->
    line_name lib line = Raise e ->
    collect_boxes lib acc (before ++ line :: after) = Raise e.
Proof.
  induction before as [|l before IH]; intros acc Hb He.
  - simpl app. rewrite collect_boxes_cons. now rewrite He.
  - apply Forall_cons in Hb as [Hl Hb].
    change ((l :: before) ++ line :: after)%list with (l :: (before ++ line :: after))%list.
    rewrite collect_boxes_cons.
    destruct (line_name lib l); [|discriminate]. now apply IH.
Qed.

(** C2, as stated, fails: two names that differ only in the case of their
    letters are both returned. *)
Lemma list_mailboxes_keeps_both_cases :
  exists l,
    list_mailboxes plain_library {| imap_conn := Some (listing two_cases) |} = Ok l /\
    In "INBOX" l /\ In "inbox" l /\
    lower "INBOX" = lower "inbox" /\ "INBOX" <> "inbox".
Proof.
  eexists. split; [vm_compute; reflexivity|].
  repeat split; [simpl; tauto | simpl; tauto | discriminate].
Qed.

(** C2, amended.  The list returned holds no name twice, names being
    compared exactly: it holds each name the loop collected, names that
    differ only in the case of their letters included.  It is sorted by the
    names put in lower case. *)
Theorem list_mailboxes_sorted_exact_dedup
    (lib : library) (self : ImapClient) (l : list string) :
  list_mailboxes lib self = Ok l ->
  NoDup l /\
  StronglySorted (lower_le lib) l /\
  (forall conn typ data boxes,
     imap_conn self = Some conn ->
     conn_list conn = Ok (typ, data) ->
     typ = "OK" -> data <> [] ->
     collect_boxes lib [] data = Ok boxes ->
     forall x, In x l <-> In x boxes).
Proof.
  unfold list_mailboxes. destruct (imap_conn self) as [conn|] eqn:Hconn; [|discriminate].
  unfold mbind at 1, result_bind at 1.
  destruct (conn_list conn) as [[typ data]|e] eqn:Hlist; [|discriminate].
  destruct (negb (String.eqb typ "OK") || is_nil data) eqn:Hgate.
  - intros [= <-]. split; [constructor|]. split; [constructor|].
    intros conn' typ' data' boxes [= <-] Hlist' Htyp Hdata _.
    rewrite Hlist in Hlist'. injection Hlist' as <- <-. subst typ.
    destruct data; [congruence | discriminate].
  - unfold mbind, result_bind.
    destruct (collect_boxes lib [] data) as [boxes|e] eqn:Hb; [|discriminate].
    intros [= <-]. split; [apply sorted_set_NoDup|]. split; [apply sorted_set_sorted|].
    intros conn' typ' data' boxes' [= <-] Hlist' _ _ Hb'.
    rewrite Hlist in Hlist'. injection Hlist' as <- <-.
    rewrite Hb in Hb'. injection Hb' as <-. intros x.
    rewrite <- !list_elem_of_In. apply sorted_set_elem_of.
Qed.

Lemma list_mailboxes_sorted_exact_dedup_witness :
  exists l,
    list_mailboxes plain_library {| imap_conn := Some (listing two_cases) |} = Ok l /\
    NoDup l /\ StronglySorted (lower_le plain_library) l /\
    (forall x, In x l <-> In x ["INBOX"; "inbox"]).
Proof.
  eexists. split; [vm_compute; reflexivity|].
  destruct (list_mailboxes_sorted_exact_dedup plain_library
              {| imap_conn := Some (listing two_cases) |} _ eq_refl) as (Hn & Hs & Hin).
  split; [exact Hn|]. split; [exact Hs|].
  exact (Hin (listing two_cases) "OK" two_cases ["INBOX"; "inbox"] eq_refl eq_refl eq_refl
           ltac:(discriminate) eq_refl).
Defined.

(** Names outside ASCII are ordered by their lower case as well: the
    capital omega, whose code point is below that of alpha, comes after
    it. *)
Example list_mailboxes_greek_order :
  list_mailboxes greek_library {| imap_conn := Some (listing greek_folders) |}
    = Ok ["α"; "Ω"].
Proof. vm_compute. reflexivity. Qed.

(** *** Lines without a name *)

(** A line with neither a quoted token nor a bare one has no last token, and
    reading it raises [IndexError]. *)
Lemma mailbox_name_blank (decoded : string) :
  mailbox_name decoded = Raise IndexError <->
  findall_quoted decoded = [] /\ split_ws decoded = [].
Proof.
  unfold mailbox_name, last_item. split.
  - destruct (findall_quoted decoded) as [|x m] eqn:Em.
    + unfold mbind, result_bind.
      destruct (split_ws decoded) as [|t ts] using rev_ind; [auto|].
      rewrite last_snoc. discriminate.
    + destruct (last (x :: m)) eqn:El; [discriminate|].
      apply last_None in El. discriminate.
  - intros [-> ->]. reflexivity.
Qed.

(** The exception of a line is the exception of the listing: nothing
    between the loop and the caller catches it. *)
Lemma list_mailboxes_aborts (lib : library) (conn : imap_connection)
    (before after : list response_item) (line : response_item) (e : exn) :
  conn_list conn = Ok ("OK", before ++ line :: after)%list ->
  Forall (fun l => is_ok (line_name lib l) = true) before ->
  line_name lib line = Raise e ->
  list_mailboxes lib {| imap_conn := Some conn |} = Raise e.
Proof.
  intros Hlist Hb He. unfold list_mailboxes. simpl. rewrite Hlist.
  unfold mbind, result_bind. simpl.
  replace (is_nil (before ++ line :: after)) with false by now destruct before.
  now rewrite (collect_boxes_raises lib before after line e).
Qed.

(** C8.  The name of the specification's line is [INBOX.Trash]; an empty
    line in the response is not skipped: [list_mailboxes] raises
    [IndexError] and returns no folder at all, though the other two lines
    are well formed.  The same happens after a name sent as a literal. *)
Theorem list_mailboxes_empty_line_aborts :
  mailbox_name ("(\HasNoChildren) " ++ quoted "/" ++ " " ++ quoted "INBOX.Trash")
    = Ok "INBOX.Trash" /\
  mailbox_name EmptyString = Raise IndexError /\
  mailbox_name "   " = Raise IndexError /\
  list_mailboxes plain_library {| imap_conn := Some (listing with_empty_line) |}
    = Raise IndexError /\
  list_mailboxes plain_library {| imap_conn := Some (listing with_literal) |}
    = Raise IndexError.
Proof.
  split; [reflexivity|]. split; [reflexivity|]. split; [reflexivity|]. split.
  - apply (list_mailboxes_aborts plain_library (listing with_empty_line)
             [ItemBytes ("(\HasNoChildren) " ++ quoted "/" ++ " " ++ quoted "INBOX.Trash")]
             [ItemBytes ("(\HasNoChildren) " ++ quoted "/" ++ " " ++ quoted "INBOX.Sent")]
             (ItemBytes EmptyString) IndexError eq_refl).
    + repeat constructor.
    + reflexivity.
  - apply (list_mailboxes_aborts plain_library (listing with_literal)
             [ItemTuple ("(\HasNoChildren) " ++ quoted "/" ++ " {5}") "INBOX"] []
             (ItemBytes EmptyString) IndexError eq_refl).
    + repeat constructor.
    + reflexivity.
Qed.

(** *** The names that are kept *)

(** No name of the list is empty, a lone dot or a pair of double quotes. *)
Lemma list_mailboxes_no_sentinel (lib : library) (self : ImapClient) (l : list string) :
  list_mailboxes lib self = Ok l ->
  forall x, In x l -> keep_name x = true /\ x <> EmptyString /\ x <> "." /\ x <> two_quotes.
Proof.
  intros Hl x Hx.
  assert (Hk : keep_name x = true).
  { revert Hl. unfold list_mailboxes. destruct (imap_conn self) as [conn|]; [|discriminate].
    unfold mbind at 1, result_bind at 1.
    destruct (conn_list conn) as [[typ data]|e]; [|discriminate].
    destruct (negb (String.eqb typ "OK") || is_nil data).
    - intros [= <-]. destruct Hx.
    - unfold mbind, result_bind.
      destruct (collect_boxes lib [] data) as [boxes|e] eqn:Hb; [|discriminate].
      intros [= <-]. rewrite <- list_elem_of_In, sorted_set_elem_of in Hx.
      apply collect_boxes_ok in Hb as (names & _ & ->). simpl in Hx.
      rewrite list_elem_of_In, List.filter_In in Hx. tauto. }
  split; [assumption|]. unfold keep_name in Hk.
  apply andb_true_iff in Hk as [Hk H3]. apply andb_true_iff in Hk as [H1 H2].
  apply negb_true_iff, String.eqb_neq in H2, H3. apply truthy_true in H1. auto.
Qed.

(** *** Quoted tokens *)

Lemma quoted_app (x post : string) :
  quoted x ++ post = String dquote (x ++ String dquote post).
Proof. unfold quoted. simpl. now rewrite append_assoc. Qed.

Lemma has_dquote_app (a b : string) :
  has_dquote (a ++ b) = has_dquote a || has_dquote b.
Proof. induction a as [|c a IH]; simpl; [reflexivity | now rewrite IH, orb_assoc]. Qed.

Lemma no_token_without_quotes (t : string) :
  has_dquote t = false -> ~ has_quoted_token t /\ ~ has_quoted_token (String dquote t).
Proof.
  intros Ht. split; intros (pre & x & post & Heq & _); rewrite quoted_app in Heq.
  - rewrite Heq, has_dquote_app in Ht. simpl in Ht. now rewrite orb_true_r in Ht.
  - destruct pre as [|c pre]; simpl in Heq.
    + injection Heq as Heq. rewrite Heq, has_dquote_app in Ht. simpl in Ht.
      now rewrite orb_true_r in Ht.
    + injection Heq as _ Heq. rewrite Heq, has_dquote_app in Ht. simpl in Ht.
      now rewrite orb_true_r in Ht.
Qed.

Lemma no_token_cons (c : ascii) (s : string) :
  ~ has_quoted_token s -> Ascii.eqb c dquote = false -> ~ has_quoted_token (String c s).
Proof.
  intros Hs Hc (pre & x & post & Heq & Hx). rewrite quoted_app in Heq.
  destruct pre as [|c' pre]; simpl in Heq; injection Heq as -> ->.
  - now rewrite Ascii.eqb_refl in Hc.
  - apply Hs. exists pre, x, post. now rewrite quoted_app.
Qed.

(** After a quote and a non-empty run, nothing is found only when no quote
    follows. *)
Lemma findall_go_run_nil (s : string) :
  forall run, run <> EmptyString ->
    findall_quoted_go (Some run) s = [] -> has_dquote s = false.
Proof.
  induction s as [|c s IH]; intros run Hrun; simpl; [reflexivity|].
  destruct (Ascii.eqb c dquote).
  - destruct run; [congruence | discriminate].
  - intros H. apply IH in H; [assumption|]. destruct run; discriminate.
Qed.

Lemma findall_go_open_nil (s : string) :
  findall_quoted_go (Some EmptyString) s = [] -> ~ has_quoted_token (String dquote s).
Proof.
  induction s as [|c s IH]; simpl.
  - intros _. now apply no_token_without_quotes.
  - destruct (Ascii.eqb c dquote) eqn:Ec.
    + apply Ascii.eqb_eq in Ec as ->. intros H. specialize (IH H).
      intros (pre & x & post & Heq & Hne & Hx). rewrite quoted_app in Heq.
      destruct pre as [|c' pre]; simpl in Heq; injection Heq as Heq.
      * destruct x as [|a x]; [congruence|]. simpl in Heq. injection Heq as <- _.
        simpl in Hx. discriminate.
      * subst c'. apply IH. exists pre, x, post. rewrite quoted_app. split; [assumption|].
        now split.
    + intros H. apply findall_go_run_nil in H; [|discriminate].
      apply no_token_without_quotes. simpl. now rewrite Ec.
Qed.

(** Completeness of the search: when it finds nothing, the line has no
    quoted token. *)
Lemma findall_quoted_nil_no_token (s : string) :
  findall_quoted s = [] -> ~ has_quoted_token s.
Proof.
  unfold findall_quoted. induction s as [|c s IH]; simpl.
  - intros _. now apply no_token_without_quotes.
  - destruct (Ascii.eqb c dquote) eqn:Ec.
    + apply Ascii.eqb_eq in Ec as ->. apply findall_go_open_nil.
    + intros H. apply no_token_cons; auto.
Qed.

(** Soundness of the search: the last token it finds stands in the line
    between double quotes, and nothing is found after it. *)
Lemma findall_go_last (s : string) :
  forall cur x,
    clean cur ->
    last (findall_quoted_go cur s) = Some x ->
    exists pre post,
      pending cur ++ s = pre ++ String dquote (x ++ String dquote post) /\
      is_token x /\ findall_quoted post = [].
Proof.
  induction s as [|c s IH]; intros cur x Hcur; simpl; [discriminate|].
  destruct (Ascii.eqb c dquote) eqn:Ec.
  - apply Ascii.eqb_eq in Ec as ->. destruct cur as [[|a run]|].
    + intros H. destruct (IH (Some EmptyString) x eq_refl H) as (pre & post & Heq & Hx & Hp).
      exists (String dquote pre), post. simpl in *. now rewrite Heq.
    + destruct (findall_quoted_go None s) as [|y l] eqn:El.
      * intros [= <-]. exists EmptyString, s. simpl.
        repeat split; [discriminate | exact Hcur | exact El].
      * intros H. change (last (y :: l) = Some x) in H. rewrite <- El in H.
        destruct (IH None x I H) as (pre & post & Heq & Hx & Hp). simpl in Heq.
        exists (String dquote (String a run ++ String dquote pre)), post.
        rewrite Heq. simpl. rewrite append_assoc. simpl. auto.
    + intros H. destruct (IH (Some EmptyString) x eq_refl H) as (pre & post & Heq & Hx & Hp).
      exists pre, post. auto.
  - destruct cur as [run|].
    + intros H.
      assert (Hclean : clean (Some (run ++ String c EmptyString))).
      { simpl in *. rewrite has_dquote_app. simpl. now rewrite Hcur, Ec. }
      destruct (IH _ x Hclean H) as (pre & post & Heq & Hx & Hp).
      exists pre, post. rewrite <- Heq. simpl. rewrite append_assoc. simpl. auto.
    + intros H. destruct (IH None x I H) as (pre & post & Heq & Hx & Hp).
      exists (String c pre), post. simpl in *. rewrite Heq. auto.
Qed.

(** The last token found, in the line. *)
Lemma findall_quoted_last (s x : string) :
  last (findall_quoted s) = Some x ->
  exists pre post,
    s = pre ++ quoted x ++ post /\ is_token x /\ findall_quoted post = [].
Proof.
  intros H. destruct (findall_go_last s None x I H) as (pre & post & Heq & Hx & Hp).
  exists pre, post. rewrite quoted_app. auto.
Qed.

Lemma findall_quoted_token (s : string) :
  has_quoted_token s <-> findall_quoted s <> [].
Proof.
  split.
  - intros H E. now apply findall_quoted_nil_no_token in E.
  - intros H. destruct (last (findall_quoted s)) as [x|] eqn:El.
    + destruct (findall_quoted_last s x El) as (pre & post & Heq & Hx & _).
      exists pre, x, post. auto.
    + apply last_None in El. contradiction.
Qed.

(** The rule of [list_mailboxes] for the name of a line: with a quoted
    token in the line, the name is a quoted token after which the line has
    no other. *)
Lemma mailbox_name_quoted (decoded : string) :
  has_quoted_token decoded ->
  exists pre x post,
    decoded = pre ++ quoted x ++ post /\
    is_token x /\ ~ has_quoted_token post /\
    mailbox_name decoded = Ok x.
Proof.
  intros H. apply findall_quoted_token in H. unfold mailbox_name, last_item.
  destruct (findall_quoted decoded) as [|y m] eqn:Em; [contradiction|].
  destruct (last (y :: m)) as [x|] eqn:El; [|apply last_None in El; discriminate].
  rewrite <- Em in El.
  destruct (findall_quoted_last decoded x El) as (pre & post & Heq & Hx & Hp).
  exists pre, x, post. split; [exact Heq|]. split; [exact Hx|].
  split; [now apply findall_quoted_nil_no_token | reflexivity].
Qed.

(** Without a quoted token, the name is the last run [split] gives, less
    the double quotes at its two ends. *)
Lemma mailbox_name_last_run (decoded : string) (tokens : list string) (t : string) :
  ~ has_quoted_token decoded ->
  split_ws decoded = (tokens ++ [t])%list ->
  mailbox_name decoded = Ok (strip_char dquote t).
Proof.
  intros H Hs. unfold mailbox_name, last_item.
  destruct (findall_quoted decoded) as [|y m] eqn:Em.
  - unfold mbind, result_bind. now rewrite Hs, last_snoc.
  - exfalso. apply H, findall_quoted_token. now rewrite Em.
Qed.

(** Without a quoted token, the name is the last run of characters between
    blanks, less the double quotes at its two ends: the run [t] that
    stands at the start of the line or after a blank, holds no blank, and
    has nothing but blanks after it.  The blanks are those of
    [str.isspace], the no-break space among them. *)
Lemma mailbox_name_bare (pre t post : string) :
  ~ has_quoted_token (pre ++ t ++ post) ->
  pre = EmptyString \/ ends_with_blank pre ->
  t <> EmptyString -> has_blank t = false -> all_blank post = true ->
  mailbox_name (pre ++ t ++ post) = Ok (strip_char dquote t).
Proof.
  intros H Hpre Hne Ht Hpost.
  pose proof (split_ws_last pre t post Hpre Hne Ht Hpost) as Hlast.
  destruct (split_ws (pre ++ t ++ post)) as [|x l] eqn:Es using rev_ind;
    [discriminate|].
  rewrite last_snoc in Hlast. injection Hlast as ->.
  now apply (mailbox_name_last_run _ l t).
Qed.

(** The line of the specification: its name is the last quoted token. *)
Lemma mailbox_name_quoted_witness :
  exists pre x post,
    "(\HasNoChildren) " ++ quoted "/" ++ " " ++ quoted "INBOX.Trash"
      = pre ++ quoted x ++ post /\
    is_token x /\ ~ has_quoted_token post /\
    mailbox_name ("(\HasNoChildren) " ++ quoted "/" ++ " " ++ quoted "INBOX.Trash") = Ok x.
Proof.
  apply mailbox_name_quoted.
  exists ("(\HasNoChildren) " ++ quoted "/" ++ " "), "INBOX.Trash", EmptyString.
  split; [reflexivity|]. split; [discriminate | reflexivity].
Defined.

(** A line whose name is not quoted, and comes after a no-break space. *)
Lemma mailbox_name_bare_witness :
  mailbox_name ("(\HasNoChildren) NIL INBOX") = Ok "INBOX" /\
  mailbox_name ("() NIL a" ++ nbsp ++ "b ") = Ok "b".
Proof.
  split.
  - apply (mailbox_name_bare "(\HasNoChildren) NIL " "INBOX" EmptyString).
    + intros H. apply findall_quoted_token in H. apply H. reflexivity.
    + right. now exists "(\HasNoChildren) NIL", " ".
    + discriminate.
    + reflexivity.
    + reflexivity.
  - apply (mailbox_name_bare ("() NIL a" ++ nbsp) "b" " ").
    + intros H. apply findall_quoted_token in H. apply H. reflexivity.
    + right. now exists "() NIL a", nbsp.
    + discriminate.
    + reflexivity.
    + reflexivity.
Defined.

(** The entry that only tells the delimiter is dropped. *)
Lemma list_mailboxes_no_sentinel_witness :
  exists l,
    list_mailboxes plain_library {| imap_conn := Some (listing dovecot_listing) |} = Ok l /\
    In "INBOX" l /\ ~ In "." l.
Proof.
  eexists. split; [vm_compute; reflexivity|]. split; [simpl; tauto|].
  intros H.
  destruct (list_mailboxes_no_sentinel plain_library
              {| imap_conn := Some (listing dovecot_listing) |} ["INBOX"] eq_refl "." H)
    as (_ & _ & Hdot & _).
  now apply Hdot.
Defined.

(** * More properties *)

(** ** Reading the terminal *)

Lemma input_nonempty_cases (i : stdin) :
  (forall s rest,
     input_nonempty i = Ok (s, rest) <->
     exists blanks l,
       i = (blanks ++ l :: rest)%list /\ Forall blank blanks /\
       s = strip l /\ s <> EmptyString) /\
  (forall e, input_nonempty i = Raise e <-> e = EOFError /\ Forall blank i).
Proof.
  unfold blank. induction i as [|l i [IHok IHraise]]; split.
  - intros s rest. split; [discriminate|].
    intros (blanks & l & H & _). destruct blanks; discriminate.
  - intros e. simpl. split; [intros [= <-]; auto | intros [-> _]; reflexivity].
  - intros s rest. simpl. destruct (truthy (strip l)) eqn:E.
    + apply truthy_true in E. split.
      * intros [= <- <-]. exists [], l. auto.
      * intros (blanks & l' & H & Hb & -> & Hne).
        destruct blanks as [|b blanks]; simpl in H; injection H as -> H.
        -- now subst.
        -- apply Forall_cons in Hb as [Hb _]. congruence.
    + assert (El : strip l = EmptyString).
      { destruct (strip l); [reflexivity | discriminate]. }
      rewrite IHok. split.
      * intros (blanks & l' & -> & Hb & Hs & Hne). exists (l :: blanks), l'. auto.
      * intros (blanks & l' & H & Hb & Hs & Hne).
        destruct blanks as [|b blanks]; simpl in H; injection H as -> H.
        -- congruence.
        -- apply Forall_cons in Hb as [_ Hb]. exists blanks, l'. auto.
  - intros e. simpl. destruct (truthy (strip l)) eqn:E.
    + apply truthy_true in E. split; [discriminate|].
      intros [_ Hb]. apply Forall_cons in Hb as [Hb _]. congruence.
    + assert (El : strip l = EmptyString).
      { destruct (strip l); [reflexivity | discriminate]. }
      rewrite IHraise. split.
      * intros [-> Hb]. auto.
      * intros [-> Hb]. apply Forall_cons in Hb as [_ Hb]. auto.
Qed.

(** [input_nonempty] as a procedure: a reminder is printed for each blank
    line passed over. *)
Lemma asking_typed (blanks : list string) (l : string) (rest : stdin) :
  Forall blank blanks -> strip l <> EmptyString ->
  forall w,
    asking (blanks ++ l :: rest)%list w =
      (Ok (strip l), Machine rest (smtp_conn w) (trace w ++ reminders blanks)).
Proof.
  unfold blank. intros Hb Hl. induction Hb as [|b blanks Hb _ IH]; intros w; simpl.
  - apply truthy_true in Hl. now rewrite Hl, app_nil_r.
  - rewrite Hb. simpl. rewrite IH. simpl. now rewrite <- app_assoc.
Qed.

Lemma asking_eof (i : stdin) :
  Forall blank i ->
  forall w,
    asking i w = (Raise EOFError, Machine [] (smtp_conn w) (trace w ++ reminders i)).
Proof.
  unfold blank. induction 1 as [|b i Hb _ IH]; intros w; simpl.
  - now rewrite app_nil_r.
  - rewrite Hb. simpl. rewrite IH. simpl. now rewrite <- app_assoc.
Qed.

(** [input_nonempty] returns the first line that is not blank, stripped, and
    leaves the lines after it; it raises [EOFError] exactly when every line
    is blank.  Run as a procedure, it answers every blank line it passes
    over with the reminder, and at the end of the input no line is left. *)
Theorem input_nonempty_first_nonblank (i : stdin) :
  (forall s rest,
     input_nonempty i = Ok (s, rest) <->
     exists blanks l,
       i = (blanks ++ l :: rest)%list /\ Forall blank blanks /\
       s = strip l /\ s <> EmptyString) /\
  (forall e, input_nonempty i = Raise e <-> e = EOFError /\ Forall blank i) /\
  (forall w,
     keyboard w = i ->
     (forall blanks l rest,
        i = (blanks ++ l :: rest)%list -> Forall blank blanks -> ~ blank l ->
        ask_nonempty w =
          (Ok (strip l), Machine rest (smtp_conn w) (trace w ++ reminders blanks))) /\
     (Forall blank i ->
        ask_nonempty w =
          (Raise EOFError, Machine [] (smtp_conn w) (trace w ++ reminders i)))).
Proof.
  destruct (input_nonempty_cases i) as [Hok Hraise].
  split; [exact Hok|]. split; [exact Hraise|].
  intros w Hk. unfold ask_nonempty. rewrite Hk. split.
  - intros blanks l rest -> Hb Hl. now apply asking_typed.
  - intros Hb. now apply asking_eof.
Qed.

(** A line that holds a no-break space only is blank. *)
Lemma input_nonempty_first_nonblank_witness :
  ask_nonempty (Machine [" "; nbsp; nbsp ++ "x "; "next"] None []) =
    (Ok "x", Machine ["next"] None [Printed REMINDER; Printed REMINDER]).
Proof.
  exact (proj1 (proj2 (proj2 (input_nonempty_first_nonblank
                                [" "; nbsp; nbsp ++ "x "; "next"]))
                 (Machine [" "; nbsp; nbsp ++ "x "; "next"] None []) eq_refl)
           [" "; nbsp] (nbsp ++ "x ") ["next"] eq_refl
           ltac:(repeat constructor) ltac:(discriminate)).
Defined.

(** [read_body] returns the lines typed before the first line that is a
    lone dot, after the lines it was given, and leaves what follows that
    line; it raises [EOFError] exactly when no line is a lone dot. *)
Theorem read_body_until_dot (i : stdin) :
  forall acc,
    (forall lines rest,
       read_body acc i = Ok (lines, rest) <->
       exists typed term,
         i = (typed ++ term :: rest)%list /\ Forall (fun l => ~ ends_body l) typed /\
         ends_body term /\ lines = (acc ++ typed)%list) /\
    (forall e, read_body acc i = Raise e <->
               e = EOFError /\ Forall (fun l => ~ ends_body l) i).
Proof.
  unfold ends_body. induction i as [|l i IH]; intros acc; split.
  - intros lines rest. split; [discriminate|].
    intros (typed & term & H & _). destruct typed; discriminate.
  - intros e. simpl. split; [intros [= <-]; auto | intros [-> _]; reflexivity].
  - intros lines rest. simpl. destruct (String.eqb (strip l) ".") eqn:E.
    + apply String.eqb_eq in E. split.
      * intros [= <- <-]. exists [], l. rewrite app_nil_r. auto.
      * intros (typed & term & H & Ht & Hterm & ->).
        destruct typed as [|t typed]; simpl in H; injection H as -> H.
        -- subst. now rewrite app_nil_r.
        -- apply Forall_cons in Ht as [Ht _]. contradiction.
    + apply String.eqb_neq in E. destruct (IH (acc ++ [l])%list) as [IHok _].
      rewrite IHok. split.
      * intros (typed & term & -> & Ht & Hterm & ->). exists (l :: typed), term.
        rewrite <- app_assoc. auto.
      * intros (typed & term & H & Ht & Hterm & ->).
        destruct typed as [|t typed]; simpl in H; injection H as -> H.
        -- contradiction.
        -- apply Forall_cons in Ht as [_ Ht]. exists typed, term.
           rewrite <- app_assoc. auto.
  - intros e. simpl. destruct (String.eqb (strip l) ".") eqn:E.
    + apply String.eqb_eq in E. split; [discriminate|].
      intros [_ Hb]. apply Forall_cons in Hb as [Hb _]. contradiction.
    + apply String.eqb_neq in E. destruct (IH (acc ++ [l])%list) as [_ IHraise].
      rewrite IHraise. split.
      * intros [-> Hb]. auto.
      * intros [-> Hb]. apply Forall_cons in Hb as [_ Hb]. auto.
Qed.

(** A line that is a lone dot between no-break spaces ends the body. *)
Lemma read_body_until_dot_witness :
  read_body [] ["a"; " . b"; nbsp ++ "." ++ nbsp; "next"] = Ok (["a"; " . b"], ["next"]).
Proof.
  apply (proj1 (read_body_until_dot ["a"; " . b"; nbsp ++ "." ++ nbsp; "next"] [])).
  exists ["a"; " . b"], (nbsp ++ "." ++ nbsp).
  split; [reflexivity|]. split; [repeat constructor; discriminate|].
  split; reflexivity.
Defined.

(** ** The list of recipients *)

(** The fields of [split] hold no separator. *)
Lemma split_on_go_fields (sep : ascii) (s : string) :
  forall cur,
    all_chars (fun c => negb (Ascii.eqb c sep)) cur = true ->
    Forall (fun f => all_chars (fun c => negb (Ascii.eqb c sep)) f = true)
           (split_on_go sep cur s).
Proof.
  induction s as [|c s IH]; intros cur Hcur; simpl.
  - now repeat constructor.
  - destruct (Ascii.eqb c sep) eqn:E.
    + constructor; [assumption | now apply IH].
    + apply IH. rewrite all_chars_app. simpl. now rewrite Hcur, E.
Qed.

(** The recipients [compose_and_send] and [forward_message] make of the
    line typed: no address is empty, holds a comma, or begins or ends with a
    blank, so that stripping it once more leaves it as it is; and there is
    no address at all exactly when every field between the commas of the
    line is made of blanks only. *)
Theorem split_addresses_clean (to_line : string) :
  (forall a, In a (split_addresses to_line) ->
     a <> EmptyString /\
     all_chars (fun c => negb (Ascii.eqb c comma)) a = true /\
     after_blank a = None /\ tight a /\ strip a = a) /\
  (split_addresses to_line = [] <->
     Forall (fun f => all_blank f = true) (split_on comma to_line)).
Proof.
  unfold split_addresses. split.
  - intros a Ha. apply List.in_map_iff in Ha as (f & <- & Hf).
    apply List.filter_In in Hf as [Hf Hne]. apply truthy_true in Hne.
    split; [assumption|]. split; [|split; [|split]].
    + apply strip_all. unfold split_on in Hf.
      pose proof (split_on_go_fields comma to_line EmptyString eq_refl) as Hall.
      rewrite Forall_forall in Hall. apply Hall. now apply list_elem_of_In.
    + apply after_blank_lstrip.
    + unfold strip. destruct (lstrip_suffix (rstrip f)) as [p Hp].
      apply (tight_suffix p). rewrite <- Hp. apply rstrip_tight.
    + apply strip_idem.
  - generalize (split_on comma to_line). intros l.
    induction l as [|f l IH]; simpl; [split; auto|].
    destruct (truthy (strip f)) eqn:E.
    + split; [discriminate|]. intros H. apply Forall_cons in H as [H _].
      apply strip_nil in H. rewrite H in E. discriminate.
    + rewrite IH, Forall_cons. apply not_true_iff_false in E.
      rewrite truthy_true in E. rewrite <- strip_nil.
      split; [intros H; split; [|assumption] | tauto].
      destruct (strip f); [reflexivity | exfalso; apply E; discriminate].
Qed.

(** Fields of blanks only give no address. *)
Lemma split_addresses_clean_witness :
  split_addresses ("," ++ nbsp ++ ", ") = [] /\
  (forall a, In a (split_addresses (nbsp ++ "ann@example.org ,bob@example.org")) ->
     a <> EmptyString /\ strip a = a).
Proof.
  split.
  - apply (proj2 (split_addresses_clean ("," ++ nbsp ++ ", "))).
    repeat constructor.
  - intros a Ha.
    destruct (proj1 (split_addresses_clean (nbsp ++ "ann@example.org ,bob@example.org"))
                a Ha) as (Hne & _ & _ & _ & Hs).
    now split.
Defined.

(** ** More on connecting *)

Ltac implicit_cases srv :=
  destruct (ssl_connect srv) as [[]|?]; simpl;
  [ destruct (ssl_login srv) as [[]|?]; simpl | ].

Ltac upgrade_cases srv :=
  destruct (plain_connect srv) as [[]|?]; simpl;
  [ destruct (plain_ehlo srv) as [[]|?]; simpl;
    [ destruct (plain_starttls srv) as [[]|?]; simpl;
      [ destruct (plain_login srv) as [[]|?]; simpl | ] | ] | ].

Ltac connect_unfold :=
  unfold connect, config_ssl, config_fallback, implicit_ok, implicit_step, upgrade_step,
    try_exceptM, mbind, M_bind, result_bind, call, print, emit, lift, set_conn, raise in *.

(** [connect] returns normally exactly when the implicit-TLS step is
    configured and goes through, or the fallback is allowed and the
    STARTTLS step goes through.  In the first case the connection kept is
    the implicit-TLS one and no call of the STARTTLS path was made; in the
    second it is the upgraded one. *)
Theorem connect_succeeds_iff
    (cfg : config) (srv : smtp_server) (self : SmtpClient) (w : machine) :
  (fst (connect cfg srv self w) = Ok tt <->
     implicit_ok cfg srv \/ (config_fallback cfg = true /\ upgrade_step srv = Ok tt)) /\
  (implicit_ok cfg srv ->
     smtp_conn (snd (connect cfg srv self w)) = Some SMTP_SSL /\
     exists t, trace (snd (connect cfg srv self w)) = (trace w ++ t)%list /\
               List.filter is_upgrade_event t = []) /\
  (~ implicit_ok cfg srv -> fst (connect cfg srv self w) = Ok tt ->
     smtp_conn (snd (connect cfg srv self w)) = Some SMTP_587).
Proof.
  connect_unfold.
  destruct (smtp_ssl cfg) as [[|]|]; destruct (smtp_starttls_fallback cfg) as [[|]|];
    implicit_cases srv; upgrade_cases srv;
    (split;
     [ split; [ intros H; first [discriminate | auto]
              | intros [[H1 H2]|[H1 H2]]; first [discriminate | reflexivity] ]
     | split;
       [ intros [H1 H2];
         first [ discriminate
               | split; [reflexivity
                        | eexists; split; [rewrite <- ?app_assoc; reflexivity | reflexivity]] ]
       | intros Hn H;
         first [ discriminate | reflexivity | exfalso; apply Hn; split; reflexivity ] ] ]).
Qed.

(** With SSL turned off in the configuration, or the key missing, no call
    of the implicit-TLS path is made.  Without a fallback [connect] then
    raises at once, before any call and any output; with one, its outcome is
    the outcome of the STARTTLS step. *)
Theorem connect_ssl_disabled
    (cfg : config) (srv : smtp_server) (self : SmtpClient) (w : machine) :
  smtp_ssl cfg <> Some true ->
  exists t,
    trace (snd (connect cfg srv self w)) = (trace w ++ t)%list /\
    List.filter is_implicit_event t = [] /\
    (config_fallback cfg = false ->
       connect cfg srv self w = (Raise (ssl_off_error cfg), w)) /\
    (config_fallback cfg = true ->
       fst (connect cfg srv self w) = upgrade_step srv).
Proof.
  intros Hssl. connect_unfold. unfold ssl_off_error. destruct w as [kb sc tr].
  destruct (smtp_ssl cfg) as [[|]|]; [congruence| |];
    destruct (smtp_starttls_fallback cfg) as [[|]|]; simpl;
    upgrade_cases srv;
    (eexists; split;
     [ first [ rewrite <- ?app_assoc; reflexivity | symmetry; apply app_nil_r ]
     | split; [reflexivity | split; intros H; first [discriminate | reflexivity]] ]).
Qed.

Lemma connect_ssl_disabled_witness :
  connect (Config (Some false) None ∅) accepting some_client (Machine [] None [])
    = (Raise (PlainException "SSL není povoleno v configu"), Machine [] None []) /\
  connect (Config None (Some false) ∅) accepting some_client (Machine [] None [])
    = (Raise (KeyError "ssl"), Machine [] None []).
Proof.
  split.
  - destruct (connect_ssl_disabled (Config (Some false) None ∅) accepting some_client
                (Machine [] None []) ltac:(discriminate)) as (t & _ & _ & H & _).
    exact (H eq_refl).
  - destruct (connect_ssl_disabled (Config None (Some false) ∅) accepting some_client
                (Machine [] None []) ltac:(discriminate)) as (t & _ & _ & H & _).
    exact (H eq_refl).
Defined.

(** A login that is refused over implicit TLS, without a fallback: [connect]
    raises, and the client is left holding the connection it had opened,
    which never authenticated.  When opening the connection raises, the
    connection the client held before is the one it still holds. *)
Theorem connect_failure_keeps_connection
    (cfg : config) (srv : smtp_server) (self : SmtpClient) (w : machine) (e : exn) :
  smtp_ssl cfg = Some true ->
  config_fallback cfg = false ->
  (ssl_connect srv = Ok tt -> ssl_login srv = Raise e ->
     fst (connect cfg srv self w) = Raise e /\
     smtp_conn (snd (connect cfg srv self w)) = Some SMTP_SSL) /\
  (ssl_connect srv = Raise e ->
     fst (connect cfg srv self w) = Raise e /\
     smtp_conn (snd (connect cfg srv self w)) = smtp_conn w).
Proof.
  intros Hssl Hfb. connect_unfold. rewrite Hssl.
  destruct (smtp_starttls_fallback cfg) as [[|]|]; try discriminate; simpl;
    (split; [intros -> -> | intros ->]; simpl; split; reflexivity).
Qed.

Lemma connect_failure_keeps_connection_witness :
  fst (connect (Config (Some true) None ∅) refusing_login some_client (Machine [] None []))
    = Raise (LibraryError "535 authentication failed") /\
  smtp_conn (snd (connect (Config (Some true) None ∅) refusing_login some_client
                    (Machine [] None []))) = Some SMTP_SSL.
Proof.
  exact (proj1 (connect_failure_keeps_connection (Config (Some true) None ∅) refusing_login
                  some_client (Machine [] None [])
                  (LibraryError "535 authentication failed") eq_refl eq_refl)
           eq_refl eq_refl).
Defined.

(** ** More on sending *)



(** The copy kept of a message that went out: the folder named [sent] in
    the configuration is selected, and the bytes of the very message that
    was sent are appended to it.  The status the server gives the APPEND is
    not looked at: whatever it is, the copy is reported as written. *)
Theorem send_text_archives_what_was_sent
    (lib : library) (cfg : config) (srv : smtp_server) (self : SmtpClient)
    (to_addrs : list string) (subject body : string) (from_name : option string)
    (conn : imap_connection) (w : machine) (c : smtp_connection)
    (sent_box : string) (raw : bytes) (status : string) :
  let msg := build_message lib self to_addrs subject body from_name in
  smtp_conn w = Some c ->
  send_message srv c msg = Ok tt ->
  FOLDERS cfg !! "sent" = Some sent_box ->
  conn_select conn sent_box = Ok "OK" ->
  as_bytes lib msg = Ok raw ->
  conn_append conn sent_box raw = Ok status ->
  send_text lib cfg srv self to_addrs subject body from_name
    (Some {| imap_conn := Some conn |}) w =
  (Ok tt,
   Machine (keyboard w) (smtp_conn w)
     (trace w ++
      [ SendMessage c msg;
        Printed "SMTP: zpráva odeslána.";
        Printed ("IMAP: pokus o zápis do '" ++ sent_box ++ "'…");
        ImapSelect sent_box;
        ImapAppend sent_box raw;
        Printed ("IMAP: zpráva zapsána do složky '" ++ sent_box ++ "'.") ])).
Proof.
  cbv zeta. intros Hc Hsend Hbox Hsel Hraw Happ.
  rewrite (send_text_after_send lib cfg srv self to_addrs subject body from_name _ w c Hc Hsend).
  unfold try_exceptM, archive_copy, select_mailbox. simpl.
  unfold mbind, M_bind, call, print, emit, lift. rewrite Hbox. simpl.
  unfold mbind, M_bind. simpl. rewrite Hsel. simpl. rewrite Hraw. simpl.
  rewrite Happ. simpl. rewrite <- !app_assoc. reflexivity.
Qed.

Lemma send_text_archives_what_was_sent_witness :
  send_text plain_library sent_is_Sent accepting some_client ["you@example.org"]
    "hi" "text" None (Some append_refused) (Machine [] (Some SMTP_SSL) []) =
  (Ok tt,
   Machine [] (Some SMTP_SSL)
     [ SendMessage SMTP_SSL
         (Outgoing "me@example.org <me@example.org>" "you@example.org" "hi" "text");
       Printed "SMTP: zpráva odeslána.";
       Printed "IMAP: pokus o zápis do 'Sent'…";
       ImapSelect "Sent";
       ImapAppend "Sent" "text";
       Printed "IMAP: zpráva zapsána do složky 'Sent'." ]).
Proof.
  exact (send_text_archives_what_was_sent plain_library sent_is_Sent accepting some_client
           ["you@example.org"] "hi" "text" None
           (ImapConnection (Ok ("OK", [])) (fun _ => Ok "OK")
              (fun _ _ => Ok ("NO", [])) (fun _ _ => Ok "NO"))
           (Machine [] (Some SMTP_SSL) []) SMTP_SSL "Sent" "text" "NO"
           eq_refl eq_refl eq_refl eq_refl eq_refl eq_refl).
Defined.

(** ** More on the plain text of a message *)




(** ** More on IMAP *)



(** The runs [bsplit] returns are not empty and hold no blank. *)
Lemma bsplit_go_uids (s : string) :
  forall cur,
    all_chars (fun c => negb (is_bspace c)) cur = true ->
    Forall is_uid (bsplit_go cur s).
Proof.
  unfold is_uid. induction s as [|c s IH]; intros cur Hcur; simpl.
  - destruct (truthy cur) eqn:E; [|constructor].
    apply truthy_true in E. repeat constructor; assumption.
  - destruct (is_bspace c) eqn:Ec.
    + destruct (truthy cur) eqn:E.
      * apply truthy_true in E. constructor; [auto | now apply IH].
      * now apply IH.
    + apply IH. rewrite all_chars_app. simpl. now rewrite Hcur, Ec.
Qed.

Lemma bsplit_go_app (t s : string) :
  forall cur,
    all_chars (fun c => negb (is_bspace c)) t = true ->
    bsplit_go cur (t ++ s) = bsplit_go (cur ++ t) s.
Proof.
  induction t as [|c t IH]; intros cur Ht; simpl.
  - now rewrite append_nil_r.
  - simpl in Ht. apply andb_true_iff in Ht as [Hc Ht]. apply negb_true_iff in Hc.
    rewrite Hc, IH by assumption. now rewrite append_assoc.
Qed.

Lemma bsplit_go_space (t s : string) :
  truthy t = true -> bsplit_go t (String " "%char s) = t :: bsplit_go EmptyString s.
Proof. intros E. simpl. now rewrite E. Qed.

(** Identifiers written one after the other with a space in between are
    read back as they were, in the same order. *)
Lemma bsplit_join (ids : list bytes) :
  Forall is_uid ids -> bsplit (join " " ids) = ids.
Proof.
  unfold bsplit. induction 1 as [|t ids [Hne Ht] Hids IH]; [reflexivity|].
  assert (Etruthy : truthy t = true) by now apply truthy_true.
  destruct ids as [|t' ids].
  - simpl. rewrite <- (append_nil_r t) at 1. rewrite bsplit_go_app by assumption.
    simpl. now rewrite Etruthy.
  - change (join " " (t :: t' :: ids))
      with (t ++ String " "%char (join " " (t' :: ids))).
    rewrite bsplit_go_app by assumption.
    change (EmptyString ++ t) with t.
    rewrite bsplit_go_space by assumption. now rewrite IH.
Qed.

(** [search_uids] on an answer of the server.  A status other than OK gives
    no identifier and no error, and so does an answer whose first item is
    absent, [None] or holds nothing but blanks.  The identifiers returned are
    never empty and hold no blank; identifiers that the server lists with a
    space in between are returned as they are, in the order of the server. *)
Theorem search_uids_answered
    (conn : imap_connection) (more : imap_more) (criteria typ : string)
    (data : list response_item) :
  conn_uid_search more criteria = Ok (typ, data) ->
  let found := search_uids {| imap_conn := Some conn |} more criteria in
  (typ <> "OK" -> found = Ok []) /\
  (data = [] \/ (exists rest, data = ItemNone :: rest) \/
   (exists b rest, data = ItemBytes b :: rest /\ all_chars is_bspace b = true) ->
   found = Ok []) /\
  (forall ids, found = Ok ids -> Forall is_uid ids) /\
  (forall ids rest, typ = "OK" -> data = ItemBytes (join " " ids) :: rest ->
     Forall is_uid ids -> found = Ok ids).
Proof.
  intros Hs. cbv zeta. unfold search_uids. simpl. rewrite Hs. simpl.
  split; [|split; [|split]].
  - intros Htyp. apply String.eqb_neq in Htyp. now rewrite Htyp.
  - intros [-> | [[rest ->] | (b & rest & -> & Hb)]];
      destruct (negb (String.eqb typ "OK")); try reflexivity.
    destruct (truthy b); [|reflexivity]. f_equal. unfold bsplit.
    clear Hs. revert Hb. generalize b. clear b.
    induction b as [|c b IH]; simpl; [reflexivity|].
    intros H. apply andb_true_iff in H as [-> H]. simpl. auto.
  - intros ids. destruct (negb (String.eqb typ "OK")); [intros [= <-]; apply Forall_nil_2|].
    destruct data as [|[b| |] rest].
    + intros [= <-]. apply Forall_nil_2.
    + destruct (truthy b); intros [= <-]; [|apply Forall_nil_2].
      now apply bsplit_go_uids.
    + discriminate.
    + intros [= <-]. apply Forall_nil_2.
  - intros ids rest -> -> Hids. simpl.
    destruct ids as [|t ids]; [reflexivity|].
    destruct (truthy (join " " (t :: ids))) eqn:E.
    + now rewrite bsplit_join.
    + exfalso. apply Forall_cons in Hids as [[Hne _] _].
      destruct t; [congruence|]. destruct ids; discriminate.
Qed.

Lemma search_uids_answered_witness :
  search_uids connected (found "OK" [ItemBytes "4 9 12"]) "ALL" = Ok ["4"; "9"; "12"] /\
  search_uids connected (found "OK" [ItemBytes EmptyString]) "ALL" = Ok [] /\
  search_uids connected (found "NO" [ItemBytes "4 9 12"]) "ALL" = Ok [].
Proof.
  pose proof (search_uids_answered (listing []) (found "OK" [ItemBytes "4 9 12"]) "ALL" "OK"
                [ItemBytes "4 9 12"] eq_refl) as (_ & _ & _ & H1).
  pose proof (search_uids_answered (listing []) (found "OK" [ItemBytes EmptyString]) "ALL" "OK"
                [ItemBytes EmptyString] eq_refl) as (_ & H2 & _).
  pose proof (search_uids_answered (listing []) (found "NO" [ItemBytes "4 9 12"]) "ALL" "NO"
                [ItemBytes "4 9 12"] eq_refl) as (H3 & _).
  split; [|split].
  - apply (H1 ["4"; "9"; "12"] [] eq_refl eq_refl).
    repeat constructor; discriminate.
  - apply H2. right. right. exists EmptyString, []. split; reflexivity.
  - apply H3. discriminate.
Defined.

Lemma line_names_In (lib : library) (data : list response_item) (names : list string) :
  Forall2 (fun line name => line_name lib line = Ok name) data names ->
  forall x, In x names <-> exists line, In line data /\ line_name lib line = Ok x.
Proof.
  induction 1 as [|line name data names Hl _ IH]; intros x; simpl.
  - split; [tauto | intros (? & [] & _)].
  - rewrite IH. split.
    + intros [<- | (l & Hin & Hx)]; [exists line; auto | exists l; auto].
    + intros (l & Hin & Hx). destruct Hin as [<- | Hin];
        [left; congruence | right; exists l; auto].
Qed.

(** The folders [list_mailboxes] returns, by the lines of the answer: a
    status other than OK or an answer without data gives no folder and no
    error; otherwise the folders are the names of the lines that pass the
    test on names, each line contributing its own.  An item that is [None],
    which is what [imaplib] hands over when the server sent no line at all,
    is read through its printed form and shows up as a folder called None. *)
Theorem list_mailboxes_names
    (lib : library) (conn : imap_connection) (typ : string) (data : list response_item) :
  conn_list conn = Ok (typ, data) ->
  (typ <> "OK" \/ data = [] ->
     list_mailboxes lib {| imap_conn := Some conn |} = Ok []) /\
  (forall l,
     typ = "OK" -> list_mailboxes lib {| imap_conn := Some conn |} = Ok l ->
     (forall x, In x l <->
                exists line, In line data /\ line_name lib line = Ok x /\ keep_name x = true) /\
     (In ItemNone data -> In "None" l)).
Proof.
  intros Hlist. unfold list_mailboxes. simpl. rewrite Hlist. simpl. split.
  - intros [Htyp | ->].
    + apply String.eqb_neq in Htyp. now rewrite Htyp.
    + now rewrite orb_true_r.
  - intros l -> Hl. simpl in Hl.
    assert (Hchar : forall x, In x l <->
              exists line, In line data /\ line_name lib line = Ok x /\ keep_name x = true).
    { destruct data as [|d data];
        [simpl in Hl | change (is_nil (d :: data)) with false in Hl; cbv beta iota in Hl].
      - injection Hl as <-. intros x. split; [intros [] | intros (? & [] & _)].
      - unfold mbind, result_bind in Hl.
        destruct (collect_boxes lib [] (d :: data)) as [boxes|e] eqn:Hb; [|discriminate].
        injection Hl as <-. intros x.
        rewrite <- list_elem_of_In, sorted_set_elem_of, list_elem_of_In.
        apply collect_boxes_ok in Hb as (names & Hall & ->). simpl.
        rewrite List.filter_In, (line_names_In lib _ _ Hall). split.
        + intros [(line & Hin & Hx) Hk]. exists line. auto.
        + intros (line & Hin & Hx & Hk). split; [exists line; auto | assumption]. }
    split; [exact Hchar|].
    intros Hnone. apply Hchar. exists ItemNone. split; [assumption|]. split; reflexivity.
Qed.

(** An account without any folder. *)
Lemma list_mailboxes_names_witness :
  exists l,
    list_mailboxes plain_library {| imap_conn := Some (listing [ItemNone]) |} = Ok l /\
    In "None" l.
Proof.
  exists ["None"]. split; [reflexivity|].
  apply (proj2 (list_mailboxes_names plain_library (listing [ItemNone]) "OK" [ItemNone]
                  eq_refl) ["None"] eq_refl eq_refl).
  now left.
Defined.

(** ** Running a procedure step by step *)

Lemma run_lift_ok {A B} (a : A) (f : A -> M B) (w : machine) :
  (lift (Ok a) ≫= f) w = f a w.
Proof. reflexivity. Qed.

Lemma run_lift_raise {A B} (e : exn) (f : A -> M B) (w : machine) :
  (lift (Raise e) ≫= f) w = (Raise e, w).
Proof. reflexivity. Qed.

Lemma run_print {B} (line : string) (f : unit -> M B) (w : machine) :
  (print line ≫= f) w =
    f tt (Machine (keyboard w) (smtp_conn w) (trace w ++ [Printed line])).
Proof. reflexivity. Qed.

Lemma run_reading_ok {A B} (g : stdin -> result (A * stdin)) (f : A -> M B)
    (w : machine) (a : A) (rest : stdin) :
  g (keyboard w) = Ok (a, rest) ->
  (reading g ≫= f) w = f a (Machine rest (smtp_conn w) (trace w)).
Proof. intros H. unfold mbind, M_bind, reading. now rewrite H. Qed.

Lemma run_reading_raise {A B} (g : stdin -> result (A * stdin)) (f : A -> M B)
    (w : machine) (e : exn) :
  g (keyboard w) = Raise e ->
  (reading g ≫= f) w = (Raise e, Machine [] (smtp_conn w) (trace w)).
Proof. intros H. unfold mbind, M_bind, reading. now rewrite H. Qed.

(** The value and the lines left are those of the pure [input_nonempty]. *)
Lemma asking_input_nonempty (i : stdin) (w : machine) :
  match input_nonempty i with
  | Ok (s, rest) => fst (asking i w) = Ok s /\ keyboard (snd (asking i w)) = rest
  | Raise e => fst (asking i w) = Raise e /\ keyboard (snd (asking i w)) = []
  end.
Proof.
  revert w. induction i as [|l i IH]; intros w; simpl; [auto|].
  destruct (truthy (strip l)); [auto | apply IH].
Qed.



(** ** Fields that are parsed when they are fetched *)

Lemma get_parsed_ok (lib : library) (m : message) (name : string) (h : option string) :
  get_parsed lib m name = Ok h -> h = get m name.
Proof.
  unfold get_parsed. destruct (get m name) as [v|]; [|now intros [= <-]].
  destruct (header_fault lib name v); [discriminate | now intros [= <-]].
Qed.



(** ** Replying and forwarding *)

Lemma read_body_typed_acc (typed : list string) (term : string) (rest : stdin) :
  ends_body term ->
  forall acc,
    Forall (fun l => ~ ends_body l) typed ->
    read_body acc (typed ++ term :: rest)%list = Ok ((acc ++ typed)%list, rest).
Proof.
  unfold ends_body. intros Hterm.
  induction typed as [|l typed IH]; intros acc Ht; simpl.
  - rewrite Hterm. simpl. now rewrite app_nil_r.
  - apply Forall_cons in Ht as [Hl Ht]. apply String.eqb_neq in Hl. rewrite Hl.
    rewrite IH by assumption. now rewrite <- app_assoc.
Qed.

Lemma read_body_typed (typed : list string) (term : string) (rest : stdin) :
  Forall (fun l => ~ ends_body l) typed -> ends_body term ->
  read_body [] (typed ++ term :: rest)%list = Ok (typed, rest).
Proof. intros Ht Hterm. now rewrite read_body_typed_acc. Qed.

Lemma read_body_eof (i : stdin) :
  forall acc, Forall (fun l => ~ ends_body l) i -> read_body acc i = Raise EOFError.
Proof.
  unfold ends_body. induction i as [|l i IH]; intros acc Hi; simpl; [reflexivity|].
  apply Forall_cons in Hi as [Hl Hi]. apply String.eqb_neq in Hl. rewrite Hl. now apply IH.
Qed.

(** [reply_to_message].  A From field of the original that the parser
    raises on ends the reply before anything is printed or read, with the
    parser's exception.  Otherwise the two lines of the prompt are printed
    and the body is read: once it is typed, up to the line that is a lone
    dot, the reply is handed to [send_text] with a single recipient, the
    address part of the From field of the original, the subject of the
    reply rule and the lines typed, joined by line feeds, and it ends as
    [send_text] ends; the lines after the dot are left to be read.  When
    the input ends before a lone dot, [EOFError] is raised with every line
    read, and [send_text] is not called. *)
Theorem reply_to_message_sends
    (lib : library) (cfg : config) (srv : smtp_server) (self : MailApp)
    (original : message) (w : machine) :
  let shown := (trace w ++ reply_prompt lib original)%list in
  (forall e,
     first_fault lib original ["From"] = Some e ->
     reply_to_message lib cfg srv self original w = (Raise e, w)) /\
  (first_fault lib original ["From"] = None ->
     (forall typed term rest,
        keyboard w = (typed ++ term :: rest)%list ->
        Forall (fun l => ~ ends_body l) typed -> ends_body term ->
        reply_to_message lib cfg srv self original w =
          send_text lib cfg srv (smtp self)
            [snd (parseaddr lib (get original "From"))]
            (reply_subject original) (join newline typed) None (Some (imap self))
            (Machine rest (smtp_conn w) shown)) /\
     (Forall (fun l => ~ ends_body l) (keyboard w) ->
        reply_to_message lib cfg srv self original w =
          (Raise EOFError, Machine [] (smtp_conn w) shown))).
Proof.
  cbv zeta. unfold reply_to_message, reply_prompt. cbn [first_fault].
  destruct (get_parsed lib original "From") as [h|e0] eqn:Hg.
  - apply get_parsed_ok in Hg as ->. split; [discriminate|]. intros _.
    rewrite run_lift_ok. cbv zeta. rewrite !run_print.
    cbn [keyboard smtp_conn trace]. rewrite <- !app_assoc. cbn [app]. split.
    + intros typed term rest Hk Ht Hterm.
      erewrite run_reading_ok
        by (cbn [keyboard]; rewrite Hk; now apply read_body_typed).
      reflexivity.
    + intros Hk.
      erewrite run_reading_raise by (cbn [keyboard]; now apply read_body_eof).
      reflexivity.
  - split; [|discriminate]. intros e [= <-]. apply run_lift_raise.
Qed.

Lemma reply_to_message_sends_witness :
  reply_to_message plain_library sent_is_Sent accepting
    {| imap := broken_imap; smtp := some_client |}
    (Message [("From", "ann@example.org"); ("Subject", "lunch")] "text/plain" None
       (Ok "at noon?") (Ok "at noon?") None)
    (Machine ["yes"; "see you"; " ." ++ nbsp; "next"] None []) =
  (Raise (no_attribute "NoneType" "send_message"),
   Machine ["next"] None
     [ Printed "Odpověď na: ann@example.org";
       Printed "Text zprávy (ukonči na prázdném řádku s tečkou '.'):" ]).
Proof.
  rewrite (proj1 (proj2 (reply_to_message_sends plain_library sent_is_Sent accepting
                    {| imap := broken_imap; smtp := some_client |}
                    (Message [("From", "ann@example.org"); ("Subject", "lunch")] "text/plain"
                       None (Ok "at noon?") (Ok "at noon?") None)
                    (Machine ["yes"; "see you"; " ." ++ nbsp; "next"] None [])) eq_refl)
             ["yes"; "see you"] (" ." ++ nbsp) ["next"] eq_refl).
  - reflexivity.
  - repeat constructor; discriminate.
  - reflexivity.
Defined.



(** ** Opening a message *)





(** ** Browsing a folder *)

Lemma machine_eta (w : machine) :
  Machine (keyboard w) (smtp_conn w) (trace w) = w.
Proof. now destruct w. Qed.

Lemma show_page_cons (lib : library) (self : ImapClient) (idx : nat) (uid : bytes)
    (rest : list bytes) (w : machine) :
  show_page lib self idx (uid :: rest) w =
    match listing_line lib self idx uid with
    | Ok line =>
        show_page lib self (S idx) rest
          (Machine (keyboard w) (smtp_conn w) (trace w ++ [Printed line]))
    | Raise e => (Raise e, w)
    end.
Proof.
  cbn [show_page]. unfold listing_line.
  destruct (fetch_headers lib self uid) as [[[From Subject] Date]|e];
    [|apply run_lift_raise].
  rewrite run_lift_ok. cbn [mbind result_bind].
  destruct (decode_maybe_ok lib (VStr From)) as [f ->].
  destruct (decode_maybe_ok lib (VStr Subject)) as [sj ->].
  rewrite !run_lift_ok. cbn [mbind result_bind]. now rewrite run_print.
Qed.

Lemma listing_line_raises (lib : library) (self : ImapClient) (idx : nat) (uid : bytes)
    (e : exn) :
  fetch_headers lib self uid = Raise e -> listing_line lib self idx uid = Raise e.
Proof. unfold listing_line. now intros ->. Qed.

(** [show_page], the loop of [browse_folder]: the messages of the page are
    listed in order, one line each, numbered upwards from the number given;
    nothing is read and the SMTP connection is left alone.  When the headers
    of a message cannot be fetched, the exception leaves the loop after the
    lines of the messages before it, whatever messages come after it. *)
Theorem show_page_lines
    (lib : library) (self : ImapClient) (page : list bytes) (idx : nat) (w : machine)
    (lines : list string) :
  List.length lines = List.length page ->
  (forall k uid line,
     page !! k = Some uid -> lines !! k = Some line ->
     listing_line lib self (idx + k) uid = Ok line) ->
  let listed := Machine (keyboard w) (smtp_conn w) (trace w ++ map Printed lines) in
  show_page lib self idx page w = (Ok tt, listed) /\
  (forall uid rest e,
     fetch_headers lib self uid = Raise e ->
     show_page lib self idx (page ++ uid :: rest) w = (Raise e, listed)).
Proof.
  cbv zeta. revert idx w lines.
  induction page as [|u page IH]; intros idx w [|l lines] Hlen Hl; try discriminate.
  - cbn [map]. rewrite app_nil_r, machine_eta. split; [reflexivity|].
    intros uid rest e He. cbn [app]. rewrite show_page_cons.
    now rewrite (listing_line_raises _ _ _ _ _ He).
  - assert (H0 : listing_line lib self idx u = Ok l).
    { rewrite <- (Nat.add_0_r idx). now apply Hl. }
    destruct (IH (S idx)
                (Machine (keyboard w) (smtp_conn w) (trace w ++ [Printed l])) lines)
      as [IH1 IH2].
    { simpl in Hlen. lia. }
    { intros k uid line Hk Hline. replace (S idx + k) with (idx + S k) by lia.
      now apply Hl. }
    cbn [keyboard smtp_conn trace] in IH1, IH2. rewrite <- app_assoc in IH1, IH2.
    split.
    + now rewrite show_page_cons, H0.
    + intros uid rest e He. cbn [app]. rewrite show_page_cons, H0. now apply IH2.
Qed.

Lemma show_page_lines_witness :
  show_page plain_library
    {| imap_conn := Some (answers "OK" [ItemTuple "7 (BODY[HEADER.FIELDS] {0}" ""]) |}
    1 ["12"; "11"] (Machine ["next"] None []) =
  (Ok tt, Machine ["next"] None [Printed "1)  |  | "; Printed "2)  |  | "]).
Proof.
  refine (proj1 (show_page_lines plain_library
           {| imap_conn := Some (answers "OK" [ItemTuple "7 (BODY[HEADER.FIELDS] {0}" ""]) |}
           ["12"; "11"] 1 (Machine ["next"] None []) ["1)  |  | "; "2)  |  | "] _ _)).
  - reflexivity.
  - intros [|[|k]] uid line Hu Hline; try discriminate;
      injection Hu as <-; injection Hline as <-; reflexivity.
Defined.

Lemma show_page_keeps (lib : library) (self : ImapClient) (page : list bytes) :
  forall idx w r w',
    show_page lib self idx page w = (r, w') ->
    keyboard w' = keyboard w /\ smtp_conn w' = smtp_conn w.
Proof.
  induction page as [|u page IH]; intros idx w r w' H.
  - injection H as _ <-. now split.
  - rewrite show_page_cons in H. destruct (listing_line lib self idx u) as [line|e].
    + apply IH in H. exact H.
    + injection H as _ <-. now split.
Qed.

Lemma run_bind_ok {A B} (m : M A) (f : A -> M B) (w w' : machine) (a : A) :
  m w = (Ok a, w') -> (m ≫= f) w = f a w'.
Proof. intros H. unfold mbind, M_bind. now rewrite H. Qed.

Lemma run_bind_raise {A B} (m : M A) (f : A -> M B) (w w' : machine) (e : exn) :
  m w = (Raise e, w') -> (m ≫= f) w = (Raise e, w').
Proof. intros H. unfold mbind, M_bind. now rewrite H. Qed.

Lemma select_mailbox_run (self : ImapClient) (conn : imap_connection)
    (mailbox : string) (w : machine) :
  imap_conn self = Some conn ->
  select_mailbox self mailbox w =
    (match conn_select conn mailbox with
     | Ok typ =>
         if String.eqb typ "OK" then Ok tt
         else Raise (RuntimeError ("Nelze vybrat schránku: " ++ mailbox))
     | Raise e => Raise e
     end,
     Machine (keyboard w) (smtp_conn w) (trace w ++ [ImapSelect mailbox])).
Proof.
  intros Hc. unfold select_mailbox. rewrite Hc.
  unfold call, mbind, M_bind, emit, lift, raise.
  destruct (conn_select conn mailbox) as [typ|e]; [|reflexivity].
  now destruct (String.eqb typ "OK").
Qed.

Lemma rev_lookup {A} (l : list A) (i : nat) :
  (i < List.length l)%nat -> rev l !! i = l !! (List.length l - S i)%nat.
Proof. rewrite rev_alt. apply reverse_lookup. Qed.

(** [browse_folder] on a folder that has nothing to show.  The header line
    is printed and the folder selected; a selection that raises or that the
    server does not answer with OK, and a search that raises, end the
    procedure with the exception; a folder without messages is announced as
    such.  In none of these cases is a line read. *)
Theorem browse_folder_nothing_to_show
    (lib : library) (cfg : config) (srv : smtp_server) (more : imap_more)
    (self : MailApp) (conn : imap_connection) (mailbox : string) (w : machine) :
  imap_conn (imap self) = Some conn ->
  let entered :=
    Machine (keyboard w) (smtp_conn w) (trace w ++ folder_entered mailbox) in
  (forall e, conn_select conn mailbox = Raise e ->
     browse_folder lib cfg srv more self mailbox w = (Raise e, entered)) /\
  (forall typ, conn_select conn mailbox = Ok typ -> typ <> "OK" ->
     browse_folder lib cfg srv more self mailbox w =
       (Raise (RuntimeError ("Nelze vybrat schránku: " ++ mailbox)), entered)) /\
  (conn_select conn mailbox = Ok "OK" ->
     (forall e, search_uids (imap self) more "ALL" = Raise e ->
        browse_folder lib cfg srv more self mailbox w = (Raise e, entered)) /\
     (search_uids (imap self) more "ALL" = Ok [] ->
        browse_folder lib cfg srv more self mailbox w =
          (Ok tt,
           Machine (keyboard w) (smtp_conn w)
             (trace w ++ folder_entered mailbox ++ [Printed "Žádné zprávy."])))).
Proof.
  intros Hc. cbv zeta. unfold browse_folder, folder_entered.
  rewrite run_print.
  split; [|split; [|intros Hok; split]].
  - intros e He. erewrite run_bind_raise; [reflexivity|].
    rewrite (select_mailbox_run _ conn) by assumption. rewrite He.
    cbn [keyboard smtp_conn trace]. now rewrite <- app_assoc.
  - intros typ Ht Hne. erewrite run_bind_raise; [reflexivity|].
    rewrite (select_mailbox_run _ conn) by assumption. rewrite Ht.
    apply String.eqb_neq in Hne. rewrite Hne.
    cbn [keyboard smtp_conn trace]. now rewrite <- app_assoc.
  - intros e He. erewrite run_bind_ok
      by (rewrite (select_mailbox_run _ conn) by assumption; rewrite Hok; reflexivity).
    rewrite He, run_lift_raise. cbn [keyboard smtp_conn trace]. now rewrite <- app_assoc.
  - intros Hs. erewrite run_bind_ok
      by (rewrite (select_mailbox_run _ conn) by assumption; rewrite Hok; reflexivity).
    rewrite Hs, run_lift_ok. cbn [is_nil]. unfold print, emit.
    cbn [keyboard smtp_conn trace]. now rewrite <- !app_assoc.
Qed.

Lemma browse_folder_nothing_to_show_witness :
  browse_folder plain_library sent_is_Sent accepting (found "OK" [ItemBytes ""])
    {| imap := connected; smtp := some_client |} "INBOX" (Machine ["next"] None []) =
  (Ok tt,
   Machine ["next"] None
     [ Printed (newline ++ ">>> Schránka: INBOX"); ImapSelect "INBOX";
       Printed "Žádné zprávy." ]).
Proof.
  apply (browse_folder_nothing_to_show plain_library sent_is_Sent accepting
           (found "OK" [ItemBytes ""]) {| imap := connected; smtp := some_client |}
           (listing []) "INBOX" (Machine ["next"] None []) eq_refl);
    reflexivity.
Defined.

(** [browse_folder] on a folder with messages, once the page is listed.
    The page holds the newest messages, at most [PAGE_SIZE] of them, the
    newest first: the number [sel] stands for the message that is [sel]
    places from the end of what the server found.  The line typed is
    stripped.  When [isdigit] refuses it, nothing is opened and the
    procedure ends.  When [isdigit] accepts it, [int] converts it: an
    exception of [int], which is that of a text of more than 4300 digits or
    of a digit [int] does not convert, ends the procedure; a number of the
    page opens that message, and the index is never out of range; the
    number 0 and a number past the page open nothing, and the procedure
    ends.  A line of more than 4300 ASCII digits ends the procedure with
    the [ValueError] of [int].  Input that has ended raises [EOFError]. *)
Theorem browse_folder_opens
    (lib : library) (cfg : config) (srv : smtp_server) (more : imap_more)
    (self : MailApp) (conn : imap_connection) (mailbox : string)
    (uids : list bytes) (w listed : machine) :
  imap_conn (imap self) = Some conn ->
  conn_select conn mailbox = Ok "OK" ->
  search_uids (imap self) more "ALL" = Ok uids -> uids <> [] ->
  let page := take PAGE_SIZE (rev uids) in
  show_page lib (imap self) 1 page
    (Machine (keyboard w) (smtp_conn w) (trace w ++ folder_entered mailbox)) =
    (Ok tt, listed) ->
  (List.length page <= PAGE_SIZE)%nat /\
  (forall l rest,
     keyboard w = l :: rest ->
     let after := Machine rest (smtp_conn w) (trace listed) in
     (isdigit lib (strip l) = false ->
        browse_folder lib cfg srv more self mailbox w = (Ok tt, after)) /\
     (isdigit lib (strip l) = true ->
        (forall e, int lib (strip l) = Raise e ->
           browse_folder lib cfg srv more self mailbox w = (Raise e, after)) /\
        (forall sel, int lib (strip l) = Ok sel ->
           ((1 <= sel <= List.length page)%nat ->
              exists uid,
                uids !! (List.length uids - sel)%nat = Some uid /\
                browse_folder lib cfg srv more self mailbox w =
                  open_message lib cfg srv self mailbox uid after) /\
           (sel = 0%nat \/ (List.length page < sel)%nat ->
              browse_folder lib cfg srv more self mailbox w = (Ok tt, after)))) /\
     (isdigit lib (strip l) = true -> is_ascii (strip l) = true ->
        (MAX_STR_DIGITS < String.length (strip l))%nat ->
        browse_folder lib cfg srv more self mailbox w =
          (Raise (too_many_digits (String.length (strip l))), after))) /\
  (keyboard w = [] ->
     browse_folder lib cfg srv more self mailbox w = (Raise EOFError, listed)).
Proof.
  intros Hc Hsel Hs Hne page Hp.
  assert (Hlen : (List.length page <= PAGE_SIZE)%nat).
  { unfold page. rewrite length_take. lia. }
  split; [exact Hlen|].
  destruct (show_page_keeps _ _ _ _ _ _ _ Hp) as [Hk Hsc].
  cbn [keyboard smtp_conn] in Hk, Hsc.
  assert (Hbrowse :
            browse_folder lib cfg srv more self mailbox w =
              (cmd ← reading input;
               let cmd := strip cmd in
               if isdigit lib cmd then
                 sel ← lift (int lib cmd);
                 if ((1 <=? sel) && (sel <=? List.length page))%nat then
                   uid ← lift (index_item (rev uids) (sel - 1));
                   open_message lib cfg srv self mailbox uid
                 else mret tt
               else mret tt) listed).
  { unfold browse_folder. unfold folder_entered in Hp. rewrite run_print.
    erewrite run_bind_ok
      by (rewrite (select_mailbox_run _ conn) by assumption; rewrite Hsel; reflexivity).
    rewrite Hs, run_lift_ok. cbn [keyboard smtp_conn trace].
    replace (is_nil uids) with false by (now destruct uids).
    cbv zeta. rewrite <- app_assoc. cbn [app].
    erewrite run_bind_ok by exact Hp. reflexivity. }
  rewrite Hbrowse. clear Hbrowse. split.
  - intros l rest Hw. cbv zeta.
    erewrite run_reading_ok by (rewrite Hk, Hw; reflexivity).
    rewrite Hsc. split; [now intros -> | split; intros ->].
    2:{ intros Ha Hlong. unfold int. rewrite Ha.
        apply Nat.ltb_lt in Hlong. rewrite Hlong. apply run_lift_raise. }
    split.
    + intros e ->. apply run_lift_raise.
    + intros sel ->. rewrite run_lift_ok. split.
      * intros [H1 H2].
        apply Nat.leb_le in H1 as H1b. apply Nat.leb_le in H2 as H2b.
        rewrite H1b, H2b. cbn [andb].
        assert (Hin : (sel - 1 < List.length uids)%nat).
        { unfold page in H2. rewrite length_take, length_rev in H2. lia. }
        destruct (lookup_lt_is_Some_2 uids (List.length uids - sel)%nat)
          as [uid Hu]; [lia|].
        exists uid. split; [exact Hu|].
        unfold index_item. rewrite rev_lookup by exact Hin.
        replace (List.length uids - S (sel - 1))%nat
          with (List.length uids - sel)%nat by lia.
        rewrite Hu. now rewrite run_lift_ok.
      * intros [H0 | Hgt].
        -- now rewrite H0.
        -- apply Nat.leb_gt in Hgt. now rewrite Hgt, andb_false_r.
  - intros Hw. erewrite run_reading_raise by (rewrite Hk, Hw; reflexivity).
    rewrite <- Hw, <- Hk. now rewrite machine_eta.
Qed.

Lemma browse_folder_opens_witness :
  browse_folder plain_library sent_is_Sent accepting (found "OK" [ItemBytes "11 12"])
    {| imap := {| imap_conn := Some (answers "NO" []) |}; smtp := some_client |}
    "INBOX" (Machine [nbsp ++ "3 "; "next"] None []) =
  (Ok tt,
   Machine ["next"] None
     [ Printed (newline ++ ">>> Schránka: INBOX"); ImapSelect "INBOX";
       Printed "1)  |  | "; Printed "2)  |  | " ]).
Proof.
  refine (proj2 (proj2 (proj1 (proj2 (proj1 (proj2 (browse_folder_opens
            plain_library sent_is_Sent accepting (found "OK" [ItemBytes "11 12"])
            {| imap := {| imap_conn := Some (answers "NO" []) |}; smtp := some_client |}
            (answers "NO" []) "INBOX" ["11"; "12"]
            (Machine [nbsp ++ "3 "; "next"] None [])
            (Machine [nbsp ++ "3 "; "next"] None
               [ Printed (newline ++ ">>> Schránka: INBOX"); ImapSelect "INBOX";
                 Printed "1)  |  | "; Printed "2)  |  | " ])
            eq_refl eq_refl eq_refl _ eq_refl)) (nbsp ++ "3 ") ["next"] eq_refl)) eq_refl)
            3%nat eq_refl) _).
  - discriminate.
  - right. vm_compute. lia.
Defined.

(** ** The input is only consumed *)

Create HintDb consumes discriminated.

Lemma consumes_ret {A} (a : A) : consumes (mret a).
Proof. intros w. reflexivity. Qed.

Lemma consumes_raise {A} (e : exn) : consumes (@raise A e).
Proof. intros w. reflexivity. Qed.

Lemma consumes_lift {A} (r : result A) : consumes (lift r).
Proof. intros w. reflexivity. Qed.

Lemma consumes_emit (ev : event) : consumes (emit ev).
Proof. intros w. reflexivity. Qed.

Lemma consumes_get_conn : consumes get_conn.
Proof. intros w. reflexivity. Qed.

Lemma consumes_reading {A} (f : stdin -> result (A * stdin)) :
  takes_lines f -> consumes (reading f).
Proof.
  intros Hf w. unfold reading.
  destruct (f (keyboard w)) as [[a rest]|e] eqn:E; [|apply suffix_nil].
  exact (Hf _ _ _ E).
Qed.

Lemma asking_suffix (i : stdin) :
  forall w, suffix (keyboard (snd (asking i w))) i.
Proof.
  induction i as [|l i IH]; intros w; simpl; [reflexivity|].
  destruct (truthy (strip l)); simpl; [now apply suffix_cons_r|].
  apply suffix_cons_r, IH.
Qed.

Lemma consumes_ask_nonempty : consumes ask_nonempty.
Proof. intros w. apply asking_suffix. Qed.

Lemma consumes_bind {A B} (m : M A) (f : A -> M B) :
  consumes m -> (forall a, consumes (f a)) -> consumes (m ≫= f).
Proof.
  intros Hm Hf w. unfold mbind, M_bind. specialize (Hm w).
  destruct (m w) as [[a|e] w1]; [|exact Hm].
  etransitivity; [apply Hf | exact Hm].
Qed.

Lemma consumes_try {A} (body : M A) (handler : exn -> M A) :
  consumes body -> (forall e, consumes (handler e)) -> consumes (try_exceptM body handler).
Proof.
  intros Hm Hf w. unfold try_exceptM. specialize (Hm w).
  destruct (body w) as [[a|e] w1]; [exact Hm|].
  etransitivity; [apply Hf | exact Hm].
Qed.

Lemma consumes_print (line : string) : consumes (print line).
Proof. apply consumes_emit. Qed.

Lemma consumes_call {A} (ev : event) (outcome : result A) : consumes (call ev outcome).
Proof. apply consumes_bind; [apply consumes_emit | intros; apply consumes_lift]. Qed.

Lemma takes_input : takes_lines input.
Proof.
  intros [|l i] a rest H; [discriminate|]. injection H as _ <-.
  now apply suffix_cons_r.
Qed.

Lemma takes_read_body (acc : list string) : takes_lines (read_body acc).
Proof.
  intros i a rest. revert acc. induction i as [|l i IH]; intros acc; [discriminate|].
  simpl. destruct (String.eqb (strip l) ".").
  - intros H. injection H as _ <-. now apply suffix_cons_r.
  - intros H. apply suffix_cons_r. now apply IH in H.
Qed.

Lemma takes_read_command : takes_lines read_command.
Proof.
  intros i a rest. induction i as [|l i IH]; [discriminate|]. simpl.
  destruct (_ || _).
  - intros H. injection H as _ <-. now apply suffix_cons_r.
  - intros H. apply suffix_cons_r. now apply IH.
Qed.

Lemma consumes_input : consumes (reading input).
Proof. apply consumes_reading, takes_input. Qed.

Lemma consumes_read_body (acc : list string) : consumes (reading (read_body acc)).
Proof. apply consumes_reading, takes_read_body. Qed.

Lemma consumes_read_command : consumes (reading read_command).
Proof. apply consumes_reading, takes_read_command. Qed.

#[export] Hint Resolve consumes_ret consumes_raise consumes_lift consumes_emit
  consumes_get_conn consumes_print consumes_call consumes_input
  consumes_ask_nonempty consumes_read_body consumes_read_command : consumes.

Ltac consumes_tac :=
  repeat first
    [ solve [auto with consumes]
    | match goal with
      | |- forall _, _ => intro
      | |- consumes (match ?x with _ => _ end) => destruct x
      | |- consumes (if ?x then _ else _) => destruct x
      end
    | apply consumes_bind
    | apply consumes_try ].

Lemma consumes_select_mailbox (self : ImapClient) (mailbox : string) :
  consumes (select_mailbox self mailbox).
Proof. unfold select_mailbox. consumes_tac. Qed.

#[export] Hint Resolve consumes_select_mailbox : consumes.

Lemma consumes_send_text lib cfg srv self to_addrs subject body from_name imap_client :
  consumes (send_text lib cfg srv self to_addrs subject body from_name imap_client).
Proof. unfold send_text, archive_copy. cbv zeta. consumes_tac. Qed.

#[export] Hint Resolve consumes_send_text : consumes.

Lemma consumes_compose_and_send lib cfg srv self :
  consumes (compose_and_send lib cfg srv self).
Proof. unfold compose_and_send. cbv zeta. consumes_tac. Qed.

Lemma consumes_reply_to_message lib cfg srv self original :
  consumes (reply_to_message lib cfg srv self original).
Proof. unfold reply_to_message. cbv zeta. consumes_tac. Qed.

Lemma consumes_forward_message lib cfg srv self original :
  consumes (forward_message lib cfg srv self original).
Proof. unfold forward_message. cbv zeta. consumes_tac. Qed.

#[export] Hint Resolve consumes_compose_and_send consumes_reply_to_message
  consumes_forward_message : consumes.

Lemma consumes_open_message lib cfg srv self mailbox uid :
  consumes (open_message lib cfg srv self mailbox uid).
Proof. unfold open_message. consumes_tac. Qed.

Lemma consumes_show_page lib self page : forall idx, consumes (show_page lib self idx page).
Proof.
  induction page as [|uid page IH]; intros idx; cbn [show_page]; consumes_tac.
Qed.

#[export] Hint Resolve consumes_open_message consumes_show_page : consumes.

Lemma consumes_browse_folder lib cfg srv more self mailbox :
  consumes (browse_folder lib cfg srv more self mailbox).
Proof. unfold browse_folder. cbv zeta. consumes_tac. Qed.

#[export] Hint Resolve consumes_browse_folder : consumes.

(** ** Leaving, and the menu *)

(** [shutdown] never raises and changes nothing in the machine, whatever
    the two servers answer. *)
Lemma shutdown_run (bye : goodbye) (self : MailApp) (w : machine) :
  shutdown bye self w = (Ok tt, w).
Proof.
  unfold shutdown, smtp_close, imap_close, try_exceptM, mbind, M_bind, get_conn, lift.
  destruct (smtp_conn w) as [c|]; [destruct (smtp_quit bye) as [[]|]|];
    (destruct (imap_conn (imap self)) as [c'|]; [destruct (imap_logout bye) as [[]|]|]);
    reflexivity.
Qed.

Lemma consumes_menu_action lib cfg srv more bye self choice :
  consumes (menu_action lib cfg srv more bye self choice).
Proof.
  unfold menu_action, shutdown, smtp_close, imap_close. consumes_tac.
Qed.

Lemma menu_round_eof lib cfg srv more bye self (w : machine) :
  keyboard w = [] ->
  menu_round lib cfg srv more bye self w =
    (Raise EOFError, Machine [] (smtp_conn w) (trace w ++ menu_shown)).
Proof.
  intros Hk. unfold menu_round, menu_shown. rewrite !run_print.
  erewrite run_reading_raise by (cbn [keyboard]; rewrite Hk; reflexivity).
  cbn [keyboard smtp_conn trace]. rewrite <- !app_assoc. reflexivity.
Qed.

Lemma menu_round_asked lib cfg srv more bye self (w : machine) (l : string) (rest : stdin) :
  keyboard w = l :: rest ->
  menu_round lib cfg srv more bye self w =
    try_exceptM (menu_action lib cfg srv more bye self (strip l))
      (fun e => print ("[CHYBA] " ++ str_of_exn e);; mret true)
      (Machine rest (smtp_conn w) (trace w ++ menu_shown)).
Proof.
  intros Hk. unfold menu_round, menu_shown. rewrite !run_print.
  erewrite run_reading_ok by (cbn [keyboard]; rewrite Hk; reflexivity).
  cbn [keyboard smtp_conn trace]. rewrite <- !app_assoc. reflexivity.
Qed.

Lemma menu_action_quits lib cfg srv more bye self (w : machine) :
  menu_action lib cfg srv more bye self "0" w =
    (Ok false,
     Machine (keyboard w) (smtp_conn w) (trace w ++ [Printed "Odpojuji…"])).
Proof.
  unfold menu_action. cbn [String.eqb Ascii.eqb Bool.eqb]. rewrite run_print.
  erewrite run_bind_ok by apply shutdown_run. reflexivity.
Qed.

Lemma then_true {A} (m : M A) (w : machine) (r : result bool) (w' : machine) :
  (m;; mret true) w = (r, w') -> r = Ok true \/ exists e, r = Raise e.
Proof.
  unfold mbind, M_bind. destruct (m w) as [[a|e] w1]; intros H; injection H as <- <-; eauto.
Qed.

Lemma menu_action_goes_on lib cfg srv more bye self (choice : string)
    (w : machine) (r : result bool) (w' : machine) :
  choice <> "0" ->
  menu_action lib cfg srv more bye self choice w = (r, w') ->
  r = Ok true \/ exists e, r = Raise e.
Proof.
  intros Hc. apply String.eqb_neq in Hc. unfold menu_action. rewrite Hc.
  repeat match goal with
         | |- context [if String.eqb choice ?c then _ else _] =>
             destruct (String.eqb choice c)
         end;
    try match goal with
        | |- context [folder cfg ?k] =>
            destruct (folder cfg k) as [box|e];
              [rewrite run_lift_ok | rewrite run_lift_raise; intros H; injection H as <- <-; eauto]
        end;
    apply then_true.
Qed.

Lemma menu_round_quits lib cfg srv more bye self (w : machine) (l : string) (rest : stdin) :
  keyboard w = l :: rest -> strip l = "0" ->
  menu_round lib cfg srv more bye self w =
    (Ok false,
     Machine rest (smtp_conn w) ((trace w ++ menu_shown) ++ [Printed "Odpojuji…"])).
Proof.
  intros Hk Hl. rewrite (menu_round_asked _ _ _ _ _ _ _ _ _ Hk), Hl.
  unfold try_exceptM. now rewrite menu_action_quits.
Qed.

Lemma menu_round_after lib cfg srv more bye self (w : machine) (l : string) (rest : stdin)
    (r : result bool) (w' : machine) :
  keyboard w = l :: rest -> strip l <> "0" ->
  menu_action lib cfg srv more bye self (strip l)
    (Machine rest (smtp_conn w) (trace w ++ menu_shown)) = (r, w') ->
  menu_round lib cfg srv more bye self w =
    (Ok true,
     match r with
     | Ok _ => w'
     | Raise e => Machine (keyboard w') (smtp_conn w') (trace w' ++ [error_line e])
     end).
Proof.
  intros Hk Hl Ha. rewrite (menu_round_asked _ _ _ _ _ _ _ _ _ Hk).
  unfold try_exceptM. rewrite Ha.
  destruct (menu_action_goes_on _ _ _ _ _ _ _ _ _ _ Hl Ha) as [-> | [e ->]]; reflexivity.
Qed.

Lemma menu_round_goes_on lib cfg srv more bye self (w : machine) (l : string) (rest : stdin) :
  keyboard w = l :: rest -> strip l <> "0" ->
  exists w1,
    menu_round lib cfg srv more bye self w = (Ok true, w1) /\
    suffix (keyboard w1) rest.
Proof.
  intros Hk Hl.
  destruct (menu_action lib cfg srv more bye self (strip l)
              (Machine rest (smtp_conn w) (trace w ++ menu_shown))) as [r w'] eqn:Ha.
  eexists. split; [exact (menu_round_after _ _ _ _ _ _ _ _ _ _ _ Hk Hl Ha)|].
  pose proof (consumes_menu_action lib cfg srv more bye self (strip l)
                (Machine rest (smtp_conn w) (trace w ++ menu_shown))) as Hs.
  rewrite Ha in Hs. cbn [snd keyboard] in Hs. now destruct r.
Qed.

(** [main_menu], one round.  The menu is printed and a line read; input that
    has ended raises [EOFError], the only exception that leaves the round.
    The choice [0] prints the farewell and ends the menu, whatever the
    servers answer when the connections are closed.  After any other
    choice the menu comes again: what the action did stays done, and an
    exception it raised is printed on a line of its own and goes no
    further. *)
Theorem menu_round_reports_errors
    (lib : library) (cfg : config) (srv : smtp_server) (more : imap_more)
    (bye : goodbye) (self : MailApp) (w : machine) :
  let shown := (trace w ++ menu_shown)%list in
  (keyboard w = [] ->
     menu_round lib cfg srv more bye self w =
       (Raise EOFError, Machine [] (smtp_conn w) shown)) /\
  (forall l rest,
     keyboard w = l :: rest ->
     (strip l = "0" ->
        menu_round lib cfg srv more bye self w =
          (Ok false, Machine rest (smtp_conn w) (shown ++ [Printed "Odpojuji…"]))) /\
     (strip l <> "0" ->
        forall r w',
          menu_action lib cfg srv more bye self (strip l)
            (Machine rest (smtp_conn w) shown) = (r, w') ->
          menu_round lib cfg srv more bye self w =
            (Ok true,
             match r with
             | Ok _ => w'
             | Raise e =>
                 Machine (keyboard w') (smtp_conn w') (trace w' ++ [error_line e])
             end))).
Proof.
  cbv zeta. split; [apply menu_round_eof|].
  intros l rest Hk. split.
  - now apply menu_round_quits.
  - intros Hl r w'. now apply menu_round_after.
Qed.

Lemma menu_round_reports_errors_witness :
  menu_round plain_library sent_is_Sent accepting (found "OK" [])
    (Goodbye (Raise (LibraryError "connection lost")) (Ok tt))
    {| imap := connected; smtp := some_client |}
    (Machine [" 5"; "bob@example.org"] None []) =
  (Ok true,
   Machine [] None (menu_shown ++ [Printed "[CHYBA] EOF when reading a line"])).
Proof.
  refine (proj2 (proj2 (menu_round_reports_errors plain_library sent_is_Sent accepting
            (found "OK" []) (Goodbye (Raise (LibraryError "connection lost")) (Ok tt))
            {| imap := connected; smtp := some_client |}
            (Machine [" 5"; "bob@example.org"] None []))
            " 5" ["bob@example.org"] eq_refl)
            _ (Raise EOFError) (Machine [] None menu_shown) _).
  - discriminate.
  - reflexivity.
Defined.

(** A folder of the menu that the configuration does not name: the
    [KeyError] is caught by the menu, which prints the key between quotes
    and comes again; no folder is selected. *)
Theorem menu_round_missing_folder
    (lib : library) (cfg : config) (srv : smtp_server) (more : imap_more)
    (bye : goodbye) (self : MailApp) (w : machine)
    (choice key l : string) (rest : stdin) :
  In (choice, key) folder_choices ->
  FOLDERS cfg !! key = None ->
  keyboard w = l :: rest -> strip l = choice ->
  menu_round lib cfg srv more bye self w =
    (Ok true,
     Machine rest (smtp_conn w)
       (trace w ++ menu_shown ++ [Printed ("[CHYBA] '" ++ key ++ "'")])).
Proof.
  intros Hin Hkey Hk Hl.
  rewrite (menu_round_asked _ _ _ _ _ _ _ _ _ Hk), Hl. unfold try_exceptM, menu_action.
  destruct Hin as [Hc | [Hc | [Hc | [Hc | []]]]]; injection Hc as <- <-;
    cbn [String.eqb Ascii.eqb Bool.eqb]; unfold folder; rewrite Hkey, run_lift_raise;
    rewrite run_print; cbn [keyboard smtp_conn trace str_of_exn];
    now rewrite <- app_assoc.
Qed.

Lemma menu_round_missing_folder_witness :
  menu_round plain_library sent_is_Sent accepting (found "OK" [])
    (Goodbye (Ok tt) (Ok tt)) {| imap := connected; smtp := some_client |}
    (Machine ["3"; "0"] None []) =
  (Ok true, Machine ["0"] None (menu_shown ++ [Printed "[CHYBA] 'trash'"])).
Proof.
  apply (menu_round_missing_folder plain_library sent_is_Sent accepting (found "OK" [])
           (Goodbye (Ok tt) (Ok tt)) {| imap := connected; smtp := some_client |}
           (Machine ["3"; "0"] None []) "3" "trash" "3" ["0"]).
  - right. right. left. reflexivity.
  - reflexivity.
  - reflexivity.
  - reflexivity.
Defined.

Lemma suffix_In {A} (x : A) (k l : list A) : suffix k l -> In x k -> In x l.
Proof. intros [pre ->] Hin. apply in_or_app. now right. Qed.

Lemma main_menu_outcome
    (lib : library) (cfg : config) (srv : smtp_server) (more : imap_more)
    (bye : goodbye) (self : MailApp) (fuel : nat) (w : machine) :
  (List.length (keyboard w) < fuel)%nat ->
  exists w',
    (main_menu fuel lib cfg srv more bye self w = (Ok (Some tt), w') /\
     (exists l, In l (keyboard w) /\ strip l = "0") /\
     last (trace w') = Some (Printed "Odpojuji…")) \/
    (main_menu fuel lib cfg srv more bye self w = (Raise EOFError, w') /\
     keyboard w' = []).
Proof.
  revert w. induction fuel as [|fuel IH]; intros w Hlt; [lia|].
  cbn [main_menu].
  destruct (keyboard w) as [|l rest] eqn:Hk.
  - eexists. right. split.
    + erewrite run_bind_raise by (apply menu_round_eof; exact Hk). reflexivity.
    + reflexivity.
  - destruct (String.eqb (strip l) "0") eqn:E.
    + apply String.eqb_eq in E. eexists. left. split; [|split].
      * erewrite run_bind_ok
          by exact (menu_round_quits lib cfg srv more bye self w l rest Hk E).
        reflexivity.
      * exists l. split; [now left | exact E].
      * cbn [trace]. apply last_snoc.
    + apply String.eqb_neq in E.
      destruct (menu_round_goes_on lib cfg srv more bye self w l rest Hk E)
        as [w1 [Hr Hsuf]].
      destruct (IH w1) as [w' [[Hm [[l' [Hin Hs]] Hlast]] | [Hm Hnil]]].
      { apply suffix_length in Hsuf. simpl in Hlt. lia. }
      * exists w'. left. split; [|split].
        -- erewrite run_bind_ok by exact Hr. exact Hm.
        -- exists l'. split; [|exact Hs]. right. now apply (suffix_In _ _ _ Hsuf).
        -- exact Hlast.
      * exists w'. right. split; [|exact Hnil].
        erewrite run_bind_ok by exact Hr. exact Hm.
Qed.

(** [main_menu] ends on every input, and in one of two ways only: by the
    choice [0], one of the lines of the input, after the farewell is
    printed; or with [EOFError], when the input has run out at the prompt
    of the menu.  No other exception leaves the menu, and no more rounds
    are played than lines are read: a bound above the number of lines is
    never reached. *)
Theorem main_menu_ends
    (lib : library) (cfg : config) (srv : smtp_server) (more : imap_more)
    (bye : goodbye) (self : MailApp) (fuel : nat) (w : machine) :
  (List.length (keyboard w) < fuel)%nat ->
  exists w',
    (main_menu fuel lib cfg srv more bye self w = (Ok (Some tt), w') /\
     (exists l, In l (keyboard w) /\ strip l = "0") /\
     last (trace w') = Some (Printed "Odpojuji…")) \/
    (main_menu fuel lib cfg srv more bye self w = (Raise EOFError, w') /\
     keyboard w' = []).
Proof. apply main_menu_outcome. Qed.

Lemma main_menu_ends_witness :
  exists w',
    (main_menu 3 plain_library sent_is_Sent accepting (found "OK" [])
       (Goodbye (Ok tt) (Ok tt)) {| imap := connected; smtp := some_client |}
       (Machine ["9"; " 0 "] None []) = (Ok (Some tt), w') /\
     (exists l, In l ["9"; " 0 "] /\ strip l = "0") /\
     last (trace w') = Some (Printed "Odpojuji…")) \/
    (main_menu 3 plain_library sent_is_Sent accepting (found "OK" [])
       (Goodbye (Ok tt) (Ok tt)) {| imap := connected; smtp := some_client |}
       (Machine ["9"; " 0 "] None []) = (Raise EOFError, w') /\
     keyboard w' = []).
Proof.
  apply (main_menu_ends plain_library sent_is_Sent accepting (found "OK" [])
           (Goodbye (Ok tt) (Ok tt)) {| imap := connected; smtp := some_client |}
           3 (Machine ["9"; " 0 "] None [])).
  simpl. lia.
Defined.

(** ** Starting, and the program *)

Lemma consumes_set_conn (c : smtp_connection) : consumes (set_conn c).
Proof. intros w. reflexivity. Qed.

#[export] Hint Resolve consumes_set_conn : consumes.

Lemma consumes_connect (cfg : config) (srv : smtp_server) (self : SmtpClient) :
  consumes (connect cfg srv self).
Proof. unfold connect. consumes_tac. Qed.

Lemma consumes_debug_lines (lib : library) (data : list response_item) :
  consumes (debug_lines lib data).
Proof. induction data as [|line data IH]; cbn [debug_lines]; consumes_tac. Qed.

Lemma consumes_print_boxes (boxes : list string) : consumes (print_boxes boxes).
Proof. induction boxes as [|box boxes IH]; cbn [print_boxes]; consumes_tac. Qed.

#[export] Hint Resolve consumes_connect consumes_debug_lines consumes_print_boxes
  : consumes.

Create HintDb keeps_input discriminated.

Lemma keeps_ret {A} (a : A) : keeps_input (mret a).
Proof. intros w. reflexivity. Qed.

Lemma keeps_raise {A} (e : exn) : keeps_input (@raise A e).
Proof. intros w. reflexivity. Qed.

Lemma keeps_lift {A} (r : result A) : keeps_input (lift r).
Proof. intros w. reflexivity. Qed.

Lemma keeps_emit (ev : event) : keeps_input (emit ev).
Proof. intros w. reflexivity. Qed.

Lemma keeps_set_conn (c : smtp_connection) : keeps_input (set_conn c).
Proof. intros w. reflexivity. Qed.

Lemma keeps_bind {A B} (m : M A) (f : A -> M B) :
  keeps_input m -> (forall a, keeps_input (f a)) -> keeps_input (m ≫= f).
Proof.
  intros Hm Hf w. unfold mbind, M_bind. specialize (Hm w).
  destruct (m w) as [[a|e] w1]; [|exact Hm].
  cbn [snd] in Hm. now rewrite Hf.
Qed.

Lemma keeps_try {A} (body : M A) (handler : exn -> M A) :
  keeps_input body -> (forall e, keeps_input (handler e)) ->
  keeps_input (try_exceptM body handler).
Proof.
  intros Hm Hf w. unfold try_exceptM. specialize (Hm w).
  destruct (body w) as [[a|e] w1]; [exact Hm|].
  cbn [snd] in Hm. now rewrite Hf.
Qed.

Lemma keeps_print (line : string) : keeps_input (print line).
Proof. apply keeps_emit. Qed.

Lemma keeps_call {A} (ev : event) (outcome : result A) : keeps_input (call ev outcome).
Proof. apply keeps_bind; [apply keeps_emit | intros; apply keeps_lift]. Qed.

#[export] Hint Resolve keeps_ret keeps_raise keeps_lift keeps_emit keeps_set_conn
  keeps_print keeps_call : keeps_input.

Lemma connect_keeps_input (cfg : config) (srv : smtp_server) (self : SmtpClient) :
  keeps_input (connect cfg srv self).
Proof.
  unfold connect.
  repeat first
    [ solve [auto with keeps_input]
    | match goal with
      | |- forall _, _ => intro
      | |- keeps_input (if ?x then _ else _) => destruct x
      end
    | apply keeps_bind
    | apply keeps_try ].
Qed.

Lemma print_boxes_run (boxes : list string) :
  forall w,
    print_boxes boxes w =
      (Ok tt, Machine (keyboard w) (smtp_conn w) (trace w ++ map box_line boxes)).
Proof.
  induction boxes as [|box boxes IH]; intros w; cbn [print_boxes map].
  - now rewrite app_nil_r, machine_eta.
  - rewrite run_print, IH. cbn [keyboard smtp_conn trace]. now rewrite <- app_assoc.
Qed.

Lemma fatal_run (bye : goodbye) (app : MailApp) (e : exn) (w : machine) :
  (print ("[FATAL] " ++ str_of_exn e);;
   try_exceptM (shutdown bye app) (fun _ => mret tt)) w =
    (Ok tt, Machine (keyboard w) (smtp_conn w) (trace w ++ [fatal_line e])).
Proof. rewrite run_print. unfold try_exceptM. now rewrite shutdown_run. Qed.

Lemma settles_bind {A} (fuel : nat) (i : stdin) (m : M A) (f : A -> M (option unit)) :
  consumes m -> (forall a, settles fuel i (f a)) -> settles fuel i (m ≫= f).
Proof.
  intros Hm Hf w Hs Hl. unfold mbind, M_bind. specialize (Hm w).
  destruct (m w) as [[a|e] w1]; [|exact I]. cbn [snd] in Hm.
  apply Hf.
  - now transitivity (keyboard w).
  - apply suffix_length in Hm. lia.
Qed.

Lemma settles_main_menu (fuel : nat) (i : stdin) lib cfg srv more bye self :
  settles fuel i (main_menu fuel lib cfg srv more bye self).
Proof.
  intros w Hs Hl.
  destruct (main_menu_outcome lib cfg srv more bye self fuel w Hl)
    as [w' [[-> [[l [Hin Hl0]] Hlast]] | [-> _]]]; [|exact I].
  split; [|exact Hlast]. exists l. split; [|exact Hl0].
  now apply (suffix_In _ _ _ Hs).
Qed.

Lemma settles_start_connected (fuel : nat) (i : stdin) lib cfg srv isrv more bye self
    (debug_folders : bool) :
  settles fuel i (start_connected fuel lib cfg srv isrv more bye self debug_folders).
Proof.
  unfold start_connected.
  repeat (apply settles_bind; [solve [consumes_tac] | intros]).
  apply settles_main_menu.
Qed.

Lemma imap_connect_ok (isrv : imap_server) (self : ImapClient) (conn : imap_connection) :
  imap_ssl_connect isrv = Ok conn -> imap_login isrv = Ok "OK" ->
  imap_connect isrv self = ({| imap_conn := Some conn |}, Ok tt).
Proof. intros Hs Hl. unfold imap_connect. now rewrite Hs, Hl. Qed.

(** [main] always ends with an exit status, when the bound is above the
    number of lines of the input.  The status is 0 only when the menu was
    left by the choice [0], one of the lines of the input, after the
    farewell; in every other case it is 1, and the last thing printed is
    the line of a fatal error: so it is when a connection fails, when the
    folders cannot be listed, and when the input runs out in the menu. *)
Theorem main_exits
    (lib : library) (cfg : config) (srv : smtp_server) (isrv : imap_server)
    (more : imap_more) (bye : goodbye) (client : SmtpClient) (i : stdin) (fuel : nat) :
  (List.length i < fuel)%nat ->
  exists w',
    (main fuel lib cfg srv isrv more bye client i = (Some 0%nat, w') /\
     (exists l, In l i /\ strip l = "0") /\
     last (trace w') = Some (Printed "Odpojuji…")) \/
    (exists e,
       main fuel lib cfg srv isrv more bye client i = (Some 1%nat, w') /\
       last (trace w') = Some (fatal_line e)).
Proof.
  intros Hlen. unfold main, start. cbv zeta. cbn [imap smtp].
  destruct (imap_connect isrv {| imap_conn := None |}) as [ic [[]|e]].
  - pose proof (settles_start_connected fuel i lib cfg srv isrv more bye
                  {| imap := ic; smtp := client |} false
                  (snd (print "Připojuji IMAP/SMTP…" (Machine i None [])))) as H.
    specialize (H (reflexivity _) Hlen).
    destruct (start_connected fuel lib cfg srv isrv more bye
                {| imap := ic; smtp := client |} false
                (snd (print "Připojuji IMAP/SMTP…" (Machine i None []))))
      as [[[[]|]|e] w'].
    + exists w'. left. split; [reflexivity | exact H].
    + contradiction.
    + eexists. right. exists e. rewrite fatal_run. split; [reflexivity|].
      cbn [snd trace]. apply last_snoc.
  - eexists. right. exists e. rewrite fatal_run. split; [reflexivity|].
    cbn [snd trace]. apply last_snoc.
Qed.

Lemma main_exits_witness :
  exists w',
    (main 2 plain_library sent_is_Sent accepting (imap_listing two_cases)
       (found "OK" []) polite some_client [" 0"] = (Some 0%nat, w') /\
     (exists l, In l [" 0"] /\ strip l = "0") /\
     last (trace w') = Some (Printed "Odpojuji…")) \/
    (exists e,
       main 2 plain_library sent_is_Sent accepting (imap_listing two_cases)
         (found "OK" []) polite some_client [" 0"] = (Some 1%nat, w') /\
       last (trace w') = Some (fatal_line e)).
Proof.
  apply (main_exits plain_library sent_is_Sent accepting (imap_listing two_cases)
           (found "OK" []) polite some_client [" 0"] 2).
  simpl. lia.
Defined.

(** Input that runs out while a message is typed: the body takes the line
    [0], the [EOFError] is printed by the menu, which comes again and finds
    no line left; the status is 1. *)
Example main_input_runs_out_in_body :
  exists w',
    main 5 plain_library sent_is_Sent accepting (imap_listing two_cases)
      (found "OK" []) polite some_client ["5"; "a@x.org"; "subj"; "0"] = (Some 1%nat, w') /\
    keyboard w' = [] /\
    In (error_line EOFError) (trace w') /\
    last (trace w') = Some (fatal_line EOFError).
Proof.
  eexists. split; [vm_compute; reflexivity|]. split; [reflexivity|].
  split; [vm_compute; tauto | reflexivity].
Qed.

(** The choice [0] typed after a no-break space leaves the menu. *)
Example main_leaves_after_no_break_space :
  exists w',
    main 2 plain_library sent_is_Sent accepting (imap_listing two_cases)
      (found "OK" []) polite some_client [nbsp ++ "0"] = (Some 0%nat, w') /\
    last (trace w') = Some (Printed "Odpojuji…").
Proof. eexists. split; [vm_compute; reflexivity | reflexivity]. Qed.

(** [main] when the IMAP connection cannot be made or the login is refused
    or raises: the status is 1 and the fatal line tells the reason; the
    SMTP server is not contacted, nothing else is printed and no line is
    read. *)
Theorem main_stops_when_imap_fails
    (lib : library) (cfg : config) (srv : smtp_server) (isrv : imap_server)
    (more : imap_more) (bye : goodbye) (client : SmtpClient) (i : stdin) (fuel : nat) :
  let stopped e := (Some 1%nat, Machine i None [connecting; fatal_line e]) in
  (forall e, imap_ssl_connect isrv = Raise e ->
     main fuel lib cfg srv isrv more bye client i = stopped e) /\
  (forall conn e, imap_ssl_connect isrv = Ok conn -> imap_login isrv = Raise e ->
     main fuel lib cfg srv isrv more bye client i = stopped e) /\
  (forall conn typ,
     imap_ssl_connect isrv = Ok conn -> imap_login isrv = Ok typ -> typ <> "OK" ->
     main fuel lib cfg srv isrv more bye client i =
       stopped (RuntimeError "IMAP přihlášení selhalo.")).
Proof.
  cbv zeta. unfold main, start, imap_connect. cbv zeta. cbn [imap smtp]. split; [|split].
  - intros e He. rewrite He. now rewrite fatal_run.
  - intros conn e Hc He. rewrite Hc, He. cbn [mbind result_bind]. now rewrite fatal_run.
  - intros conn typ Hc Ht Hne. rewrite Hc, Ht. cbn [mbind result_bind].
    apply String.eqb_neq in Hne. rewrite Hne. now rewrite fatal_run.
Qed.

Lemma main_stops_when_imap_fails_witness :
  main 1 plain_library sent_is_Sent accepting imap_refusing (found "OK" []) polite
    some_client ["1"; "0"] =
  (Some 1%nat,
   Machine ["1"; "0"] None
     [ Printed "Připojuji IMAP/SMTP…"; Printed "[FATAL] IMAP přihlášení selhalo." ]).
Proof.
  apply (proj2 (proj2 (main_stops_when_imap_fails plain_library sent_is_Sent accepting
                         imap_refusing (found "OK" []) polite some_client ["1"; "0"] 1))
           (listing []) "NO").
  - reflexivity.
  - reflexivity.
  - discriminate.
Defined.

(** [main] once both clients are connected.  When the folders cannot be
    listed the program stops there, with the status 1 and the exception on
    the fatal line, before any menu and with no line read: so it does on a
    response that [list_mailboxes] cannot read.  When they are listed,
    each is printed on a line, in the order of [list_mailboxes], and the
    menu runs on the whole input with the client as connected; the
    status is read off the outcome of the menu. *)
Theorem main_lists_folders
    (lib : library) (cfg : config) (srv : smtp_server) (isrv : imap_server)
    (more : imap_more) (bye : goodbye) (client : SmtpClient) (i : stdin) (fuel : nat)
    (conn : imap_connection) (w2 : machine) :
  imap_ssl_connect isrv = Ok conn -> imap_login isrv = Ok "OK" ->
  connect cfg srv client (Machine i None [connecting]) = (Ok tt, w2) ->
  let app := {| imap := {| imap_conn := Some conn |}; smtp := client |} in
  let greeted := (trace w2 ++ logged_in_as (smtp_user client))%list in
  (forall e, list_mailboxes lib (imap app) = Raise e ->
     main fuel lib cfg srv isrv more bye client i =
       (Some 1%nat, Machine i (smtp_conn w2) (greeted ++ [fatal_line e]))) /\
  (forall boxes, list_mailboxes lib (imap app) = Ok boxes ->
     main fuel lib cfg srv isrv more bye client i =
       exit_of
         (main_menu fuel lib cfg srv more bye app
            (Machine i (smtp_conn w2) (greeted ++ map box_line boxes)))).
Proof.
  intros Hc Hl Hconn. cbv zeta.
  pose proof (connect_keeps_input cfg srv client (Machine i None [connecting])) as Hk.
  rewrite Hconn in Hk. cbn [snd keyboard] in Hk.
  unfold main, start. cbv zeta. cbn [imap smtp].
  rewrite (imap_connect_ok _ _ conn Hc Hl).
  unfold start_connected, logged_in_as. cbn [imap smtp].
  change (snd (print "Připojuji IMAP/SMTP…" (Machine i None [])))
    with (Machine i None [connecting]).
  erewrite run_bind_ok by exact Hconn.
  rewrite run_print. cbv iota. erewrite (run_bind_ok (mret tt)) by reflexivity.
  rewrite run_print. cbn [keyboard smtp_conn trace].
  rewrite Hk, <- !app_assoc. cbn [app].
  split.
  - intros e He. rewrite He, run_lift_raise, fatal_run.
    cbn [snd keyboard smtp_conn trace]. now rewrite <- !app_assoc.
  - intros boxes Hb. rewrite Hb, run_lift_ok.
    erewrite run_bind_ok by apply print_boxes_run.
    cbn [keyboard smtp_conn trace]. rewrite <- !app_assoc. cbn [app].
    unfold exit_of.
    destruct (main_menu fuel lib cfg srv more bye
                {| imap := {| imap_conn := Some conn |}; smtp := client |}
                (Machine i (smtp_conn w2)
                   (trace w2 ++
                    Printed ("Hotovo. Přihlášen jako: " ++ smtp_user client)
                    :: Printed (newline ++ "Dostupné složky:") :: map box_line boxes)))
      as [[[[]|]|e] w']; try reflexivity.
    now rewrite fatal_run.
Qed.

Lemma main_lists_folders_witness :
  main 1 plain_library sent_is_Sent accepting (imap_listing with_empty_line)
    (found "OK" []) polite some_client ["1"; "0"] =
  (Some 1%nat,
   Machine ["1"; "0"] (Some SMTP_SSL)
     [ Printed "Připojuji IMAP/SMTP…";
       Printed "SMTP: pokus o připojení na port 465 (SSL)…";
       SslConnect "mail.example.org" 465;
       Login SMTP_SSL "me@example.org";
       Printed "SMTP: připojení přes SSL OK.";
       Printed "Hotovo. Přihlášen jako: me@example.org";
       Printed (newline ++ "Dostupné složky:");
       Printed "[FATAL] list index out of range" ]).
Proof.
  apply (proj1 (main_lists_folders plain_library sent_is_Sent accepting
                  (imap_listing with_empty_line) (found "OK" []) polite some_client
                  ["1"; "0"] 1 (listing with_empty_line)
                  (Machine ["1"; "0"] (Some SMTP_SSL)
                     [ Printed "Připojuji IMAP/SMTP…";
                       Printed "SMTP: pokus o připojení na port 465 (SSL)…";
                       SslConnect "mail.example.org" 465;
                       Login SMTP_SSL "me@example.org";
                       Printed "SMTP: připojení přes SSL OK." ])
                  eq_refl eq_refl eq_refl) IndexError).
  reflexivity.
Defined.
